(** * mustache.js: parser and writer, embedded and verified

    A shallow embedding of the template parser ([parseTemplate],
    [squashTokens], [nestTokens]) and of the [Writer] of mustache.js,
    followed by the properties of the natural-language specification.

    JavaScript strings are lists of characters ([list ascii], code units
    below 256); arrays are lists; the object used as the template cache is
    a finite map, and so are the own properties of the partials object,
    which also has the properties that every object inherits; closure
    variables of [parseTemplate] are the fields of one state record that
    the loop threads; thrown errors are the [Throw] outcome. *)

From Stdlib Require Import Ascii String ZArith DecimalString.
From stdpp Require Import gmap strings list.

Set Default Proof Using "Type".
Open Scope list_scope.

(** ** Strings *)

Abbreviation jstring := (list ascii).

(** A string literal as a JavaScript string. *)
Definition js (s : string) : jstring := list_ascii_of_string s.

(** Characters matched by the regular expression class [\s] (among the code
    units below 256): tab, line feed, vertical tab, form feed, carriage
    return, space and no-break space. *)
Definition ws_chars : list ascii :=
  ["009"; "010"; "011"; "012"; "013"; " "; "160"]%char.

Definition char_in (c : ascii) (cs : list ascii) : bool :=
  existsb (Ascii.eqb c) cs.

Definition is_ws (c : ascii) : bool := char_in c ws_chars.
Arguments is_ws : simpl never.

Definition newline : ascii := "010"%char.

Fixpoint starts_with (p s : jstring) : bool :=
  match p, s with
  | [], _ => true
  | a :: p', b :: s' => Ascii.eqb a b && starts_with p' s'
  | _ :: _, [] => false
  end.

Definition jstring_eqb (a b : jstring) : bool := bool_decide (a = b).

(** [Array.prototype.join]. *)
Fixpoint join (sep : jstring) (l : list jstring) : jstring :=
  match l with
  | [] => []
  | [x] => x
  | x :: rest => x ++ sep ++ join sep rest
  end.

(** [String.prototype.slice] with offsets inside the string; an absent end
    offset means the end of the string. *)
Definition slice (s : jstring) (from : nat) (to : option nat) : jstring :=
  match to with
  | Some e => take (e - from) (drop from s)
  | None => drop from s
  end.

(** ** Regular expressions

    Every regular expression of the parser is a sequence of literal text,
    [\s*], [\s+] and one character class; [match_here] is the backtracking,
    greedy matcher of JavaScript on that fragment, anchored at the start of
    its input, and returns the length of the match. *)

Inductive atom :=
| Lit (s : jstring)
| WsStar
| WsPlus
| OneOf (cs : list ascii).

Abbreviation regexp := (list atom).

Fixpoint star (k : jstring -> option nat) (s : jstring) : option nat :=
  match s with
  | c :: s' =>
      if is_ws c then
        match star k s' with
        | Some n => Some (S n)
        | None => k s
        end
      else k s
  | [] => k []
  end.

Fixpoint match_here (re : regexp) (s : jstring) : option nat :=
  match re with
  | [] => Some 0
  | Lit l :: re' =>
      if starts_with l s
      then (fun n => length l + n) <$> match_here re' (drop (length l) s)
      else None
  | WsStar :: re' => star (match_here re') s
  | WsPlus :: re' =>
      match s with
      | c :: s' => if is_ws c then S <$> star (match_here re') s' else None
      | [] => None
      end
  | OneOf cs :: re' =>
      match s with
      | c :: s' => if char_in c cs then S <$> match_here re' s' else None
      | [] => None
      end
  end.

(** [String.prototype.search]: the index of the leftmost match. *)
Fixpoint search (re : regexp) (s : jstring) : option nat :=
  match match_here re s with
  | Some _ => Some 0
  | None =>
      match s with
      | [] => None
      | _ :: s' => S <$> search re s'
      end
  end.

(** [escapeRegExp] turns a string into the source of a pattern that matches
    it literally. *)
Definition escapeRegExp (s : jstring) : regexp := [Lit s].

Definition whiteRe : regexp := [WsStar].
Definition spaceRe : regexp := [WsPlus].
Definition equalsRe : regexp := [WsStar; Lit (js "=")].
Definition curlyRe : regexp := [WsStar; Lit (js "}")].
Definition tagRe : regexp := [OneOf (js "#^/>{&=!")].

Definition isWhitespace (s : jstring) : bool := forallb is_ws s.

(** [string.split(spaceRe, 2)]: the pieces between runs of whitespace, at
    most two of them. *)
Fixpoint skip_ws (s : jstring) : jstring :=
  match s with
  | c :: s' => if is_ws c then skip_ws s' else s
  | [] => []
  end.

Fixpoint split_piece (s : jstring) : jstring * option jstring :=
  match s with
  | [] => ([], None)
  | c :: s' =>
      if is_ws c then ([], Some (skip_ws s'))
      else let '(p, r) := split_piece s' in (c :: p, r)
  end.

Definition split_space2 (s : jstring) : list jstring :=
  match split_piece s with
  | (p, None) => [p]
  | (p, Some r) => [p; fst (split_piece r)]
  end.

(** [String.prototype.split] on one separator character. *)
Fixpoint split_on (sep : ascii) (s : jstring) : list jstring :=
  match s with
  | [] => [[]]
  | c :: s' =>
      if Ascii.eqb c sep then [] :: split_on sep s'
      else match split_on sep s' with
           | p :: ps => (c :: p) :: ps
           | [] => [[c]]
           end
  end.

(** ** Scanner *)

Module Scanner.

(** Modelled from the spec: the scanner class is not among the sources. A
    scanner wraps a source string and a cursor position. *)
Record t := Make { source : jstring; pos : nat }.

(** Modelled from the spec: a new scanner has its cursor at the start. *)
Definition new (s : jstring) : t := Make s 0.

(** Modelled from the spec: the text from the cursor to the end. *)
Definition tail (sc : t) : jstring := drop (pos sc) (source sc).

(** Modelled from the spec: [eos] reports whether the cursor is at the
    end. *)
Definition eos (sc : t) : bool :=
  match tail sc with [] => true | _ => false end.

(** Modelled from the spec: if the pattern matches starting exactly at the
    cursor, [scan] advances the cursor past the match and returns the
    matched text; otherwise it returns the empty string and does not
    advance. *)
Definition scan (re : regexp) (sc : t) : jstring * t :=
  match match_here re (tail sc) with
  | Some n => (take n (tail sc), Make (source sc) (pos sc + n))
  | None => ([], sc)
  end.

(** Modelled from the spec: [scanUntil] advances the cursor up to (not
    including) the first occurrence of the pattern at or after the cursor,
    or to the end of the string if there is none, and returns the skipped
    text. *)
Definition scanUntil (re : regexp) (sc : t) : jstring * t :=
  match search re (tail sc) with
  | Some i => (take i (tail sc), Make (source sc) (pos sc + i))
  | None => (tail sc, Make (source sc) (pos sc + length (tail sc)))
  end.

End Scanner.

(** ** Outcomes of computations that may throw *)

Inductive tags_arg :=
| TagsUndefined
| TagsString (s : jstring)
| TagsArray (l : list jstring).

Inductive error :=
| InvalidTags (tagsToCompile : tags_arg)
| UnclosedTag (pos : nat)
| UnopenedSection (value : jstring) (start : nat)
| UnclosedSection (name : jstring) (pos : nat)
| NoOriginalTemplate
| TypeError (what : jstring).

(** [Ok] is a normal return, [Throw] a thrown error; [OutOfFuel] is only
    produced when a bounded loop or a bounded recursion runs out of its
    bound. *)
Inductive outcome (A : Type) :=
| Ok (a : A)
| Throw (e : error)
| OutOfFuel.
Arguments Ok {A} a.
Arguments Throw {A} e.
Arguments OutOfFuel {A}.

Definition obind {A B} (x : outcome A) (f : A -> outcome B) : outcome B :=
  match x with
  | Ok a => f a
  | Throw e => Throw e
  | OutOfFuel => OutOfFuel
  end.

(** ** Tokens *)

(** The first element of a token: ['text'], ['name'] or the character of the
    tag. *)
Inductive symbol :=
| text | name | hash | caret | slash | gt | curly | amp | equals | bang.

(** What [scanner.scan(tagRe) || 'name'] evaluates to. *)
Definition symbol_of_scan (s : jstring) : symbol :=
  match s with
  | c :: _ =>
      if Ascii.eqb c "#" then hash else if Ascii.eqb c "^" then caret
      else if Ascii.eqb c "/" then slash else if Ascii.eqb c ">" then gt
      else if Ascii.eqb c "{" then curly else if Ascii.eqb c "&" then amp
      else if Ascii.eqb c "=" then equals else if Ascii.eqb c "!" then bang
      else name
  | [] => name
  end.

(** A token is an array [[type, value, start, end]]; a nested section has two
    more elements, its children and the offset at which its closing tag
    begins; a partial has three more, the indentation before the tag, the
    index of the tag on its line and whether the line had a character that
    is not whitespace. *)
#[warnings="-register-all"]
Inductive token :=
| Tok (type : symbol) (value : jstring) (start end_ : nat)
| TokSection (type : symbol) (value : jstring) (start end_ : nat)
    (children : list token) (closeStart : option nat)
| TokPartial (type : symbol) (value : jstring) (start end_ : nat)
    (indentation : jstring) (tagIndex : nat) (lineHasNonSpace : bool).

Definition tok_type (t : token) : symbol :=
  match t with
  | Tok ty _ _ _ | TokSection ty _ _ _ _ _ | TokPartial ty _ _ _ _ _ _ => ty
  end.

Definition tok_value (t : token) : jstring :=
  match t with
  | Tok _ v _ _ | TokSection _ v _ _ _ _ | TokPartial _ v _ _ _ _ _ => v
  end.

Definition tok_start (t : token) : nat :=
  match t with
  | Tok _ _ s _ | TokSection _ _ s _ _ _ | TokPartial _ _ s _ _ _ _ => s
  end.

Definition tok_end (t : token) : nat :=
  match t with
  | Tok _ _ _ e | TokSection _ _ _ e _ _ | TokPartial _ _ _ e _ _ _ => e
  end.

(** ** squashTokens *)

(** The loop of [squashTokens]; [squashed_rev] is [squashedTokens] with its
    last element, which [lastToken] aliases, first. Holes left by [delete]
    are skipped. *)
Fixpoint squash_loop (tokens : list (option token)) (squashed_rev : list token)
  : list token :=
  match tokens with
  | [] => rev squashed_rev
  | None :: rest => squash_loop rest squashed_rev
  | Some token :: rest =>
      match tok_type token, squashed_rev with
      | text, lastToken :: before =>
          match tok_type lastToken with
          | text =>
              squash_loop rest
                (Tok text (tok_value lastToken ++ tok_value token)
                   (tok_start lastToken) (tok_end token) :: before)
          | _ => squash_loop rest (token :: squashed_rev)
          end
      | _, _ => squash_loop rest (token :: squashed_rev)
      end
  end.

Definition squashTokens (tokens : list (option token)) : list token :=
  squash_loop tokens [].

(** ** nestTokens *)

(** The loop of [nestTokens]. In the source [collector] aliases the children
    array of the innermost open section, which already sits in its parent's
    array; here each entry of [sections] (innermost first) keeps the open
    section with the collector that was current when it opened, and the
    section is appended there, with its children, when it closes. *)
Definition close_section (section : token) (children : list token)
    (closeStart : option nat) : token :=
  TokSection (tok_type section) (tok_value section) (tok_start section)
    (tok_end section) children closeStart.

Fixpoint nest_loop (tokens : list token) (collector : list token)
    (sections : list (token * list token)) : outcome (list token) :=
  match tokens with
  | [] =>
      Ok (fold_left
            (fun inner '(section, outer) =>
               outer ++ [close_section section inner None])
            sections collector)
  | token :: rest =>
      match tok_type token with
      | hash | caret => nest_loop rest [] ((token, collector) :: sections)
      | slash =>
          match sections with
          | (section, outer) :: sections' =>
              nest_loop rest
                (outer ++ [close_section section collector (Some (tok_start token))])
                sections'
          | [] => Throw (TypeError (js "section is undefined"))
          end
      | _ => nest_loop rest (collector ++ [token]) sections
      end
  end.

Definition nestTokens (tokens : list token) : outcome (list token) :=
  nest_loop tokens [] [].

(** ** parseTemplate *)

(** The default delimiters, [mustache.tags]. *)
Definition mustache_tags : tags_arg := TagsArray [js "{{"; js "}}"].

(** The variables of [parseTemplate] that its inner functions and its loop
    share. [sections] and [spaces] are stacks with their top first;
    [tokens] is the token buffer in order, where [None] is a hole left by
    [delete]. *)
Record pstate := PState {
  lineHasNonSpace : bool;
  sections : list token;
  tokens : list (option token);
  spaces : list nat;
  hasTag : bool;
  nonSpace : bool;
  indentation : jstring;
  tagIndex : nat;
  openingTagRe : regexp;
  closingTagRe : regexp;
  closingCurlyRe : regexp;
  scanner : Scanner.t
}.

Definition set_lineHasNonSpace (v : bool) (st : pstate) : pstate :=
  PState v (sections st) (tokens st) (spaces st) (hasTag st) (nonSpace st)
    (indentation st) (tagIndex st) (openingTagRe st) (closingTagRe st)
    (closingCurlyRe st) (scanner st).
Definition set_sections (v : list token) (st : pstate) : pstate :=
  PState (lineHasNonSpace st) v (tokens st) (spaces st) (hasTag st) (nonSpace st)
    (indentation st) (tagIndex st) (openingTagRe st) (closingTagRe st)
    (closingCurlyRe st) (scanner st).
Definition set_tokens (v : list (option token)) (st : pstate) : pstate :=
  PState (lineHasNonSpace st) (sections st) v (spaces st) (hasTag st) (nonSpace st)
    (indentation st) (tagIndex st) (openingTagRe st) (closingTagRe st)
    (closingCurlyRe st) (scanner st).
Definition set_spaces (v : list nat) (st : pstate) : pstate :=
  PState (lineHasNonSpace st) (sections st) (tokens st) v (hasTag st) (nonSpace st)
    (indentation st) (tagIndex st) (openingTagRe st) (closingTagRe st)
    (closingCurlyRe st) (scanner st).
Definition set_hasTag (v : bool) (st : pstate) : pstate :=
  PState (lineHasNonSpace st) (sections st) (tokens st) (spaces st) v (nonSpace st)
    (indentation st) (tagIndex st) (openingTagRe st) (closingTagRe st)
    (closingCurlyRe st) (scanner st).
Definition set_nonSpace (v : bool) (st : pstate) : pstate :=
  PState (lineHasNonSpace st) (sections st) (tokens st) (spaces st) (hasTag st) v
    (indentation st) (tagIndex st) (openingTagRe st) (closingTagRe st)
    (closingCurlyRe st) (scanner st).
Definition set_indentation (v : jstring) (st : pstate) : pstate :=
  PState (lineHasNonSpace st) (sections st) (tokens st) (spaces st) (hasTag st)
    (nonSpace st) v (tagIndex st) (openingTagRe st) (closingTagRe st)
    (closingCurlyRe st) (scanner st).
Definition set_tagIndex (v : nat) (st : pstate) : pstate :=
  PState (lineHasNonSpace st) (sections st) (tokens st) (spaces st) (hasTag st)
    (nonSpace st) (indentation st) v (openingTagRe st) (closingTagRe st)
    (closingCurlyRe st) (scanner st).
Definition set_tagRes (v : regexp * regexp * regexp) (st : pstate) : pstate :=
  PState (lineHasNonSpace st) (sections st) (tokens st) (spaces st) (hasTag st)
    (nonSpace st) (indentation st) (tagIndex st) (v.1.1) (v.1.2) (v.2)
    (scanner st).
Definition set_scanner (v : Scanner.t) (st : pstate) : pstate :=
  PState (lineHasNonSpace st) (sections st) (tokens st) (spaces st) (hasTag st)
    (nonSpace st) (indentation st) (tagIndex st) (openingTagRe st)
    (closingTagRe st) (closingCurlyRe st) v.

(** [tokens.push(token)]. *)
Definition push_token (t : token) (st : pstate) : pstate :=
  set_tokens (tokens st ++ [Some t]) st.

(** [while (spaces.length) delete tokens[spaces.pop()]]. *)
Fixpoint delete_spaces (spaces : list nat) (tokens : list (option token))
  : list (option token) :=
  match spaces with
  | [] => tokens
  | i :: spaces' => delete_spaces spaces' (<[i := None]> tokens)
  end.

Definition stripSpace (st : pstate) : pstate :=
  let st :=
    if hasTag st && negb (nonSpace st)
    then set_spaces [] (set_tokens (delete_spaces (spaces st) (tokens st)) st)
    else set_spaces [] st in
  set_nonSpace false (set_hasTag false st).

(** [compileTags] returns the three regular expressions it assigns,
    [openingTagRe], [closingTagRe] and [closingCurlyRe], or the error it
    throws. *)
Definition compileTags (tagsToCompile : tags_arg)
  : error + (regexp * regexp * regexp) :=
  let tagsToCompile :=
    match tagsToCompile with
    | TagsString s => TagsArray (split_space2 s)
    | _ => tagsToCompile
    end in
  match tagsToCompile with
  | TagsArray [t0; t1] =>
      inr (escapeRegExp t0 ++ [WsStar],
           [WsStar] ++ escapeRegExp t1,
           [WsStar] ++ escapeRegExp (js "}" ++ t1))
  | _ => inl (InvalidTags tagsToCompile)
  end.

(** One turn of the loop over the characters of a text between tags. *)
Definition text_char (chr : ascii) (start : nat) (st : pstate) : pstate :=
  let st :=
    if isWhitespace [chr]
    then set_indentation (indentation st ++ [chr])
           (set_spaces (length (tokens st) :: spaces st) st)
    else set_indentation (indentation st ++ js " ")
           (set_lineHasNonSpace true (set_nonSpace true st)) in
  let st := push_token (Tok text [chr] start (start + 1)) st in
  if Ascii.eqb chr newline
  then set_lineHasNonSpace false
         (set_tagIndex 0 (set_indentation [] (stripSpace st)))
  else st.

Fixpoint text_loop (value : jstring) (start : nat) (st : pstate)
  : pstate * nat :=
  match value with
  | [] => (st, start)
  | chr :: rest => text_loop rest (start + 1) (text_char chr start st)
  end.

(** What one turn of the main loop does: it goes on to the next turn, leaves
    the loop by [break], or throws. *)
Inductive turn :=
| Continue (st : pstate)
| Break (st : pstate)
| Raise (e : error).

(** The end of a turn, from the construction of the token on. *)
Definition push_tag (type : symbol) (value : jstring) (start : nat)
    (st : pstate) : turn :=
  let token :=
    match type with
    | gt => TokPartial type value start (Scanner.pos (scanner st))
              (indentation st) (tagIndex st) (lineHasNonSpace st)
    | _ => Tok type value start (Scanner.pos (scanner st))
    end in
  let st := push_token token (set_tagIndex (S (tagIndex st)) st) in
  match type with
  | hash | caret => Continue (set_sections (token :: sections st) st)
  | slash =>
      match sections st with
      | [] => Raise (UnopenedSection value start)
      | openSection :: sections' =>
          if jstring_eqb (tok_value openSection) value
          then Continue (set_sections sections' st)
          else Raise (UnclosedSection (tok_value openSection) start)
      end
  | name | curly | amp => Continue (set_nonSpace true st)
  | equals =>
      match compileTags (TagsString value) with
      | inr res => Continue (set_tagRes res st)
      | inl e => Raise e
      end
  | _ => Continue st
  end.

(** The tag value and the type after it is read, with the scanner then. *)
Definition scan_value (type : symbol) (st : pstate) (sc : Scanner.t)
  : symbol * jstring * Scanner.t :=
  match type with
  | equals =>
      let '(value, sc) := Scanner.scanUntil equalsRe sc in
      let '(_, sc) := Scanner.scan equalsRe sc in
      let '(_, sc) := Scanner.scanUntil (closingTagRe st) sc in
      (type, value, sc)
  | curly =>
      let '(value, sc) := Scanner.scanUntil (closingCurlyRe st) sc in
      let '(_, sc) := Scanner.scan curlyRe sc in
      let '(_, sc) := Scanner.scanUntil (closingTagRe st) sc in
      (amp, value, sc)
  | _ =>
      let '(value, sc) := Scanner.scanUntil (closingTagRe st) sc in
      (type, value, sc)
  end.

(** What the first part of a turn finds: a tag, read up to the end of its
    closing delimiter; no opening delimiter; or a tag that is not closed. *)
Inductive scanned :=
| TagRead (type : symbol) (value : jstring) (start : nat) (st : pstate)
| NoTag (st : pstate)
| Unclosed (pos : nat).

(** A turn of the loop, up to the check for the closing delimiter. *)
Definition scan_tag (st : pstate) : scanned :=
  let start := Scanner.pos (scanner st) in
  let '(value, sc) := Scanner.scanUntil (openingTagRe st) (scanner st) in
  let st := set_scanner sc st in
  let '(st, start) := text_loop value start st in
  let '(opened, sc) := Scanner.scan (openingTagRe st) (scanner st) in
  match opened with
  | [] => NoTag st
  | _ :: _ =>
      let st := set_hasTag true (set_scanner sc st) in
      let '(type, sc) := Scanner.scan tagRe sc in
      let type := symbol_of_scan type in
      let '(_, sc) := Scanner.scan whiteRe sc in
      let '(type, value, sc) := scan_value type st sc in
      let '(closed, sc) := Scanner.scan (closingTagRe st) sc in
      match closed with
      | [] => Unclosed (Scanner.pos sc)
      | _ :: _ => TagRead type value start (set_scanner sc st)
      end
  end.

Definition parse_turn (st : pstate) : turn :=
  match scan_tag st with
  | TagRead type value start st => push_tag type value start st
  | NoTag st => Break st
  | Unclosed pos => Raise (UnclosedTag pos)
  end.

(** [while (!scanner.eos()) { ... }], at most [fuel] turns. *)
Fixpoint parse_loop (fuel : nat) (st : pstate) : outcome pstate :=
  if Scanner.eos (scanner st) then Ok st
  else
    match fuel with
    | 0 => OutOfFuel
    | S fuel' =>
        match parse_turn st with
        | Continue st' => parse_loop fuel' st'
        | Break st' => Ok st'
        | Raise e => Throw e
        end
    end.

(** [tags || mustache.tags]: an absent argument and the empty string are
    falsy. *)
Definition tags_or_default (tags : tags_arg) : tags_arg :=
  match tags with
  | TagsUndefined | TagsString [] => mustache_tags
  | _ => tags
  end.

Definition initial_state (res : regexp * regexp * regexp)
    (template : jstring) : pstate :=
  PState false [] [] [] false false [] 0 (res.1.1) (res.1.2) (res.2)
    (Scanner.new template).

(** What follows the loop: the last [stripSpace], the check for an open
    section, and the squashing and nesting of the tokens. *)
Definition finish (st : pstate) : outcome (list token) :=
  let st := stripSpace st in
  match sections st with
  | openSection :: _ =>
      Throw (UnclosedSection (tok_value openSection) (Scanner.pos (scanner st)))
  | [] => nestTokens (squashTokens (tokens st))
  end.

(** Every turn that continues moves the cursor forward, so the length of the
    template bounds the number of turns (see [parse_loop_enough]). *)
Definition parseTemplate (template : jstring) (tags : tags_arg)
  : outcome (list token) :=
  match template with
  | [] => Ok []
  | _ :: _ =>
      match compileTags (tags_or_default tags) with
      | inl e => Throw e
      | inr res =>
          obind (parse_loop (S (length template)) (initial_state res template))
            finish
      end
  end.

(** ** Values of the view *)

(** Numbers. The renderer only tests a number for truth and prints it, so a
    finite number that is not zero is held as the decimal that [String]
    prints for it: [Decimal negative m e] is the number [m * 10^e], negated
    when [negative] is set, where the digits of [m] without its trailing
    zeros are the shortest digits that round to the number (the [s] of
    [Number::toString]). Zero stands for both zeros: both are falsy and
    print as [0]. *)
Inductive number :=
| NaN
| Infinity (negative : bool)
| Zero
| Decimal (negative : bool) (m : positive) (e : Z).

(** The number of an integer literal (every integer up to [2^53] is a
    number, and its digits are its shortest digits). *)
Definition Int (z : Z) : number :=
  match z with
  | Z0 => Zero
  | Zpos m => Decimal false m 0
  | Zneg m => Decimal true m 0
  end.

(** A function value is the index of a host function, with its source
    text, which is what [String] gives for it. *)
#[warnings="-register-all"]
Inductive value :=
| VUndefined
| VNull
| VBool (b : bool)
| VNumber (n : number)
| VString (s : jstring)
| VArray (l : list value)
| VObject (fields : list (jstring * value))
| VFunction (f : nat) (source : jstring).

Definition isArray (v : value) : bool :=
  match v with VArray _ => true | _ => false end.

Definition isFunction (v : value) : bool :=
  match v with VFunction _ _ => true | _ => false end.

Inductive type_name :=
| t_undefined | t_object | t_boolean | t_number | t_string | t_function.

Definition typeof (v : value) : type_name :=
  match v with
  | VUndefined => t_undefined
  | VNull | VArray _ | VObject _ => t_object
  | VBool _ => t_boolean
  | VNumber _ => t_number
  | VString _ => t_string
  | VFunction _ _ => t_function
  end.

(** [typeof v === t]. *)
Definition type_is (t : type_name) (v : value) : bool :=
  match typeof v, t with
  | t_undefined, t_undefined | t_object, t_object | t_boolean, t_boolean
  | t_number, t_number | t_string, t_string | t_function, t_function => true
  | _, _ => false
  end.

(** The elements of an array. *)
Definition elements (v : value) : list value :=
  match v with VArray l => l | _ => [] end.

(** [!!v]. *)
Definition truthy (v : value) : bool :=
  match v with
  | VUndefined | VNull => false
  | VBool b => b
  | VNumber NaN => false
  | VNumber (Infinity _) => true
  | VNumber Zero => false
  | VNumber (Decimal _ _ _) => true
  | VString s => match s with [] => false | _ => true end
  | VArray _ | VObject _ | VFunction _ _ => true
  end.

(** [v == null]. *)
Definition nullish (v : value) : bool :=
  match v with VUndefined | VNull => true | _ => false end.

(** The decimal digits of a positive integer, and of a natural number. *)
Definition digits_of (m : positive) : jstring :=
  js (NilZero.string_of_uint (Pos.to_uint m)).

Definition numeral_of (n : nat) : jstring :=
  js (NilZero.string_of_uint (Nat.to_uint n)).

Fixpoint drop_zeros (s : jstring) : jstring :=
  match s with
  | c :: s' => if Ascii.eqb c "0" then drop_zeros s' else s
  | [] => []
  end.

(** [Number::toString] of a positive finite number, in radix ten: [s] holds
    the [k] significant digits and [n] is the exponent, the number being
    [s * 10^(n - k)]. An integer of at most 21 digits is printed in full, a
    number with its point inside or up to six places before its digits is
    printed with the point, and any other number in exponent notation. *)
Definition number_digits (s : jstring) (n : Z) : jstring :=
  let k := Z.of_nat (length s) in
  if (k <=? n)%Z && (n <=? 21)%Z then
    s ++ replicate (Z.to_nat (n - k)) "0"%char
  else if (0 <? n)%Z && (n <=? 21)%Z then
    take (Z.to_nat n) s ++ js "." ++ drop (Z.to_nat n) s
  else if (-6 <? n)%Z && (n <=? 0)%Z then
    js "0." ++ replicate (Z.to_nat (- n)) "0"%char ++ s
  else
    let exponent :=
      (if (n - 1 <? 0)%Z then js "-" else js "+")
      ++ numeral_of (Z.to_nat (Z.abs (n - 1))) in
    match s with
    | [_] => s ++ js "e" ++ exponent
    | _ => take 1 s ++ js "." ++ drop 1 s ++ js "e" ++ exponent
    end.

(** [String(n)] for a number. The trailing zeros of [m] go into the
    exponent. *)
Definition number_to_string (n : number) : jstring :=
  match n with
  | NaN => js "NaN"
  | Infinity false => js "Infinity"
  | Infinity true => js "-Infinity"
  | Zero => js "0"
  | Decimal negative m e =>
      let all := digits_of m in
      let s := rev (drop_zeros (rev all)) in
      (if negative then js "-" else [])
      ++ number_digits s (Z.of_nat (length all) + e)
  end.

(** [String(v)], which is also what [buffer += v] appends. *)
Fixpoint to_string (v : value) : jstring :=
  match v with
  | VUndefined => js "undefined"
  | VNull => js "null"
  | VBool true => js "true"
  | VBool false => js "false"
  | VNumber n => number_to_string n
  | VString s => s
  | VArray l =>
      join (js ",")
        (map (fun x => if nullish x then [] else to_string x) l)
  | VObject _ => js "[object Object]"
  | VFunction _ source => source
  end.

Definition entityMap (c : ascii) : jstring :=
  if Ascii.eqb c "&" then js "&amp;"
  else if Ascii.eqb c "<" then js "&lt;"
  else if Ascii.eqb c ">" then js "&gt;"
  else if Ascii.eqb c "034" then js "&quot;"
  else if Ascii.eqb c "'" then js "&#39;"
  else if Ascii.eqb c "/" then js "&#x2F;"
  else if Ascii.eqb c "`" then js "&#x60;"
  else if Ascii.eqb c "=" then js "&#x3D;"
  else [c].

Definition escapeHtml (v : value) : jstring :=
  flat_map entityMap (to_string v).

(** ** Context *)

Module Context.

(** Modelled from the spec: the context class is not among the sources. A
    context is a scope-chain node that wraps one view and an optional
    parent. *)
#[warnings="-register-all"]
Inductive t := Make (view : value) (parent : option t).

(** Modelled from the spec: the view of the node. *)
Definition view (c : t) : value := match c with Make v _ => v end.

(** Modelled from the spec: [push] returns a new child node and leaves the
    receiver as it is. *)
Definition push (c : t) (v : value) : t := Make v (Some c).

(** Modelled from the spec: the key lookup of one path segment against a
    value: a key of an object, or the length of a string or of an array (a
    value that is not structured can carry an own field of that name). *)
Definition get_property (v : value) (key : jstring) : option value :=
  match v with
  | VObject fields => snd <$> find (fun kv => jstring_eqb (fst kv) key) fields
  | VString s =>
      if jstring_eqb key (js "length")
      then Some (VNumber (Int (Z.of_nat (length s)))) else None
  | VArray l =>
      if jstring_eqb key (js "length")
      then Some (VNumber (Int (Z.of_nat (length l)))) else None
  | _ => None
  end.

(** Modelled from the spec: the remaining segments of a path are resolved
    strictly against the value already resolved; an absent segment yields no
    value. *)
Fixpoint resolve (v : value) (segments : list jstring) : value :=
  match segments with
  | [] => v
  | key :: rest =>
      match get_property v key with
      | Some v' => resolve v' rest
      | None => VUndefined
      end
  end.

(** Modelled from the spec: the walk outward through the parents, to the
    first scope whose view resolves the first segment of the path. *)
Fixpoint lookup_chain (c : t) (first : jstring) (rest : list jstring) : value :=
  match c with
  | Make v parent =>
      match get_property v first with
      | Some v' => resolve v' rest
      | None =>
          match parent with
          | Some p => lookup_chain p first rest
          | None => VUndefined
          end
      end
  end.

(** Modelled from the spec: [lookup] of the path ["."] is the view of the
    node; any other path is split on ["."] and resolved along the scope
    chain; [VUndefined] is "no value". The cache of a node only repeats
    earlier answers, and views do not change, so it is left out. *)
Definition lookup (c : t) (path : jstring) : value :=
  if jstring_eqb path (js ".") then view c
  else
    match split_on "." path with
    | first :: rest => lookup_chain c first rest
    | [] => VUndefined
    end.

End Context.

(** ** Writer *)

(** The escape function of a render: [mustache.escape] itself, or another
    function. The renderer compares the function with [mustache.escape], so
    the two are kept apart. *)
Inductive escape_fn :=
| MustacheEscape
| CustomEscape (f : value -> jstring).

Definition mustache_escape : escape_fn := MustacheEscape.

Definition call_escape (escape : escape_fn) (v : value) : jstring :=
  match escape with
  | MustacheEscape => escapeHtml v
  | CustomEscape f => f v
  end.

Definition is_mustache_escape (escape : escape_fn) : bool :=
  match escape with MustacheEscape => true | CustomEscape _ => false end.

(** The [config] argument: absent, a bare array of tags, or an object with
    optional [tags] and [escape]. *)
Inductive config :=
| ConfigUndefined
| ConfigArray (tags : list jstring)
| ConfigObject (tags : tags_arg) (escape : option escape_fn).

(** The [partials] argument: absent, a plain object whose own properties
    are templates under their names, or a function from a name to a
    template or to nothing. *)
Inductive partials :=
| PartialsUndefined
| PartialsObject (m : gmap jstring jstring)
| PartialsFunction (f : jstring -> option jstring).

(** What the lookup of a partial yields: a template; a value that a plain
    object inherits from [Object.prototype], which is never a string, with
    the text that [String] gives for it; or [undefined]. *)
Inductive partial_value :=
| PartialString (template : jstring)
| PartialInherited (printed : jstring)
| PartialNone.

(** The methods that every object inherits from [Object.prototype]. *)
Definition object_prototype_methods : list jstring :=
  map js ["constructor"; "hasOwnProperty"; "isPrototypeOf";
          "propertyIsEnumerable"; "toLocaleString"; "toString"; "valueOf";
          "__defineGetter__"; "__defineSetter__"; "__lookupGetter__";
          "__lookupSetter__"].

(** [object[name]] for a plain object with no own property of that name: an
    inherited method, a function that prints as native code (the
    constructor under the name [Object]); under [__proto__] the prototype,
    an object; and [undefined] for any other name. *)
Definition inherited_property (name : jstring) : partial_value :=
  if bool_decide (name ∈ object_prototype_methods) then
    PartialInherited
      (js "function "
       ++ (if jstring_eqb name (js "constructor") then js "Object" else name)
       ++ js "() { [native code] }")
  else if jstring_eqb name (js "__proto__") then
    PartialInherited (js "[object Object]")
  else PartialNone.

(** The first argument of [render] after the template: a view, or a context
    made earlier. *)
Inductive view_arg :=
| ViewValue (v : value)
| ViewContext (c : Context.t).

(** A writer holds its template cache; [None] is a cache set to
    [undefined]. *)
Record Writer := { templateCache : option (gmap jstring (list token)) }.

Definition new_Writer : Writer := {| templateCache := Some ∅ |}.

Definition clearCache (w : Writer) : Writer :=
  match templateCache w with
  | Some _ => {| templateCache := Some ∅ |}
  | None => w
  end.

(** Methods of the writer read and write its cache, and may throw. *)
Definition M (A : Type) : Type := Writer -> outcome A * Writer.

Definition ret {A} (a : A) : M A := fun w => (Ok a, w).
Definition throw {A} (e : error) : M A := fun w => (Throw e, w).
Definition bind {A B} (m : M A) (f : A -> M B) : M B :=
  fun w =>
    match m w with
    | (Ok a, w') => f a w'
    | (Throw e, w') => (Throw e, w')
    | (OutOfFuel, w') => (OutOfFuel, w')
    end.
Definition lift {A} (o : outcome A) : M A := fun w => (o, w).

Notation "'do' x <- m ; k" := (bind m (fun x => k))
  (at level 10, x name, m at level 100, k at level 200).

Definition cache_key (template : jstring) (tags : list jstring) : jstring :=
  template ++ js ":" ++ join (js ":") tags.

Definition Writer_parse (template : jstring) (tags : tags_arg)
  : M (list token) :=
  fun w =>
    match tags_or_default tags with
    | TagsArray l =>
        let cacheKey := cache_key template l in
        match templateCache w with
        | Some cache =>
            match cache !! cacheKey with
            | Some tokens => (Ok tokens, w)
            | None =>
                match parseTemplate template tags with
                | Ok tokens =>
                    (Ok tokens,
                     {| templateCache := Some (<[cacheKey := tokens]> cache) |})
                | failure => (failure, w)
                end
            end
        | None => (parseTemplate template tags, w)
        end
    | _ => (Throw (TypeError (js "join is not a function")), w)
    end.

(** [parseTemplate] on a function or an object: the value is truthy, so
    the delimiters are compiled, and then the first turn of the loop fails.
    The scanner, modelled from the spec, scans a string; a function or an
    object is not the empty string, so the loop is entered, and it has no
    method to search it for the opening delimiter, which is a
    [TypeError]. *)
Definition parseTemplate_not_string (tags : tags_arg) : outcome (list token) :=
  match compileTags (tags_or_default tags) with
  | inl e => Throw e
  | inr _ => Throw (TypeError (js "tail.search is not a function"))
  end.

(** [Writer.prototype.parse] on a function or an object that prints as
    [printed]: the key of the cache is made from that text, so tokens
    cached under it are returned; [parseTemplate] never returns any to
    cache. *)
Definition Writer_parse_not_string (printed : jstring) (tags : tags_arg)
  : M (list token) :=
  fun w =>
    match tags_or_default tags with
    | TagsArray l =>
        let cacheKey := cache_key printed l in
        match templateCache w with
        | Some cache =>
            match cache !! cacheKey with
            | Some tokens => (Ok tokens, w)
            | None => (parseTemplate_not_string tags, w)
            end
        | None => (parseTemplate_not_string tags, w)
        end
    | _ => (Throw (TypeError (js "join is not a function")), w)
    end.

Definition getConfigTags (c : config) : tags_arg :=
  match c with
  | ConfigArray tags => TagsArray tags
  | ConfigObject tags _ => tags
  | ConfigUndefined => TagsUndefined
  end.

Definition getConfigEscape (c : config) : option escape_fn :=
  match c with
  | ConfigObject _ escape => escape
  | _ => None
  end.

Definition rawValue (token : token) : value := VString (tok_value token).

Definition unescapedValue (token : token) (context : Context.t) : value :=
  let value := Context.lookup context (tok_value token) in
  if negb (nullish value) then value else VUndefined.

Definition escapedValue (token : token) (context : Context.t) (c : config)
  : value :=
  let escape := default mustache_escape (getConfigEscape c) in
  let value := Context.lookup context (tok_value token) in
  if negb (nullish value) then
    if type_is t_number value && is_mustache_escape escape
    then VString (to_string value)
    else VString (call_escape escape value)
  else VUndefined.

Definition indentPartial (partial indentation : jstring)
    (lineHasNonSpace : bool) : jstring :=
  let filteredIndentation :=
    filter (fun c => c = " "%char \/ c = "009"%char) indentation in
  let partialByNl := split_on newline partial in
  join [newline]
    (imap (fun i line =>
             if negb (Nat.eqb (length line) 0)
                && (Nat.ltb 0 i || negb lineHasNonSpace)
             then filteredIndentation ++ line
             else line)
          partialByNl).

(** The fifth and sixth elements of a token, when they are what a section
    carries. *)
Definition tok_children (t : token) : option (list token) :=
  match t with
  | TokSection _ _ _ _ children _ => Some children
  | _ => None
  end.

Definition tok_5 (t : token) : option nat :=
  match t with
  | TokSection _ _ _ _ _ closeStart => closeStart
  | TokPartial _ _ _ _ _ tagIndex _ => Some tagIndex
  | Tok _ _ _ _ => None
  end.

Definition malformed {A} : M A := throw (TypeError (js "malformed token")).

Section Render.

(** The call of a function of the view: the function, its receiver, the text
    of the section, and [subRender]. *)
Variable call_function :
  value -> value -> jstring -> (jstring -> M jstring) -> M value.

(** [this.renderTokens], as the methods below call it. *)
Variable renderTokens_rec :
  list token -> Context.t -> partials -> option jstring -> config -> M jstring.

Definition render (template : jstring) (view : view_arg) (p : partials)
    (c : config) : M jstring :=
  let tags := getConfigTags c in
  do tokens <- Writer_parse template tags;
  let context :=
    match view with
    | ViewContext context => context
    | ViewValue v => Context.Make v None
    end in
  renderTokens_rec tokens context p (Some template) c.

(** [this.renderTokens(token[4], context, ...)]. *)
Definition render_children (token : token) (context : Context.t)
    (p : partials) (originalTemplate : option jstring) (c : config)
  : M jstring :=
  match tok_children token with
  | Some children => renderTokens_rec children context p originalTemplate c
  | None => malformed
  end.

(** The loop of [renderSection] over the elements of an array. *)
Fixpoint section_loop (token : token) (context : Context.t)
    (elements : list value) (p : partials) (originalTemplate : option jstring)
    (c : config) (buffer : jstring) : M jstring :=
  match elements with
  | [] => ret buffer
  | element :: rest =>
      do s <- render_children token (Context.push context element) p
                originalTemplate c;
      section_loop token context rest p originalTemplate c (buffer ++ s)
  end.

Definition renderSection (token : token) (context : Context.t) (p : partials)
    (originalTemplate : option jstring) (c : config) : M value :=
  let value := Context.lookup context (tok_value token) in
  let subRender template := render template (ViewContext context) p c in
  if negb (truthy value) then ret VUndefined
  else if isArray value then
    do buffer <- section_loop token context (elements value) p
                   originalTemplate c [];
    ret (VString buffer)
  else if type_is t_object value || type_is t_string value
          || type_is t_number value then
    do s <- render_children token (Context.push context value) p
              originalTemplate c;
    ret (VString s)
  else if isFunction value then
    match originalTemplate with
    | None => throw NoOriginalTemplate
    | Some template =>
        do result <- call_function value (Context.view context)
                       (slice template (tok_end token) (tok_5 token))
                       subRender;
        ret (VString (if nullish result then [] else to_string result))
    end
  else
    do s <- render_children token context p originalTemplate c;
    ret (VString s).

Definition renderInverted (token : token) (context : Context.t) (p : partials)
    (originalTemplate : option jstring) (c : config) : M value :=
  let value := Context.lookup context (tok_value token) in
  if negb (truthy value)
     || (isArray value && Nat.eqb (length (elements value)) 0)
  then
    do s <- render_children token context p originalTemplate c;
    ret (VString s)
  else ret VUndefined.

(** [partials(name)] or [partials[name]]: the result of the function, or
    the property of the object, its own or else the one it inherits;
    [PartialNone] is a result that [!= null] rejects. *)
Definition lookup_partial (p : partials) (name : jstring) : partial_value :=
  match p with
  | PartialsUndefined => PartialNone
  | PartialsObject m =>
      match m !! name with
      | Some template => PartialString template
      | None => inherited_property name
      end
  | PartialsFunction f =>
      match f name with
      | Some template => PartialString template
      | None => PartialNone
      end
  end.

(** The template that the lookup of a partial yields, when it yields one. *)
Definition find_partial (p : partials) (name : jstring) : option jstring :=
  match lookup_partial p name with
  | PartialString template => Some template
  | _ => None
  end.

(** The template of a partial after the indentation step of
    [renderPartial]. *)
Definition indentedValue (token : token) (value : jstring) : outcome jstring :=
  match token with
  | TokPartial _ _ _ _ indentation tagIndex lineHasNonSpace =>
      if Nat.eqb tagIndex 0 && negb (Nat.eqb (length indentation) 0)
      then Ok (indentPartial value indentation lineHasNonSpace)
      else Ok value
  | Tok _ _ _ _ => Ok value
  | TokSection _ _ _ _ _ closeStart =>
      match closeStart with
      | Some 0 => Throw (TypeError (js "indentation.replace is not a function"))
      | _ => Ok value
      end
  end.

(** The indentation step of [renderPartial] on a function or an object:
    [indentPartial] fails when it splits the value into lines. *)
Definition indent_not_string (token : token) : outcome unit :=
  match token with
  | TokPartial _ _ _ _ indentation tagIndex _ =>
      if Nat.eqb tagIndex 0 && negb (Nat.eqb (length indentation) 0)
      then Throw (TypeError (js "partial.split is not a function"))
      else Ok ()
  | Tok _ _ _ _ => Ok ()
  | TokSection _ _ _ _ _ closeStart =>
      match closeStart with
      | Some 0 => Throw (TypeError (js "indentation.replace is not a function"))
      | _ => Ok ()
      end
  end.

(** An inherited value goes the way of a template: it is not [null], so it
    is indented, parsed and rendered, as the original template that it then
    is, one that is not a string ([None]). *)
Definition renderPartial (token : token) (context : Context.t) (p : partials)
    (c : config) : M value :=
  match p with
  | PartialsUndefined => ret VUndefined
  | _ =>
      let tags := getConfigTags c in
      match lookup_partial p (tok_value token) with
      | PartialString value =>
          do indented <- lift (indentedValue token value);
          do tokens <- Writer_parse indented tags;
          do s <- renderTokens_rec tokens context p (Some indented) c;
          ret (VString s)
      | PartialInherited printed =>
          do _ <- lift (indent_not_string token);
          do tokens <- Writer_parse_not_string printed tags;
          do s <- renderTokens_rec tokens context p None c;
          ret (VString s)
      | PartialNone => ret VUndefined
      end
  end.

(** The value that one turn of the loop of [renderTokens] computes. *)
Definition render_token (token : token) (context : Context.t) (p : partials)
    (originalTemplate : option jstring) (c : config) : M value :=
  match tok_type token with
  | hash => renderSection token context p originalTemplate c
  | caret => renderInverted token context p originalTemplate c
  | gt => renderPartial token context p c
  | amp => ret (unescapedValue token context)
  | name => ret (escapedValue token context c)
  | text => ret (rawValue token)
  | _ => ret VUndefined
  end.

Fixpoint renderTokens_loop (tokens : list token) (context : Context.t)
    (p : partials) (originalTemplate : option jstring) (c : config)
    (buffer : jstring) : M jstring :=
  match tokens with
  | [] => ret buffer
  | token :: rest =>
      do value <- render_token token context p originalTemplate c;
      renderTokens_loop rest context p originalTemplate c
        (match value with
         | VUndefined => buffer
         | _ => buffer ++ to_string value
         end)
  end.

Definition renderTokens_body (tokens : list token) (context : Context.t)
    (p : partials) (originalTemplate : option jstring) (c : config)
  : M jstring :=
  renderTokens_loop tokens context p originalTemplate c [].

End Render.

(** [Writer.prototype.renderTokens], with a bound on the depth of the calls
    of [renderTokens] inside one another: partials and functions of the view
    can make them nest without end. *)
Fixpoint renderTokens
    (call_function :
       value -> value -> jstring -> (jstring -> M jstring) -> M value)
    (fuel : nat) (tokens : list token) (context : Context.t) (p : partials)
    (originalTemplate : option jstring) (c : config) : M jstring :=
  match fuel with
  | 0 => lift OutOfFuel
  | S fuel' =>
      renderTokens_body call_function (renderTokens call_function fuel')
        tokens context p originalTemplate c
  end.

Definition Writer_render
    (call_function :
       value -> value -> jstring -> (jstring -> M jstring) -> M value)
    (fuel : nat) (template : jstring) (view : view_arg) (p : partials)
    (c : config) : M jstring :=
  render (renderTokens call_function fuel) template view p c.

(** ** The changes that the loop of the parser makes to its state *)

(** The loop of [parseTemplate] changes the state in three ways: it moves the
    scanner, it takes in one character of text, and it takes in one tag (the
    tag sets [hasTag], then the token is pushed with the scanner after the
    closing delimiter). *)
Inductive item :=
| Scan (sc : Scanner.t)
| Char (chr : ascii) (start : nat)
| Tag (type : symbol) (value : jstring) (start : nat) (sc : Scanner.t).

Definition run_item (it : item) (st : pstate) : turn :=
  match it with
  | Scan sc => Continue (set_scanner sc st)
  | Char chr start => Continue (text_char chr start st)
  | Tag type value start sc =>
      push_tag type value start (set_scanner sc (set_hasTag true st))
  end.

Fixpoint run_items (items : list item) (st : pstate) : turn :=
  match items with
  | [] => Continue st
  | it :: rest =>
      match run_item it st with
      | Continue st' => run_items rest st'
      | stop => stop
      end
  end.

(** The characters of a text, as [text_loop] takes them in. *)
Fixpoint char_items (value : jstring) (start : nat) : list item :=
  match value with
  | [] => []
  | chr :: rest => Char chr start :: char_items rest (start + 1)
  end.

(** The items of one turn of the loop: the scanner moves over the text
    before the tag, the characters of that text are taken in, and then the
    tag, when the turn reads one. *)
Definition turn_items (st : pstate) : list item :=
  let '(value, sc) := Scanner.scanUntil (openingTagRe st) (scanner st) in
  Scan sc :: char_items value (Scanner.pos (scanner st))
    ++ match scan_tag st with
       | TagRead type value start st1 => [Tag type value start (scanner st1)]
       | _ => []
       end.

(** The items of the turns of the loop, in order. *)
Fixpoint loop_items (fuel : nat) (st : pstate) : list item :=
  if Scanner.eos (scanner st) then []
  else
    match fuel with
    | 0 => []
    | S fuel' =>
        match parse_turn st with
        | Continue st' => turn_items st ++ loop_items fuel' st'
        | Break _ => turn_items st
        | Raise _ => []
        end
    end.

(** The items of a parse lie on its template: a character item is the
    character of the template at its offset, a tag item spans the template
    from its start to the cursor after its closing delimiter, and each item
    starts where the one before it ends. *)
Inductive tiles (template : jstring) : nat -> list item -> nat -> Prop :=
| tiles_nil p : tiles template p [] p
| tiles_scan p sc items q :
    tiles template p items q ->
    tiles template p (Scan sc :: items) q
| tiles_char p chr items q :
    template !! p = Some chr ->
    tiles template (S p) items q ->
    tiles template p (Char chr p :: items) q
| tiles_tag p type value sc items q :
    Scanner.source sc = template ->
    p < Scanner.pos sc ->
    tiles template (Scanner.pos sc) items q ->
    tiles template p (Tag type value p sc :: items) q.

(** The token that an item pushes on the buffer. *)
Inductive pushed : item -> token -> Prop :=
| pushed_char chr start :
    pushed (Char chr start) (Tok text [chr] start (start + 1))
| pushed_tag type value start sc :
    type <> gt ->
    pushed (Tag type value start sc) (Tok type value start (Scanner.pos sc))
| pushed_partial value start sc indentation tagIndex lineHasNonSpace :
    pushed (Tag gt value start sc)
      (TokPartial gt value start (Scanner.pos sc) indentation tagIndex
         lineHasNonSpace).

(** A line of a list of items [pre ++ line ++ post] starts at the start of
    the list or after a line feed of the text, and ends at the end of the
    list or at the next line feed of the text. *)
Definition line_start (pre : list item) : Prop :=
  pre = [] \/ exists pre' start, pre = pre' ++ [Char newline start].

Definition line_end (post : list item) : Prop :=
  post = [] \/ exists start post', post = Char newline start :: post'.

(** The tags that the specification calls block tags, and the variable
    tags. *)
Definition is_block (type : symbol) : bool :=
  match type with
  | hash | caret | slash | gt | bang | equals => true
  | _ => false
  end.

Definition is_variable (type : symbol) : bool :=
  match type with
  | name | curly | amp => true
  | _ => false
  end.

Definition is_tag (it : item) : bool :=
  match it with Tag _ _ _ _ => true | _ => false end.

(** The items of a line that is blank but for block tags leave every
    character as whitespace and every tag as a block tag. *)
Definition blank_or_block (it : item) : bool :=
  match it with
  | Scan _ => true
  | Char chr _ => is_ws chr
  | Tag type _ _ _ => is_block type
  end.

(** An item that makes the line keep its whitespace. *)
Definition keeps_space (it : item) : bool :=
  match it with
  | Scan _ => false
  | Char chr _ => negb (is_ws chr)
  | Tag type _ _ _ => is_variable type
  end.

Definition is_newline (it : item) : bool :=
  match it with Char chr _ => Ascii.eqb chr newline | _ => false end.

Definition pushes (it : item) : bool :=
  match it with Scan _ => false | _ => true end.

(** A token that is one character of whitespace text. *)
Definition is_space_token (t : token) : bool :=
  match t with
  | Tok text value _ _ => isWhitespace value
  | _ => false
  end.

(** A slot of the buffer with a whitespace text token deleted from it. *)
Definition blank (slot : option token) : option token :=
  match slot with
  | Some t => if is_space_token t then None else slot
  | None => None
  end.

(** What is left in the buffer of a token of a line whose whitespace is
    stripped: a hole for a text token, the token itself for a tag. *)
Definition hole_if_text (t : token) : option token :=
  match tok_type t with
  | text => None
  | _ => Some t
  end.

(** The state at the start of a line. *)
Definition at_line_start (st : pstate) : Prop :=
  hasTag st = false /\ nonSpace st = false /\ spaces st = [].

(** ** The states that the loop of a parse goes through *)


(** The structural violations that a turn of the loop can meet in a state,
    each with the error that the specification has it abort with: a tag
    that is not closed, a closing tag with no open section, a closing tag
    whose name is not that of the innermost open section, and a change of
    delimiters to something that is not a pair. *)
Inductive violation : pstate -> error -> Prop :=
| unclosed_tag st pos :
    scan_tag st = Unclosed pos ->
    violation st (UnclosedTag pos)
| unopened_section st value start st1 :
    scan_tag st = TagRead slash value start st1 ->
    sections st1 = [] ->
    violation st (UnopenedSection value start)
| mismatched_section st value start st1 openSection rest :
    scan_tag st = TagRead slash value start st1 ->
    sections st1 = openSection :: rest ->
    tok_value openSection <> value ->
    violation st (UnclosedSection (tok_value openSection) start)
| invalid_delimiter_change st value start st1 :
    scan_tag st = TagRead equals value start st1 ->
    length (split_space2 value) <> 2 ->
    violation st (InvalidTags (TagsArray (split_space2 value))).


(** ** Indentation of partials, in the words of the specification *)

Definition prefix_lines (prefix : jstring) (firstToo : bool)
    (lines : list jstring) : list jstring :=
  imap (fun i line =>
          if negb (Nat.eqb (length line) 0) && (Nat.ltb 0 i || firstToo)
          then prefix ++ line else line)
       lines.

(** The text that the specification has a partial parsed from: every line
    that is not empty prefixed with the indentation as it was captured. *)
Definition claimed_partial_text (token : token) (value : jstring) : jstring :=
  match token with
  | TokPartial _ _ _ _ indentation tagIndex lineHasNonSpace =>
      if Nat.eqb tagIndex 0 && negb (Nat.eqb (length indentation) 0)
      then join [newline]
             (prefix_lines indentation (negb lineHasNonSpace)
                (split_on newline value))
      else value
  | _ => value
  end.

(** ** The cache over a sequence of calls *)

(** The writer after the calls of [parse] of a list, in order. *)
Definition parse_calls (calls : list (jstring * tags_arg)) (w : Writer)
  : Writer :=
  fold_left (fun w call => (Writer_parse call.1 call.2 w).2) calls w.

(** Delimiters that are absent, or a pair of strings without a colon. *)
Definition plain_pair (tags : tags_arg) : Prop :=
  tags = TagsUndefined
  \/ exists o c,
      tags = TagsArray [o; c] /\ (":"%char ∉ o) /\ (":"%char ∉ c).

(** Every entry of the cache under the key of a template and of a pair
    without colons holds the tokens of that template with that pair. *)
Definition cache_sound (w : Writer) : Prop :=
  forall cache t o c toks,
    templateCache w = Some cache ->
    (":"%char ∉ o) -> (":"%char ∉ c) ->
    cache !! cache_key t [o; c] = Some toks ->
    parseTemplate t (TagsArray [o; c]) = Ok toks.

(** ** Measures of the scanner *)

(** The number of characters from the cursor to the end. *)
Definition remaining (sc : Scanner.t) : nat :=
  length (Scanner.source sc) - Scanner.pos sc.

(** The scanner [sc'] is [sc] with its cursor moved forward. *)
Definition moved (sc sc' : Scanner.t) : Prop :=
  Scanner.source sc' = Scanner.source sc /\ Scanner.pos sc <= Scanner.pos sc'.

(** ** Characters of HTML *)

(** The characters that [escapeHtml] replaces, and those among them that
    none of its entities holds. *)
Definition html_special : list ascii :=
  ["&"; "<"; ">"; "034"; "'"; "/"; "`"; "="]%char.

Definition html_unsafe : list ascii :=
  ["<"; ">"; "034"; "'"; "/"; "`"; "="]%char.

(** ** Shapes of token lists *)

Definition is_text (t : token) : bool :=
  match tok_type t with text => true | _ => false end.

(** No two neighbours of the list are both text tokens. *)
Fixpoint no_adjacent_text (l : list token) : bool :=
  match l with
  | a :: (b :: _) as rest =>
      negb (is_text a && is_text b) && no_adjacent_text rest
  | _ => true
  end.

(** What a list of tokens holds: the characters of its text tokens and its
    other tokens, in order. *)
Definition content (l : list token) : list (ascii + token) :=
  flat_map (fun t => if is_text t then map inl (tok_value t) else [inr t]) l.

(** The tokens of a buffer, without its holes. *)
Definition live (tokens : list (option token)) : list token :=
  omap id tokens.

(** Whether a slot of a list is a text token. *)
Definition text_slot (slot : option token) : bool :=
  match slot with Some t => is_text t | None => false end.

(** A type that opens a section, and a token that closes one. *)
Definition opens (ty : symbol) : bool :=
  match ty with hash | caret => true | _ => false end.

Definition is_closing (t : token) : bool :=
  match tok_type t with slash => true | _ => false end.

(** A token as the loop of [parseTemplate] pushes it: four elements, or
    seven for a partial. *)
Definition pushed_shape (t : token) : bool :=
  match t with
  | Tok ty _ _ _ => match ty with gt => false | _ => true end
  | TokPartial ty _ _ _ _ _ _ => match ty with gt => true | _ => false end
  | TokSection _ _ _ _ _ _ => false
  end.

(** The first four elements of a token. *)
Definition plain (t : token) : token :=
  Tok (tok_type t) (tok_value t) (tok_start t) (tok_end t).

(** The tokens of a tree in the order of the template: a section is its
    opening tag, then its children. *)
Fixpoint flat_token (t : token) : list token :=
  match t with
  | TokSection ty v s e children _ =>
      Tok ty v s e :: flat_map flat_token children
  | _ => [t]
  end.

Definition flat_tokens (l : list token) : list token :=
  flat_map flat_token l.

(** The flat tokens of the sections that are open in [nest_loop], outermost
    first, before the flat tokens [inner] of the current collector. *)
Fixpoint flat_open (inner : list token) (sections : list (token * list token))
  : list token :=
  match sections with
  | [] => inner
  | (section, outer) :: sections' =>
      flat_open (flat_tokens outer ++ plain section :: inner) sections'
  end.

(** A token of a tree as [parseTemplate] returns it: a section has the type
    of an opening tag, children of that kind and the offset of its closing
    tag; a partial has its three elements more; any other token has four
    elements and is no opening, closing or partial tag. *)
Fixpoint well_formed (t : token) : bool :=
  match t with
  | Tok ty _ _ _ =>
      match ty with hash | caret | slash | gt => false | _ => true end
  | TokPartial ty _ _ _ _ _ _ => match ty with gt => true | _ => false end
  | TokSection ty _ _ _ children closeStart =>
      opens ty && forallb well_formed children
      && match closeStart with Some _ => true | None => false end
  end.

(** The stack of the sections that a list of tokens leaves open, innermost
    first, from the stack before it; [None] when a closing tag meets no open
    section. *)
Fixpoint open_sections (toks : list token) (stack : list token)
  : option (list token) :=
  match toks with
  | [] => Some stack
  | t :: rest =>
      match tok_type t with
      | hash | caret => open_sections rest (t :: stack)
      | slash =>
          match stack with
          | [] => None
          | _ :: stack' => open_sections rest stack'
          end
      | _ => open_sections rest stack
      end
  end.

(** A buffer, a stack of indices of whitespace tokens and a stack of open
    sections fit together: every token of the buffer has the shape of a
    pushed token, every index of the stack is that of a hole or of a text
    token, and the open sections are those that the tokens of the buffer
    leave open. *)
Definition buffer_fits (toks : list (option token)) (sp : list nat)
    (secs : list token) : Prop :=
  Forall (fun slot => from_option pushed_shape true slot = true) toks
  /\ Forall (fun i => exists slot, toks !! i = Some slot
                      /\ (slot = None \/ text_slot slot = true)) sp
  /\ open_sections (live toks) [] = Some secs.

Definition buffer_ok (st : pstate) : Prop :=
  buffer_fits (tokens st) (spaces st) (sections st).

(** The errors that [parseTemplate] throws. *)
Definition is_parse_error (e : error) : bool :=
  match e with
  | InvalidTags _ | UnclosedTag _ | UnopenedSection _ _
  | UnclosedSection _ _ => true
  | NoOriginalTemplate | TypeError _ => false
  end.

(** ** Templates without tags *)

(** Whether the string [p] occurs in the string [s]. *)
Fixpoint occurs (p s : jstring) : bool :=
  starts_with p s
  || match s with
     | [] => false
     | _ :: s' => occurs p s'
     end.

(** The tokens that [text_loop] pushes for a text that starts at an
    offset. *)
Fixpoint char_tokens (value : jstring) (start : nat) : list (option token) :=
  match value with
  | [] => []
  | chr :: rest =>
      Some (Tok text [chr] start (start + 1)) :: char_tokens rest (start + 1)
  end.

(** ** Depth of a tree of tokens *)


(** The characters of what [String] gives for a finite number. *)
Definition numeral_chars : list ascii :=
  ["0"; "1"; "2"; "3"; "4"; "5"; "6"; "7"; "8"; "9"; "-"; "+"; "."; "e"]%char.

(** ** Offsets of the tokens *)

(** The tokens of a list lie one after the other between two offsets, and
    each spans at least one character. *)
Fixpoint spans (lo : nat) (l : list token) (hi : nat) : Prop :=
  match l with
  | [] => lo <= hi
  | t :: rest =>
      lo <= tok_start t /\ tok_start t < tok_end t
      /\ spans (tok_end t) rest hi
  end.

(** The tokens of a tree lie in the template from left to right between
    two offsets: each token spans at least one character and starts where
    the one before it ends or after; the children of a section lie between
    the end of its opening tag and the start of its closing tag, and what
    follows the section lies after that start. *)
Inductive laid : nat -> list token -> nat -> Prop :=
| laid_nil lo hi : lo <= hi -> laid lo [] hi
| laid_token lo t rest hi :
    tok_children t = None ->
    lo <= tok_start t -> tok_start t < tok_end t ->
    laid (tok_end t) rest hi ->
    laid lo (t :: rest) hi
| laid_section lo ty v s e children cs rest hi :
    lo <= s -> s < e ->
    laid e children cs ->
    laid (S cs) rest hi ->
    laid lo (TokSection ty v s e children (Some cs) :: rest) hi.

(** The sections that are open in [nest_loop] lie in the template: each was
    opened after the tokens of the collector that was current then, and
    [lo] is the end of the opening tag of the innermost one, or 0. *)
Fixpoint stack_laid (lo : nat) (sections : list (token * list token)) : Prop :=
  match sections with
  | [] => lo = 0
  | (section, outer) :: sections' =>
      lo = tok_end section /\ tok_start section < tok_end section
      /\ exists lo', laid lo' outer (tok_start section)
                     /\ stack_laid lo' sections'
  end.

(** A scanner of a template, with its cursor inside the template or at its
    end. *)
Definition inside (template : jstring) (sc : Scanner.t) : Prop :=
  Scanner.source sc = template /\ Scanner.pos sc <= length template.

(** ** The text of the text tokens *)

(** A text token holds the text of the template between its offsets. *)
Definition text_ok (template : jstring) (t : token) : Prop :=
  is_text t = true ->
  tok_start t <= tok_end t
  /\ tok_value t = slice template (tok_start t) (Some (tok_end t)).

(** Every text token of a list holds the text of the template between its
    offsets, and two text tokens that are neighbours meet: the second starts
    where the first ends. *)
Fixpoint joined (template : jstring) (l : list token) : Prop :=
  match l with
  | [] => True
  | a :: rest =>
      text_ok template a
      /\ match rest with
         | b :: _ =>
             is_text a = true -> is_text b = true -> tok_end a = tok_start b
         | [] => True
         end
      /\ joined template rest
  end.

(** The state of the parser when the next character of the template to take
    in is at offset [p]: the buffer is the tokens [old] of the lines that
    are over, then the tokens [line] of the current line, none of them
    deleted; the text tokens that are left hold the text of the template and
    meet their neighbours, the last one ends at [p]; [spaces] holds indices
    of text tokens of the current line, all of them while [nonSpace] is not
    set; and the current line holds a tag when [hasTag] is set. *)
Definition line_state (template : jstring) (st : pstate) (p : nat) : Prop :=
  exists old line,
    tokens st = old ++ map Some line
    /\ joined template (live old ++ line)
    /\ (forall t, last (live old ++ line) = Some t ->
                  is_text t = true -> tok_end t = p)
    /\ Forall (fun i => exists k t, i = length old + k
                                    /\ line !! k = Some t
                                    /\ is_text t = true) (spaces st)
    /\ (nonSpace st = false ->
        forall k t, line !! k = Some t -> is_text t = true ->
                    length old + k ∈ spaces st)
    /\ (hasTag st = true -> exists t, t ∈ line /\ is_text t = false).

(** An item that is not a tag of type ['text']. *)
Definition tag_item_ok (it : item) : bool :=
  match it with
  | Tag text _ _ _ => false
  | _ => true
  end.

(** ** A template with one variable tag *)

(** The text token of a text that starts at an offset; no token for the
    empty text. *)
Definition text_token (value : jstring) (start : nat) : list token :=
  match value with
  | [] => []
  | _ => [Tok text value start (start + length value)]
  end.

(** ** Tactics *)

(** Case analysis on the comparisons of a character with given ones. *)
Ltac split_char c :=
  repeat match goal with
    | |- context [Ascii.eqb c ?x] =>
        let E := fresh "E" in
        destruct (Ascii.eqb c x) eqn:E;
        [apply Ascii.eqb_eq in E; subst c | apply Ascii.eqb_neq in E]
    | H : context [Ascii.eqb c ?x] |- _ =>
        let E := fresh "E" in
        destruct (Ascii.eqb c x) eqn:E;
        [apply Ascii.eqb_eq in E; subst c | apply Ascii.eqb_neq in E]
    end.

Ltac neq_chars c :=
  repeat match goal with
    | H : c <> ?x |- _ => rewrite (proj2 (Ascii.eqb_neq c x) H) in *; clear H
    end.

(** ** Sections with their closing tags *)

(** The tokens of a tree in the order of the template, each section with
    its closing tag, of which the tree keeps the start: a section is its
    opening tag, then its children, then a closing tag at [closeStart]. *)
Fixpoint with_closing (t : token) : list token :=
  match t with
  | TokSection ty v s e children closeStart =>
      Tok ty v s e :: flat_map with_closing children
        ++ match closeStart with
           | Some cs => [Tok slash [] cs cs]
           | None => []
           end
  | _ => [t]
  end.

(** What a tree keeps of a closing tag: its start. *)
Definition closing_start (t : token) : token :=
  if is_closing t then Tok slash [] (tok_start t) (tok_start t) else t.

(** The tokens of the sections that are open in [nest_loop], outermost
    first, before the tokens [inner] of the current collector. *)
Fixpoint open_with_closing (inner : list token)
    (sections : list (token * list token)) : list token :=
  match sections with
  | [] => inner
  | (section, outer) :: sections' =>
      open_with_closing
        (flat_map with_closing outer ++ plain section :: inner) sections'
  end.

(** The tokens of a tree, at any depth. *)
Fixpoint subtokens (t : token) : list token :=
  t :: match t with
       | TokSection _ _ _ _ children _ => flat_map subtokens children
       | _ => []
       end.

(** The tags of a list of tokens: its tokens that are not text. *)
Definition tags_of (l : list token) : list token :=
  List.filter (fun t => negb (is_text t)) l.

(** ** The offsets that text tokens span *)

(** A text token of the list spans the offset [p]. *)
Definition text_at (l : list token) (p : nat) : Prop :=
  exists t, t ∈ l /\ is_text t = true /\ tok_start t <= p < tok_end t.

(** ** Renders that return *)


(** ** Data of the examples *)

(** A host without functions, and one whose functions return the text they
    are given. *)
Definition no_functions :
  value -> value -> jstring -> (jstring -> M jstring) -> M value :=
  fun _ _ _ _ => ret VUndefined.

Definition echo :
  value -> value -> jstring -> (jstring -> M jstring) -> M value :=
  fun _ _ text _ => ret (VString text).

(** An object from its fields. *)
Definition obj (l : list (string * value)) : value :=
  VObject (map (fun kv => (js (fst kv), snd kv)) l).

Definition root (v : value) : Context.t := Context.Make v None.

(** An escape function that puts its argument between brackets. *)
Definition bracket (v : value) : jstring := js "[" ++ to_string v ++ js "]".

(** The regular expressions of the default delimiters. *)
Definition default_res : regexp * regexp * regexp :=
  ([Lit (js "{{"); WsStar], [WsStar; Lit (js "}}")],
   [WsStar; Lit (js "}}}")]).

(** * Properties of the writer *)

Section WriterFacts.

Variable call_function :
  value -> value -> jstring -> (jstring -> M jstring) -> M value.
Variable rec :
  list token -> Context.t -> partials -> option jstring -> config -> M jstring.

Abbreviation renderTokens_loop' := (renderTokens_loop call_function rec).
Abbreviation renderSection' := (renderSection call_function rec).
Abbreviation renderInverted' := (renderInverted rec).
Abbreviation renderPartial' := (renderPartial rec).



(** C5: for a number, the default escape function is not called, the number
    is only stringified; a function supplied in its place is called on the
    number itself. *)
Theorem escaped_number token context c n :
  Context.lookup context (tok_value token) = VNumber n ->
  ((getConfigEscape c = None \/ getConfigEscape c = Some mustache_escape) ->
   escapedValue token context c = VString (number_to_string n))
  /\ (forall f, getConfigEscape c = Some (CustomEscape f) ->
      escapedValue token context c = VString (f (VNumber n))).
Proof.
  intros Hv. unfold escapedValue. rewrite Hv. split.
  - by intros [-> | ->].
  - by intros f ->.
Qed.

(** C7: when the name resolves to the empty array, the section appends
    nothing and the inverted section renders its children in the current
    context. *)
Theorem empty_array_section_and_inverted
    token children rest context p ot c buffer w :
  Context.lookup context (tok_value token) = VArray [] ->
  tok_children token = Some children ->
  (tok_type token = hash ->
   renderTokens_loop' (token :: rest) context p ot c buffer w
   = renderTokens_loop' rest context p ot c buffer w)
  /\ renderInverted' token context p ot c w
     = (do s <- rec children context p ot c; ret (VString s)) w
  /\ (tok_type token = caret ->
      renderTokens_loop' (token :: rest) context p ot c buffer w
      = (do s <- rec children context p ot c;
         renderTokens_loop' rest context p ot c (buffer ++ s)) w).
Proof.
  intros Hv Hc. split; [|split].
  - intros Ht. cbn [renderTokens_loop]. unfold render_token, renderSection, bind.
    rewrite Ht, Hv. cbn. by rewrite app_nil_r.
  - unfold renderInverted, render_children. by rewrite Hv, Hc.
  - intros Ht. cbn [renderTokens_loop].
    unfold render_token, renderInverted, render_children, bind.
    rewrite Ht, Hv, Hc. cbn. by destruct (rec _ _ _ _ _ _) as [[]].
Qed.

(** C8: a section whose value is truthy and is neither an array, an object,
    a string, a number nor a function renders its children in the context it
    was given; nothing is pushed. *)
Theorem other_truthy_section_keeps_context
    token children context p ot c w :
  let value := Context.lookup context (tok_value token) in
  truthy value = true ->
  isArray value = false ->
  typeof value <> t_object ->
  typeof value <> t_string ->
  typeof value <> t_number ->
  isFunction value = false ->
  tok_children token = Some children ->
  renderSection' token context p ot c w
  = (do s <- rec children context p ot c; ret (VString s)) w.
Proof.
  intros value Ht Ha Ho Hs Hn Hf Hc. unfold renderSection, render_children.
  fold value. rewrite Ht, Ha, Hf, Hc. by destruct value.
Qed.

(** C10: a variable appends nothing only when its value is [null] or
    [undefined]; [false], [0], [NaN] and the empty string are appended,
    stringified, and escaped for an escaped variable, while the same values
    make a section yield nothing. *)
Theorem falsy_values_still_render token rest context p ot c buffer w :
  let value := Context.lookup context (tok_value token) in
  let escape := default mustache_escape (getConfigEscape c) in
  (unescapedValue token context = VUndefined <-> nullish value = true)
  /\ (escapedValue token context c = VUndefined <-> nullish value = true)
  /\ (value ∈ [VBool false; VNumber (Int 0); VNumber NaN; VString []] ->
      unescapedValue token context = value
      /\ escapedValue token context c = VString (call_escape escape value)
      /\ (tok_type token = amp ->
          renderTokens_loop' (token :: rest) context p ot c buffer w
          = renderTokens_loop' rest context p ot c
              (buffer ++ to_string value) w)
      /\ (tok_type token = name ->
          renderTokens_loop' (token :: rest) context p ot c buffer w
          = renderTokens_loop' rest context p ot c
              (buffer ++ call_escape escape value) w)
      /\ renderSection' token context p ot c w = (Ok VUndefined, w)).
Proof.
  intros value escape. split; [|split].
  - unfold unescapedValue. fold value. by destruct value.
  - unfold escapedValue. fold value escape.
    destruct value as [| | |n| | | |]; try done. by destruct (is_mustache_escape _).
  - intros Hin.
    assert (Hu : unescapedValue token context = value).
    { unfold unescapedValue. fold value.
      repeat (apply elem_of_cons in Hin as [-> | Hin]; [done|]).
      by apply elem_of_nil in Hin. }
    assert (He : escapedValue token context c
                 = VString (call_escape escape value)).
    { unfold escapedValue. fold value escape.
      repeat (apply elem_of_cons in Hin as [-> | Hin];
              [by destruct escape|]).
      by apply elem_of_nil in Hin. }
    split; [done|]. split; [done|]. split; [|split].
    + intros Ht. cbn [renderTokens_loop]. unfold render_token, bind.
      rewrite Ht, Hu. cbn [ret].
      repeat (apply elem_of_cons in Hin as [-> | Hin]; [done|]).
      by apply elem_of_nil in Hin.
    + intros Ht. cbn [renderTokens_loop]. unfold render_token, bind.
      by rewrite Ht, He.
    + unfold renderSection. fold value.
      repeat (apply elem_of_cons in Hin as [-> | Hin]; [done|]).
      by apply elem_of_nil in Hin.
Qed.

End WriterFacts.


(** ** Indentation of partials *)

Lemma split_on_no_sep sep s : sep ∉ s -> split_on sep s = [s].
Proof.
  induction s as [|c s IH]; [done|]. intros Hn.
  apply not_elem_of_cons in Hn as [Hc Hs]. cbn.
  destruct (Ascii.eqb_spec c sep) as [->|_]; [done|]. by rewrite IH.
Qed.

Lemma split_on_app sep x rest :
  sep ∉ x -> split_on sep (x ++ sep :: rest) = x :: split_on sep rest.
Proof.
  induction x as [|c x IH]; intros Hn; cbn.
  - by rewrite Ascii.eqb_refl.
  - apply not_elem_of_cons in Hn as [Hc Hs].
    destruct (Ascii.eqb_spec c sep) as [->|_]; [done|]. by rewrite IH.
Qed.

Lemma split_on_join sep lines :
  lines <> [] -> Forall (fun l => sep ∉ l) lines ->
  split_on sep (join [sep] lines) = lines.
Proof.
  induction lines as [|x [|y rest] IH]; [done| |]; intros _ Hall.
  - apply Forall_cons in Hall as [Hx _]. by apply split_on_no_sep.
  - apply Forall_cons in Hall as [Hx Hrest].
    change (join [sep] (x :: y :: rest))
      with (x ++ sep :: join [sep] (y :: rest)).
    rewrite split_on_app by done. f_equal. by apply IH.
Qed.

Lemma split_on_lines sep s :
  split_on sep s <> [] /\ Forall (fun l => sep ∉ l) (split_on sep s).
Proof.
  induction s as [|c s [IHne IHall]]; cbn.
  - split; [done|]. repeat constructor. apply not_elem_of_nil.
  - destruct (Ascii.eqb_spec c sep) as [->|Hne].
    + split; [done|]. constructor; [apply not_elem_of_nil | done].
    + destruct (split_on sep s) as [|l ls]; [done|].
      split; [done|]. apply Forall_cons in IHall as [Hl Hls].
      constructor; [|done]. by apply not_elem_of_cons.
Qed.

Lemma join_split_on sep s : join [sep] (split_on sep s) = s.
Proof.
  induction s as [|c s IH]; [done|]. cbn.
  destruct (Ascii.eqb_spec c sep) as [->|Hne].
  - destruct (split_on_lines sep s) as [Hne _].
    destruct (split_on sep s) as [|l ls] eqn:E; [done|].
    change (join [sep] ([] :: l :: ls)) with (sep :: join [sep] (l :: ls)).
    by rewrite IH.
  - destruct (split_on sep s) as [|l ls] eqn:E.
    + by destruct (split_on_lines sep s) as [Hn _].
    + destruct ls as [|l' ls]; cbn in *; by rewrite <- IH.
Qed.

Lemma prefix_lines_no_sep sep prefix firstToo lines :
  sep ∉ prefix -> Forall (fun l => sep ∉ l) lines ->
  Forall (fun l => sep ∉ l) (prefix_lines prefix firstToo lines).
Proof.
  intros Hp Hall. unfold prefix_lines. apply Forall_lookup. intros i l Hl.
  rewrite list_lookup_imap in Hl.
  destruct (lines !! i) as [line|] eqn:E; [|done]. cbn in Hl.
  pose proof (Forall_lookup_1 _ _ _ _ Hall E) as Hline. cbn in Hline.
  injection Hl as <-. destruct (_ && _); [|done].
  rewrite elem_of_app. tauto.
Qed.

Lemma prefix_lines_nonempty prefix firstToo lines :
  lines <> [] -> prefix_lines prefix firstToo lines <> [].
Proof. by destruct lines. Qed.

(** The lines of the text that [indentPartial] returns: the lines of the
    partial, each one that is not empty prefixed with the spaces and tabs of
    the indentation; the first one only if [lineHasNonSpace] is false. *)
Lemma indentPartial_lines partial indentation lineHasNonSpace :
  split_on newline (indentPartial partial indentation lineHasNonSpace)
  = prefix_lines
      (filter (fun c => c = " "%char \/ c = "009"%char) indentation)
      (negb lineHasNonSpace) (split_on newline partial).
Proof.
  unfold indentPartial. fold (prefix_lines
    (filter (fun c => c = " "%char \/ c = "009"%char) indentation)
    (negb lineHasNonSpace) (split_on newline partial)).
  destruct (split_on_lines newline partial) as [Hne Hall].
  apply split_on_join.
  - by apply prefix_lines_nonempty.
  - apply prefix_lines_no_sep; [|done].
    intros Hin. apply list_elem_of_filter in Hin as [[H|H] _]; discriminate H.
Qed.

Lemma find_partial_Some p nm value :
  find_partial p nm = Some value <-> lookup_partial p nm = PartialString value.
Proof.
  unfold find_partial. destruct (lookup_partial p nm); split; congruence.
Qed.

Section PartialFacts.

Variable rec :
  list token -> Context.t -> partials -> option jstring -> config -> M jstring.

(** C6, as amended: a resolved partial is parsed and rendered from a text
    that is the partial itself unless the tag is the first on its line and
    an indentation was captured; then the lines of the text are the lines of
    the partial, each one that is not empty prefixed with the spaces and
    tabs of the indentation (its other characters are dropped), the first
    line only when the line of the tag had no character that is not
    whitespace before the tag. *)
Theorem partial_indentation
    ty nm s e indentation tagIndex lineHasNonSpace context p c value w :
  let token := TokPartial ty nm s e indentation tagIndex lineHasNonSpace in
  find_partial p nm = Some value ->
  exists text',
    renderPartial rec token context p c w
    = (do tokens <- Writer_parse text' (getConfigTags c);
       do s <- rec tokens context p (Some text') c;
       ret (VString s)) w
    /\ (tagIndex = 0 /\ indentation <> [] ->
        split_on newline text'
        = prefix_lines
            (filter (fun c => c = " "%char \/ c = "009"%char) indentation)
            (negb lineHasNonSpace) (split_on newline value))
    /\ (~ (tagIndex = 0 /\ indentation <> []) -> text' = value).
Proof.
  intros token Hf. subst token.
  apply find_partial_Some in Hf as Hl.
  destruct (Nat.eqb tagIndex 0 && negb (Nat.eqb (length indentation) 0)) eqn:E.
  - exists (indentPartial value indentation lineHasNonSpace).
    apply andb_true_iff in E as [E1 E2].
    apply Nat.eqb_eq in E1. apply negb_true_iff, Nat.eqb_neq in E2.
    split; [|split].
    + unfold renderPartial, indentedValue. cbn [tok_value]. rewrite Hl.
      subst tagIndex. destruct indentation; [done|]. by destruct p.
    + intros _. apply indentPartial_lines.
    + intros Hn. destruct Hn. split; [done|]. by destruct indentation.
  - exists value. split; [|split].
    + unfold renderPartial, indentedValue. cbn [tok_value]. rewrite Hl, E.
      by destruct p.
    + intros [-> Hi]. destruct indentation; [done|]. discriminate E.
    + done.
Qed.

End PartialFacts.

(** C6, as stated, fails: the template of one carriage return and the tag
    [{{>p}}] parses to a partial that is the first tag on its line with the
    carriage return as its indentation, and the partial ["a"] is then used
    as it is, not prefixed with the carriage return. *)
Lemma partial_indentation_not_verbatim :
  let token := TokPartial gt (js "p") 1 7 ["013"%char] 0 false in
  parseTemplate ("013"%char :: js "{{>p}}") TagsUndefined = Ok [token]
  /\ indentedValue token (js "a") = Ok (js "a")
  /\ indentedValue token (js "a")
     <> Ok (claimed_partial_text token (js "a")).
Proof. split; [|split]; [by vm_compute..|]. vm_compute. discriminate. Qed.

(** ** The template cache *)

Lemma first_sep_unique (sep : ascii) a b a' b' :
  sep ∉ a -> sep ∉ a' -> a ++ sep :: b = a' ++ sep :: b' -> a = a' /\ b = b'.
Proof.
  revert a'. induction a as [|x a IH]; intros [|x' a'] Ha Ha' H; cbn in H.
  - by injection H as <-.
  - injection H as <- _. apply not_elem_of_cons in Ha' as [? _]. done.
  - injection H as -> _. apply not_elem_of_cons in Ha as [? _]. done.
  - injection H as <- H. apply not_elem_of_cons in Ha as [_ Ha].
    apply not_elem_of_cons in Ha' as [_ Ha'].
    destruct (IH a' Ha Ha' H) as [-> ->]. done.
Qed.

Lemma last_sep_unique (sep : ascii) a b a' b' :
  sep ∉ b -> sep ∉ b' -> a ++ sep :: b = a' ++ sep :: b' -> a = a' /\ b = b'.
Proof.
  intros Hb Hb' H. apply (f_equal reverse) in H.
  rewrite !reverse_app, !reverse_cons, <- !app_assoc in H. cbn in H.
  apply first_sep_unique in H as [H1 H2].
  - split; by apply (inj reverse).
  - by rewrite elem_of_reverse.
  - by rewrite elem_of_reverse.
Qed.

(** The key of the cache tells the template and the delimiters apart when
    the delimiters are a pair without colons. *)
Lemma cache_key_inj t o c t' o' c' :
  (":"%char ∉ o) -> (":"%char ∉ c) -> (":"%char ∉ o') -> (":"%char ∉ c') ->
  cache_key t [o; c] = cache_key t' [o'; c'] ->
  t = t' /\ o = o' /\ c = c'.
Proof.
  intros Ho Hc Ho' Hc' H. unfold cache_key in H. cbn in H.
  change (t ++ (":"%char :: o) ++ (":"%char :: c)
          = t' ++ (":"%char :: o') ++ (":"%char :: c')) in H.
  rewrite !app_assoc in H.
  apply last_sep_unique in H as [H ->]; [|done..].
  apply last_sep_unique in H as [-> ->]; done.
Qed.

(** With a sound cache and delimiters without colons, the cached parse
    returns what [parseTemplate] returns, and leaves the cache sound. *)
Lemma Writer_parse_sound template tags w :
  cache_sound w -> plain_pair tags ->
  (Writer_parse template tags w).1 = parseTemplate template tags
  /\ cache_sound (Writer_parse template tags w).2.
Proof.
  intros Hw Hp.
  assert (exists o c, tags_or_default tags = TagsArray [o; c]
                      /\ (":"%char ∉ o) /\ (":"%char ∉ c)
                      /\ parseTemplate template tags
                         = parseTemplate template (TagsArray [o; c]))
    as (o & c & Ht & Ho & Hc & Hparse).
  { destruct Hp as [->|(o & c & -> & Ho & Hc)].
    - exists (js "{{"), (js "}}"). split; [done|].
      split; [|split; [|done]]; intros H;
        repeat (apply elem_of_cons in H as [H|H]; [done|]);
        by apply elem_of_nil in H.
    - by exists o, c. }
  unfold Writer_parse. rewrite Ht.
  destruct (templateCache w) as [cache|] eqn:Ecache; [|done].
  destruct (cache !! cache_key template [o; c]) as [toks|] eqn:Ehit.
  - split; [|done]. cbn. rewrite Hparse. symmetry. by eapply Hw.
  - destruct (parseTemplate template tags) as [toks| |] eqn:Ep; [|done..].
    split; [done|]. cbn.
    intros cache' t' o' c' toks' [= <-] Ho' Hc' Hl.
    destruct (decide (cache_key template [o; c] = cache_key t' [o'; c']))
      as [Heq|Hne].
    + rewrite Heq, lookup_insert_eq in Hl. injection Hl as <-.
      apply cache_key_inj in Heq as (<- & <- & <-); [|done..].
      by rewrite <- Hparse.
    + rewrite lookup_insert_ne in Hl by done. by eapply Hw.
Qed.

Lemma parse_calls_sound calls w :
  cache_sound w -> Forall (fun call => plain_pair call.2) calls ->
  cache_sound (parse_calls calls w).
Proof.
  revert w. induction calls as [|call calls IH]; intros w Hw Hall; [done|].
  apply Forall_cons in Hall as [Hc Hall]. cbn. apply IH; [|done].
  by apply Writer_parse_sound.
Qed.

(** After any calls of [parse] whose delimiters are absent or a pair
    without colons, on a writer that starts with an empty cache, the cached
    parse of a template with such delimiters returns what [parseTemplate]
    returns for them. *)
Lemma Writer_parse_without_colons calls template tags :
  Forall (fun call => plain_pair call.2) calls -> plain_pair tags ->
  (Writer_parse template tags (parse_calls calls new_Writer)).1
  = parseTemplate template tags.
Proof.
  intros Hall Hp. apply Writer_parse_sound; [|done].
  apply parse_calls_sound; [|done].
  intros cache t o c toks [= <-] _ _ H. by rewrite lookup_empty in H.
Qed.

(** C1: the cache of the writer is keyed by the template and the delimiters
    joined with colons, and two pairs can make the same key: after the
    template ["x:y"] is parsed with the delimiters ["a"] and ["b"], the parse
    of the template ["x"] with the delimiters ["y:a"] and ["b"] returns the
    tokens of the first template, which are not those that [parseTemplate]
    gives for it. *)
Theorem cache_key_collision :
  let tags1 := TagsArray [js "a"; js "b"] in
  let tags2 := TagsArray [js "y:a"; js "b"] in
  let w1 := (Writer_parse (js "x:y") tags1 new_Writer).2 in
  (Writer_parse (js "x:y") tags1 new_Writer).1 = Ok [Tok text (js "x:y") 0 3]
  /\ (Writer_parse (js "x") tags2 w1).1 = Ok [Tok text (js "x:y") 0 3]
  /\ parseTemplate (js "x") tags2 = Ok [Tok text (js "x") 0 1].
Proof. split; [|split]; by vm_compute. Qed.

(** * Properties of the parser *)

(** ** The scanner only moves forward *)

Lemma moved_refl sc : moved sc sc.
Proof. by split. Qed.

Lemma moved_trans sc1 sc2 sc3 : moved sc1 sc2 -> moved sc2 sc3 -> moved sc1 sc3.
Proof. intros [? ?] [? ?]. split; [congruence | lia]. Qed.

Lemma scan_moved re sc m sc' :
  Scanner.scan re sc = (m, sc') ->
  moved sc sc' /\ (m <> [] -> Scanner.pos sc < Scanner.pos sc').
Proof.
  unfold Scanner.scan. destruct (match_here re _) as [n|]; intros [= <- <-].
  - split; [split; cbn; [done | lia]|]. cbn. intros Hm.
    destruct n; [by rewrite take_0 in Hm | lia].
  - split; [apply moved_refl | done].
Qed.

Lemma scanUntil_moved re sc m sc' :
  Scanner.scanUntil re sc = (m, sc') -> moved sc sc'.
Proof.
  unfold Scanner.scanUntil. destruct (search re _); intros [= <- <-];
    split; cbn; (done || lia).
Qed.

Lemma eos_remaining sc : Scanner.eos sc = true <-> remaining sc = 0.
Proof.
  unfold Scanner.eos, Scanner.tail, remaining.
  destruct (drop _ _) eqn:E.
  - apply (f_equal length) in E. rewrite length_drop in E. cbn in E. done.
  - apply (f_equal length) in E. rewrite length_drop in E. cbn in E.
    split; [done | lia].
Qed.

Lemma stripSpace_scanner st : scanner (stripSpace st) = scanner st.
Proof. unfold stripSpace. by destruct (_ && _). Qed.

Lemma text_char_scanner chr start st :
  scanner (text_char chr start st) = scanner st.
Proof.
  unfold text_char. destruct (isWhitespace _), (Ascii.eqb _ _); cbn -[stripSpace];
    by rewrite ?stripSpace_scanner.
Qed.

Lemma text_loop_scanner value start st :
  scanner (text_loop value start st).1 = scanner st.
Proof.
  revert start st. induction value as [|chr value IH]; intros start st; [done|].
  cbn. by rewrite IH, text_char_scanner.
Qed.

Lemma scan_value_moved type st sc type' value sc' :
  scan_value type st sc = (type', value, sc') -> moved sc sc'.
Proof.
  unfold scan_value. intros H.
  destruct type;
    repeat match type of H with
      | context [Scanner.scanUntil ?re ?s] =>
          let E := fresh "E" in
          destruct (Scanner.scanUntil re s) as [? ?] eqn:E;
          apply scanUntil_moved in E
      | context [Scanner.scan ?re ?s] =>
          let E := fresh "E" in
          destruct (Scanner.scan re s) as [? ?] eqn:E;
          apply scan_moved in E as [E _]
      end;
    injection H as <- <- <-; eauto using moved_trans.
Qed.

Lemma scan_tag_moved st type value start st1 :
  scan_tag st = TagRead type value start st1 ->
  Scanner.source (scanner st1) = Scanner.source (scanner st)
  /\ Scanner.pos (scanner st) < Scanner.pos (scanner st1).
Proof.
  unfold scan_tag.
  destruct (Scanner.scanUntil _ _) as [v sc0] eqn:E0.
  apply scanUntil_moved in E0 as [S0 P0].
  destruct (text_loop _ _ _) as [stb start'] eqn:Eb.
  pose proof (text_loop_scanner v (Scanner.pos (scanner st)) (set_scanner sc0 st))
    as Hb. rewrite Eb in Hb. cbn in Hb.
  destruct (Scanner.scan (openingTagRe stb) _) as [opened sc1] eqn:E1.
  apply scan_moved in E1 as [[S1 P1] L1]. rewrite Hb in S1, P1, L1.
  destruct opened as [|o opened]; [done|].
  destruct (Scanner.scan tagRe sc1) as [ty sc2] eqn:E2.
  apply scan_moved in E2 as [[S2 P2] _].
  destruct (Scanner.scan whiteRe sc2) as [wh sc3] eqn:E3.
  apply scan_moved in E3 as [[S3 P3] _].
  destruct (scan_value _ _ sc3) as [[ty' v'] sc4] eqn:E4.
  apply scan_value_moved in E4 as [S4 P4].
  destruct (Scanner.scan _ sc4) as [closed sc5] eqn:E5.
  apply scan_moved in E5 as [[S5 P5] _].
  destruct closed; [done|]. intros [= <- <- <- <-]. cbn.
  split; [congruence|]. specialize (L1 ltac:(done)). lia.
Qed.

Lemma push_tag_scanner type value start st st' :
  push_tag type value start st = Continue st' -> scanner st' = scanner st.
Proof.
  unfold push_tag. destruct type; try (by intros [= <-]).
  - destruct (sections _); [done|]. destruct (jstring_eqb _ _); [|done].
    by intros [= <-].
  - destruct (compileTags _); [done|]. by intros [= <-].
Qed.

Lemma parse_turn_progress st st' :
  parse_turn st = Continue st' ->
  Scanner.source (scanner st') = Scanner.source (scanner st)
  /\ Scanner.pos (scanner st) < Scanner.pos (scanner st').
Proof.
  unfold parse_turn. destruct (scan_tag st) as [ty v s st1| |] eqn:E; [|done..].
  intros H. apply push_tag_scanner in H. rewrite H.
  by apply scan_tag_moved in E.
Qed.

(** The loop never runs out of turns when it is given as many as there are
    characters left. *)
Lemma parse_loop_enough fuel st :
  remaining (scanner st) <= fuel -> parse_loop fuel st <> OutOfFuel.
Proof.
  revert st. induction fuel as [|fuel IH]; intros st Hr; cbn.
  - destruct (Scanner.eos _) eqn:E; [done|].
    assert (remaining (scanner st) = 0) as H0 by lia.
    apply eos_remaining in H0. congruence.
  - destruct (Scanner.eos _) eqn:E; [done|].
    destruct (parse_turn st) as [st'| |] eqn:Et; [|done..].
    apply IH. apply parse_turn_progress in Et as [Hs Hp].
    unfold remaining in *. rewrite Hs. lia.
Qed.


(** [parseTemplate] returns tokens or throws: the bound on the turns of its
    loop is never what stops it. *)
Lemma parseTemplate_total template tags :
  parseTemplate template tags <> OutOfFuel.
Proof.
  unfold parseTemplate. destruct template as [|c template]; [done|].
  destruct (compileTags _) as [e|res]; [done|].
  pose proof (parse_loop_enough (S (length (c :: template)))
                (initial_state res (c :: template))) as H.
  destruct (parse_loop _ _) as [st| |]; [|done|].
  - unfold obind, finish, nestTokens. destruct (sections _); [|done].
    generalize (squashTokens (tokens (stripSpace st))).
    generalize (@nil token) at 1. generalize (@nil (token * list token)).
    intros secs col toks. revert secs col.
    induction toks as [|t toks IH]; intros secs col; cbn; [done|].
    destruct (tok_type t); try apply IH. by destruct secs as [|[]].
  - exfalso. apply H; [|done]. unfold remaining. cbn. lia.
Qed.

(** ** A tag that is not closed *)







(** ** Structural violations *)


Lemma compileTags_string_not_pair s :
  length (split_space2 s) <> 2 ->
  compileTags (TagsString s) = inl (InvalidTags (TagsArray (split_space2 s))).
Proof.
  intros H. unfold compileTags.
  by destruct (split_space2 s) as [|? [|? [|? ?]]].
Qed.

(** A turn throws exactly when it meets a violation, and throws its
    error. *)
Lemma parse_turn_raise st e : parse_turn st = Raise e <-> violation st e.
Proof.
  split.
  - unfold parse_turn.
    destruct (scan_tag st) as [type value start st1| |pos] eqn:E; [|done|].
    + unfold push_tag. destruct type; try done.
      * destruct (sections _) as [|openSection rest] eqn:Es.
        -- intros [= <-]. by eapply unopened_section.
        -- destruct (jstring_eqb _ _) eqn:Eb; [done|]. intros [= <-].
           eapply mismatched_section; [done..|].
           by apply bool_decide_eq_false in Eb.
      * destruct (compileTags _) as [e'|] eqn:Ec; [|done]. intros [= <-].
        unfold compileTags in Ec.
        destruct (split_space2 value) as [|? [|? [|? ?]]] eqn:Esp;
          try done; injection Ec as <-; rewrite <- Esp;
          eapply invalid_delimiter_change; try done; by rewrite Esp.
    + intros [= <-]. by constructor.
  - intros [st' pos E|st' value start st1 E Es
            |st' value start st1 openSection rest E Es Hne
            |st' value start st1 E Hl]; unfold parse_turn; rewrite E.
    + done.
    + unfold push_tag. cbn. by rewrite Es.
    + unfold push_tag, jstring_eqb. cbn. rewrite Es.
      by rewrite (bool_decide_eq_false_2 _ Hne).
    + unfold push_tag. by rewrite compileTags_string_not_pair.
Qed.









(** ** Whitespace on the line of a tag *)

Lemma run_items_app items1 items2 st :
  run_items (items1 ++ items2) st
  = match run_items items1 st with
    | Continue st' => run_items items2 st'
    | stop => stop
    end.
Proof.
  revert st. induction items1 as [|it items1 IH]; intros st; cbn.
  - by destruct (run_items items2 st).
  - destruct (run_item it st); [apply IH|done..].
Qed.

Lemma push_tag_fields type value start st st' :
  push_tag type value start st = Continue st' ->
  exists token,
    tokens st' = tokens st ++ [Some token]
    /\ pushed (Tag type value start (scanner st)) token
    /\ spaces st' = spaces st
    /\ hasTag st' = hasTag st
    /\ nonSpace st' = nonSpace st || is_variable type.
Proof.
  unfold push_tag. intros H.
  exists (match type with
          | gt => TokPartial type value start (Scanner.pos (scanner st))
                    (indentation st) (tagIndex st) (lineHasNonSpace st)
          | _ => Tok type value start (Scanner.pos (scanner st))
          end).
  destruct type; cbn in H;
    repeat match type of H with
      | context [match ?x with _ => _ end] => destruct x; try done
      end;
    injection H as <-; cbn; rewrite ?orb_false_r, ?orb_true_r;
    (split; [done|]); (split; [by constructor|]); done.
Qed.

Lemma text_char_not_newline chr start st :
  Ascii.eqb chr newline = false ->
  tokens (text_char chr start st)
  = tokens st ++ [Some (Tok text [chr] start (start + 1))]
  /\ spaces (text_char chr start st)
     = (if is_ws chr then length (tokens st) :: spaces st else spaces st)
  /\ hasTag (text_char chr start st) = hasTag st
  /\ nonSpace (text_char chr start st) = nonSpace st || negb (is_ws chr).
Proof.
  intros Hn. unfold text_char. rewrite Hn. cbn [isWhitespace forallb].
  rewrite andb_true_r. destruct (is_ws chr); cbn;
    by rewrite ?orb_false_r, ?orb_true_r.
Qed.

Lemma text_char_newline start st :
  tokens (text_char newline start st)
  = tokens (stripSpace
              (push_token (Tok text [newline] start (start + 1))
                 (set_spaces (length (tokens st) :: spaces st) st))).
Proof. unfold text_char, stripSpace. cbn. by destruct (_ && _). Qed.

(** What the items of a line with no line feed do to the state. *)
Lemma run_items_line items st st' :
  existsb is_newline items = false ->
  run_items items st = Continue st' ->
  hasTag st' = hasTag st || existsb is_tag items
  /\ nonSpace st' = nonSpace st || existsb keeps_space items
  /\ exists new, tokens st' = tokens st ++ map Some new
                 /\ Forall2 pushed (List.filter pushes items) new.
Proof.
  revert st. induction items as [|it items IH]; intros st Hn Hr.
  - injection Hr as <-. rewrite !orb_false_r. split; [done|split; [done|]].
    exists []. split; [by rewrite app_nil_r | constructor].
  - cbn in Hn. apply orb_false_iff in Hn as [Hn1 Hn2]. cbn in Hr.
    destruct (run_item it st) as [st1| |] eqn:E1; [|done..].
    destruct (IH st1 Hn2 Hr) as (Hh & Hs & new & Ht & Hl).
    rewrite Hh, Hs, Ht. destruct it as [sc|chr start|type value start sc].
    + injection E1 as <-. cbn. split; [done|split; [done|]]. by exists new.
    + injection E1 as <-.
      destruct (text_char_not_newline chr start st Hn1) as (T & _ & H & N).
      rewrite T, H, N. cbn. rewrite orb_assoc. split; [done|split; [done|]].
      exists (Tok text [chr] start (start + 1) :: new). cbn.
      rewrite <- app_assoc. split; [done | by repeat constructor].
    + cbn in E1. apply push_tag_fields in E1 as (token & T & P & _ & H & N).
      rewrite T, H, N. cbn. rewrite orb_assoc, orb_true_r.
      split; [done|split; [done|]].
      exists (token :: new). cbn.
      rewrite <- app_assoc. split; [done | by constructor].
Qed.

Lemma delete_spaces_app sp toks extra :
  Forall (fun i => i < length toks) sp ->
  delete_spaces sp (toks ++ extra) = delete_spaces sp toks ++ extra.
Proof.
  revert toks. induction sp as [|i sp IH]; intros toks Hb; [done|].
  apply Forall_cons in Hb as [Hi Hb]. cbn.
  rewrite insert_app_l by done. apply IH.
  by rewrite length_insert.
Qed.

Lemma delete_spaces_last sp toks t :
  Forall (fun i => i < length toks) sp ->
  delete_spaces (length toks :: sp) (toks ++ [Some t])
  = delete_spaces sp toks ++ [None].
Proof.
  intros Hb. cbn. rewrite insert_app_r_alt by done.
  rewrite Nat.sub_diag. cbn. by apply delete_spaces_app.
Qed.

Lemma blank_or_block_keeps it :
  blank_or_block it = true -> keeps_space it = false.
Proof.
  destruct it as [|chr ?|type ? ? ?]; cbn; [done| |].
  - by intros ->.
  - by destruct type.
Qed.

Lemma pushed_tag_type type value start sc token :
  pushed (Tag type value start sc) token -> tok_type token = type.
Proof. by inversion 1. Qed.

Lemma block_token_not_space token :
  is_block (tok_type token) = true -> is_space_token token = false.
Proof. by destruct token as [[] | |]. Qed.

(** The deletions that [stripSpace] would make, on a line of whitespace and
    block tags: every character pushed is deleted, every tag stays. *)
Lemma run_items_blank items st st' :
  existsb is_newline items = false ->
  forallb blank_or_block items = true ->
  run_items items st = Continue st' ->
  Forall (fun i => i < length (tokens st)) (spaces st) ->
  Forall (fun i => i < length (tokens st')) (spaces st')
  /\ exists extra,
      tokens st' = tokens st ++ extra
      /\ delete_spaces (spaces st') (tokens st')
         = delete_spaces (spaces st) (tokens st) ++ map blank extra.
Proof.
  revert st. induction items as [|it items IH]; intros st Hn Hb Hr Hsp.
  - injection Hr as <-. split; [done|]. exists []. cbn. by rewrite !app_nil_r.
  - cbn in Hn, Hb, Hr. apply orb_false_iff in Hn as [Hn1 Hn2].
    apply andb_true_iff in Hb as [Hb1 Hb2].
    destruct (run_item it st) as [st1| |] eqn:E1; [|done..].
    assert (Forall (fun i => i < length (tokens st1)) (spaces st1)
            /\ exists e1, tokens st1 = tokens st ++ e1
                 /\ delete_spaces (spaces st1) (tokens st1)
                    = delete_spaces (spaces st) (tokens st) ++ map blank e1)
      as (Hsp1 & e1 & T1 & D1).
    { destruct it as [sc|chr start|type value start sc].
      - injection E1 as <-. cbn. split; [done|]. exists []. cbn.
        by rewrite !app_nil_r.
      - injection E1 as <-. cbn in Hb1.
        destruct (text_char_not_newline chr start st Hn1) as (T & S & _ & _).
        rewrite Hb1 in S. rewrite T, S. split.
        + rewrite length_app. cbn. constructor; [lia|].
          eapply Forall_impl; [exact Hsp|]. cbn. lia.
        + eexists. split; [done|]. rewrite delete_spaces_last by done.
          cbn. unfold isWhitespace. cbn. by rewrite Hb1.
      - cbn in E1, Hb1.
        apply push_tag_fields in E1 as (token & T & P & S & _ & _).
        cbn in T, S. rewrite T, S. split.
        + rewrite length_app. cbn.
          eapply Forall_impl; [exact Hsp|]. cbn. lia.
        + eexists. split; [done|]. rewrite delete_spaces_app by done.
          cbn. rewrite block_token_not_space; [done|].
          by rewrite (pushed_tag_type _ _ _ _ _ P). }
    destruct (IH st1 Hn2 Hb2 Hr Hsp1) as (Hsp' & e2 & T2 & D2).
    split; [done|]. exists (e1 ++ e2).
    rewrite D2, D1, T2, T1, map_app, !app_assoc. done.
Qed.

(** The buffer at the end of a line that starts in [st] and whose items, none
    of them a line feed, lead to [st']: the line ends at the end of the
    template ([stripSpace]) or at a line feed. *)
Lemma line_tokens items st st' :
  at_line_start st ->
  existsb is_newline items = false ->
  run_items items st = Continue st' ->
  let nl start := Tok text [newline] start (start + 1) in
  exists new,
    Forall2 pushed (List.filter pushes items) new
    /\ tokens st' = tokens st ++ map Some new
    /\ (existsb is_tag items = true ->
        forallb blank_or_block items = true ->
        tokens (stripSpace st') = tokens st ++ map blank (map Some new)
        /\ forall start,
            tokens (text_char newline start st')
            = tokens st ++ map blank (map Some (new ++ [nl start])))
    /\ (existsb keeps_space items = true ->
        tokens (stripSpace st') = tokens st ++ map Some new
        /\ forall start,
            tokens (text_char newline start st')
            = tokens st ++ map Some (new ++ [nl start])).
Proof.
  intros (Hh & Hs & Hsp) Hn Hr nl.
  destruct (run_items_line items st st' Hn Hr) as (Hh' & Hs' & new & Ht & Hl).
  rewrite Hh in Hh'. rewrite Hs in Hs'. cbn in Hh', Hs'.
  exists new. split; [done|]. split; [done|]. split.
  - intros Htag Hb.
    assert (existsb keeps_space items = false) as Hk.
    { apply not_true_iff_false. intros Hk.
      apply existsb_exists in Hk as (it & Hin & Hk).
      rewrite forallb_forall in Hb.
      by rewrite (blank_or_block_keeps it (Hb it Hin)) in Hk. }
    rewrite Htag in Hh'. rewrite Hk in Hs'.
    destruct (run_items_blank items st st' Hn Hb Hr) as (Hsp' & extra & T & D).
    { by rewrite Hsp. }
    rewrite Hsp in D. cbn in D.
    assert (extra = map Some new) as ->.
    { rewrite T in Ht. by apply app_inv_head in Ht. }
    split.
    + unfold stripSpace. rewrite Hh', Hs'. cbn. by rewrite D.
    + intros start. rewrite text_char_newline. unfold stripSpace. cbn.
      rewrite Hh', Hs'. cbn -[delete_spaces].
      etrans; [exact (delete_spaces_last _ _ _ Hsp')|].
      by rewrite D, !map_app, app_assoc.
  - intros Hk. rewrite Hk in Hs'. split.
    + unfold stripSpace. by rewrite Hs', andb_false_r.
    + intros start. rewrite text_char_newline. unfold stripSpace. cbn.
      rewrite Hs', andb_false_r. cbn. by rewrite Ht, map_app, app_assoc.
Qed.

(** ** The loop only changes the state item by item *)

Lemma text_loop_items value start st :
  run_items (char_items value start) st
  = Continue (text_loop value start st).1.
Proof.
  revert start st. induction value as [|chr value IH]; intros start st; [done|].
  cbn. apply IH.
Qed.

Lemma push_tag_not_break type value start st st' :
  push_tag type value start st <> Break st'.
Proof.
  unfold push_tag. intros H.
  destruct type; cbn in H;
    repeat match type of H with
      | context [match ?x with _ => _ end] => destruct x; try done
      end;
    discriminate H.
Qed.

(** A turn that does not throw changes the state as its items do. *)
Lemma turn_items_run st :
  match parse_turn st with
  | Continue st' | Break st' => run_items (turn_items st) st = Continue st'
  | Raise _ => True
  end.
Proof.
  unfold parse_turn, turn_items, scan_tag.
  destruct (Scanner.scanUntil _ _) as [v sc0] eqn:E0.
  destruct (text_loop _ _ _) as [stb start'] eqn:Eb.
  pose proof (text_loop_items v (Scanner.pos (scanner st)) (set_scanner sc0 st))
    as Hi. rewrite Eb in Hi. cbn [fst] in Hi.
  destruct (Scanner.scan (openingTagRe stb) _) as [opened sc1].
  destruct opened as [|o opened].
  { rewrite app_nil_r. apply Hi. }
  destruct (Scanner.scan tagRe sc1) as [ty sc2].
  destruct (Scanner.scan whiteRe sc2) as [wh sc3].
  destruct (scan_value _ _ sc3) as [[ty' v'] sc4].
  destruct (Scanner.scan _ sc4) as [closed sc5].
  destruct closed; [done|].
  assert (set_scanner sc5 (set_hasTag true (set_scanner sc1 stb))
          = set_scanner sc5 (set_hasTag true stb)) as -> by reflexivity.
  cbn [scanner set_scanner].
  destruct (push_tag ty' v' start' _) as [st'|st'|] eqn:Ep;
    [|by apply push_tag_not_break in Ep|done].
  change (Scan sc0 :: char_items v (Scanner.pos (scanner st))
            ++ [Tag ty' v' start' sc5])
    with ((Scan sc0 :: char_items v (Scanner.pos (scanner st)))
            ++ [Tag ty' v' start' sc5]).
  rewrite run_items_app. cbn [run_items run_item].
  rewrite Hi. cbn [run_items run_item]. by rewrite Ep.
Qed.

(** The state in which a parse leaves its loop is the state it started in,
    changed by the items of the loop. *)
Lemma loop_items_run fuel st st' :
  parse_loop fuel st = Ok st' ->
  run_items (loop_items fuel st) st = Continue st'.
Proof.
  revert st. induction fuel as [|fuel IH]; intros st; cbn;
    destruct (Scanner.eos _); try done;
    try (by intros [= <-]).
  pose proof (turn_items_run st) as Hi.
  destruct (parse_turn st) as [st1|st1|]; [| |done].
  - intros H. rewrite run_items_app, Hi. by apply IH.
  - by intros [= <-].
Qed.

(** A parse starts at the start of a line, and every line feed of the text
    leaves the state at the start of a line. *)
Lemma initial_at_line_start res template :
  at_line_start (initial_state res template).
Proof. done. Qed.

Lemma newline_at_line_start start st :
  at_line_start (text_char newline start st).
Proof. unfold text_char, stripSpace. cbn. by destruct (_ && _). Qed.

(** Holes of the buffer are not seen by [squashTokens]. *)
Lemma squash_loop_holes holes rest squashed :
  Forall (fun slot => slot = None) holes ->
  squash_loop (holes ++ rest) squashed = squash_loop rest squashed.
Proof.
  induction 1 as [|slot holes -> _ IH]; [done|]. apply IH.
Qed.

(** ** The items of a parse lie on its template *)

Lemma search_le re s i : search re s = Some i -> i <= length s.
Proof.
  revert i. induction s as [|c s IH]; intros i; cbn.
  - destruct (match_here re []); [|done]. intros [= <-]. lia.
  - destruct (match_here re (c :: s)); [intros [= <-]; lia|].
    destruct (search re s) as [j|]; [|done]. cbn. intros [= <-].
    specialize (IH j eq_refl). lia.
Qed.

Lemma scanUntil_value re sc v sc' :
  Scanner.scanUntil re sc = (v, sc') ->
  Scanner.pos sc' = Scanner.pos sc + length v
  /\ forall k c, v !! k = Some c ->
       Scanner.source sc !! (Scanner.pos sc + k) = Some c.
Proof.
  unfold Scanner.scanUntil, Scanner.tail.
  destruct (search re _) as [i|] eqn:E; intros [= <- <-]; cbn.
  - apply search_le in E. split.
    + rewrite length_take. lia.
    + intros k c H. apply lookup_take_Some in H as [H _].
      by rewrite lookup_drop in H.
  - split; [done|]. intros k c H. by rewrite lookup_drop in H.
Qed.

Lemma text_loop_start value start st :
  (text_loop value start st).2 = start + length value.
Proof.
  revert start st. induction value as [|chr value IH]; intros start st; cbn.
  - lia.
  - rewrite IH. lia.
Qed.

Lemma char_items_tiles template value p rest q :
  (forall k c, value !! k = Some c -> template !! (p + k) = Some c) ->
  tiles template (p + length value) rest q ->
  tiles template p (char_items value p ++ rest) q.
Proof.
  revert p. induction value as [|chr value IH]; intros p Hv Ht; cbn.
  - by rewrite Nat.add_0_r in Ht.
  - constructor.
    + specialize (Hv 0 chr eq_refl). by rewrite Nat.add_0_r in Hv.
    + rewrite Nat.add_1_r. apply IH.
      * intros k c Hk. specialize (Hv (S k) c Hk).
        by replace (S p + k) with (p + S k) by lia.
      * cbn in Ht. by replace (S p + length value) with (p + S (length value))
          by lia.
Qed.

Lemma turn_items_tiles template st rest q :
  Scanner.source (scanner st) = template ->
  match parse_turn st with
  | Continue st' | Break st' =>
      tiles template (Scanner.pos (scanner st')) rest q ->
      tiles template (Scanner.pos (scanner st)) (turn_items st ++ rest) q
  | Raise _ => True
  end.
Proof.
  intros Hsrc. unfold parse_turn, turn_items, scan_tag.
  destruct (Scanner.scanUntil _ _) as [v sc0] eqn:E0.
  pose proof (scanUntil_moved _ _ _ _ E0) as [S0 _].
  apply scanUntil_value in E0 as [P0 V0]. rewrite Hsrc in V0.
  destruct (text_loop _ _ _) as [stb start'] eqn:Eb.
  pose proof (text_loop_scanner v (Scanner.pos (scanner st)) (set_scanner sc0 st))
    as Hb. rewrite Eb in Hb. cbn in Hb.
  pose proof (text_loop_start v (Scanner.pos (scanner st)) (set_scanner sc0 st))
    as Hst. rewrite Eb in Hst. cbn in Hst.
  destruct (Scanner.scan (openingTagRe stb) _) as [opened sc1] eqn:E1.
  apply scan_moved in E1 as [[S1 P1] L1]. rewrite Hb in S1, P1, L1.
  destruct opened as [|o opened].
  { rewrite Hb, P0, app_nil_r. intros Ht. cbn. constructor.
    by apply char_items_tiles. }
  destruct (Scanner.scan tagRe sc1) as [ty sc2] eqn:E2.
  apply scan_moved in E2 as [[S2 P2] _].
  destruct (Scanner.scan whiteRe sc2) as [wh sc3] eqn:E3.
  apply scan_moved in E3 as [[S3 P3] _].
  destruct (scan_value _ _ sc3) as [[ty' v'] sc4] eqn:E4.
  apply scan_value_moved in E4 as [S4 P4].
  destruct (Scanner.scan _ sc4) as [closed sc5] eqn:E5.
  apply scan_moved in E5 as [[S5 P5] _].
  destruct closed; [done|].
  destruct (push_tag ty' v' start' _) as [st'|st'|] eqn:Ep;
    [|by apply push_tag_not_break in Ep|done].
  apply push_tag_scanner in Ep. rewrite Ep. cbn [scanner set_scanner].
  intros Ht. cbn. constructor. rewrite <- app_assoc.
  apply char_items_tiles; [done|]. cbn. subst start'.
  constructor; [congruence | | done].
  specialize (L1 ltac:(done)). lia.
Qed.

Lemma loop_items_tiles fuel st st' :
  parse_loop fuel st = Ok st' ->
  tiles (Scanner.source (scanner st)) (Scanner.pos (scanner st))
    (loop_items fuel st) (Scanner.pos (scanner st')).
Proof.
  revert st. induction fuel as [|fuel IH]; intros st; cbn;
    destruct (Scanner.eos _); try done;
    try (intros [= <-]; constructor).
  pose proof (turn_items_tiles _ st (loop_items fuel
                match parse_turn st with Continue s => s | _ => st end)
                (Scanner.pos (scanner st')) eq_refl) as Hi.
  pose proof (turn_items_tiles _ st [] (Scanner.pos (scanner st')) eq_refl)
    as Hb.
  destruct (parse_turn st) as [st1|st1|] eqn:Et; [| |done].
  - intros H. apply Hi. apply parse_turn_progress in Et as [Hs _].
    rewrite <- Hs. by apply IH.
  - intros [= <-]. rewrite app_nil_r in Hb. apply Hb. constructor.
Qed.

(** ** The buffer only grows, and a line leaves the lines before it alone *)

Lemma delete_spaces_length sp toks :
  length (delete_spaces sp toks) = length toks.
Proof.
  revert toks. induction sp as [|i sp IH]; intros toks; [done|].
  cbn. by rewrite IH, length_insert.
Qed.

Lemma stripSpace_length st :
  length (tokens (stripSpace st)) = length (tokens st).
Proof.
  unfold stripSpace. destruct (_ && _); cbn; [|done].
  apply delete_spaces_length.
Qed.

Lemma text_char_length chr start st :
  length (tokens (text_char chr start st)) = S (length (tokens st)).
Proof.
  unfold text_char.
  destruct (isWhitespace _), (Ascii.eqb _ _); cbn -[stripSpace];
    rewrite ?stripSpace_length; cbn; rewrite length_app; cbn; lia.
Qed.

Lemma run_items_length items st st' :
  run_items items st = Continue st' ->
  length (tokens st')
  = length (tokens st) + length (List.filter pushes items).
Proof.
  revert st. induction items as [|it items IH]; intros st Hr.
  - injection Hr as <-. cbn. lia.
  - cbn in Hr. destruct (run_item it st) as [st1| |] eqn:E1; [|done..].
    rewrite (IH st1 Hr). destruct it as [sc|chr start|type value start sc].
    + injection E1 as <-. cbn. lia.
    + injection E1 as <-. rewrite text_char_length. cbn. lia.
    + cbn in E1. apply push_tag_fields in E1 as (token & T & _).
      rewrite T, length_app. cbn. lia.
Qed.

Lemma take_delete_spaces b sp toks :
  Forall (fun i => b <= i) sp ->
  take b (delete_spaces sp toks) = take b toks.
Proof.
  revert toks. induction sp as [|i sp IH]; intros toks Hb; [done|].
  apply Forall_cons in Hb as [Hi Hb]. cbn.
  by rewrite IH, take_insert_ge.
Qed.

Lemma stripSpace_stable b st :
  Forall (fun i => b <= i) (spaces st) ->
  take b (tokens (stripSpace st)) = take b (tokens st)
  /\ spaces (stripSpace st) = [].
Proof.
  intros Hb. unfold stripSpace. destruct (_ && _); cbn; [|done].
  split; [by apply take_delete_spaces | done].
Qed.

Lemma text_char_stable b chr start st :
  b <= length (tokens st) ->
  Forall (fun i => b <= i) (spaces st) ->
  take b (tokens (text_char chr start st)) = take b (tokens st)
  /\ Forall (fun i => b <= i) (spaces (text_char chr start st)).
Proof.
  intros Hl Hb. unfold text_char.
  destruct (isWhitespace _), (Ascii.eqb _ _); cbn -[stripSpace].
  - edestruct (stripSpace_stable b) as [-> ->]; last first.
    + split; [|constructor]. cbn. by rewrite take_app_le.
    + cbn. by constructor.
  - split; [by rewrite take_app_le | by constructor].
  - edestruct (stripSpace_stable b) as [-> ->]; last first.
    + split; [|constructor]. cbn. by rewrite take_app_le.
    + done.
  - split; [by rewrite take_app_le | done].
Qed.

Lemma run_items_stable b items st st' :
  run_items items st = Continue st' ->
  b <= length (tokens st) ->
  Forall (fun i => b <= i) (spaces st) ->
  take b (tokens st') = take b (tokens st)
  /\ Forall (fun i => b <= i) (spaces st').
Proof.
  revert st. induction items as [|it items IH]; intros st Hr Hl Hb.
  - by injection Hr as <-.
  - cbn in Hr. destruct (run_item it st) as [st1| |] eqn:E1; [|done..].
    assert (take b (tokens st1) = take b (tokens st)
            /\ Forall (fun i => b <= i) (spaces st1)
            /\ b <= length (tokens st1)) as (T1 & B1 & L1).
    { destruct it as [sc|chr start|type value start sc].
      - by injection E1 as <-.
      - injection E1 as <-. rewrite text_char_length.
        destruct (text_char_stable b chr start st Hl Hb). split; [done|].
        split; [done | lia].
      - cbn in E1. apply push_tag_fields in E1 as (token & T & _ & S & _).
        cbn in T, S. rewrite T, S, length_app. cbn.
        split; [by rewrite take_app_le|]. split; [done | lia]. }
    destruct (IH st1 Hr L1 B1) as [-> ?]. by rewrite T1.
Qed.

Lemma segment_of_prefix {A} (buffer old segment : list A) :
  take (length old + length segment) buffer = old ++ segment ->
  take (length segment) (drop (length old) buffer) = segment.
Proof. intros H. by rewrite take_drop_commute, H, drop_app_length. Qed.

Lemma line_start_state pre st st1 :
  line_start pre -> at_line_start st ->
  run_items pre st = Continue st1 -> at_line_start st1.
Proof.
  intros [->|(pre' & start & ->)] Hst Hr.
  - by injection Hr as <-.
  - rewrite run_items_app in Hr.
    destruct (run_items pre' st) as [st0| |]; [|done..].
    injection Hr as <-. apply newline_at_line_start.
Qed.

Lemma pushed_blank it t :
  pushed it t -> blank_or_block it = true -> blank (Some t) = hole_if_text t.
Proof.
  intros [chr start|type value start sc Hne|value start sc ind idx lhns] Hb;
    cbn in Hb |- *.
  - unfold isWhitespace. cbn. by rewrite Hb.
  - by destruct type.
  - done.
Qed.

Lemma blank_line_tokens items ltoks :
  Forall2 pushed items ltoks ->
  forallb blank_or_block items = true ->
  map blank (map Some ltoks) = map hole_if_text ltoks.
Proof.
  induction 1 as [|it t items ltoks Hp _ IH]; [done|]. cbn [map forallb].
  intros [Hb Hbs]%andb_true_iff. by rewrite IH, (pushed_blank it t).
Qed.

Lemma forallb_filter_pushes items :
  forallb blank_or_block items = true ->
  forallb blank_or_block (List.filter pushes items) = true.
Proof.
  induction items as [|it items IH]; [done|]. cbn.
  intros [Hb Hbs]%andb_true_iff. destruct (pushes it); cbn; [|by apply IH].
  by rewrite Hb, IH.
Qed.

(** On every line of the items of a parse that has a tag, only block tags,
    and only whitespace outside its tags, the whitespace text tokens of the
    line are holes of the token buffer that the loop leaves; on every line
    that has, outside its tags, a character that is not whitespace, or that
    has a variable tag, every token of the line is in the buffer. *)
Lemma line_segments template res st_end :
  parse_loop (S (length template)) (initial_state res template) = Ok st_end ->
  let items := loop_items (S (length template)) (initial_state res template) in
  let buffer := tokens (stripSpace st_end) in
  forall pre line post,
    items = pre ++ line ++ post ->
    line_start pre -> line_end post ->
    existsb is_newline line = false ->
    exists ltoks,
      Forall2 pushed (List.filter pushes (line ++ take 1 post)) ltoks
      /\ let segment :=
           take (length ltoks)
             (drop (length (List.filter pushes pre)) buffer) in
         (existsb is_tag line = true ->
          forallb blank_or_block line = true ->
          segment = map hole_if_text ltoks)
         /\ (existsb keeps_space line = true ->
             segment = map Some ltoks).
Proof.
  intros Hl items buffer.
  intros pre line post Hitems Hstart Hend Hn.
  pose proof (loop_items_run _ _ _ Hl) as Hrun. fold items in Hrun.
  rewrite Hitems, run_items_app in Hrun.
  destruct (run_items pre _) as [st1| |] eqn:E1; [|done..].
  rewrite run_items_app in Hrun.
  destruct (run_items line st1) as [st2| |] eqn:E2; [|done..].
  pose proof (line_start_state _ _ _ Hstart
                (initial_at_line_start res template) E1) as Hst1.
  pose proof (run_items_length _ _ _ E1) as Hbase. cbn in Hbase.
  rewrite <- Hbase.
  destruct (line_tokens line st1 st2 Hst1 Hn E2) as (new & HF & Ht & HA & HB).
  destruct Hend as [->|(start & post' & ->)].
  - injection Hrun as <-. rewrite app_nil_r. exists new. split; [done|].
    split.
    + intros Htag Hb. destruct (HA Htag Hb) as [HA1 _].
      rewrite <- (blank_line_tokens _ _ HF (forallb_filter_pushes _ Hb)).
      rewrite <- (length_map Some new) at 1.
      rewrite <- (length_map blank (map Some new)).
      apply segment_of_prefix. subst buffer. rewrite HA1. apply take_ge.
      by rewrite length_app.
    + intros Hk. destruct (HB Hk) as [HB1 _].
      rewrite <- (length_map Some new) at 1.
      apply segment_of_prefix. subst buffer. rewrite HB1. apply take_ge.
      by rewrite length_app.
  - cbn in Hrun. cbn [take].
    assert (Forall2 pushed
              (List.filter pushes (line ++ [Char newline start]))
              (new ++ [Tok text [newline] start (start + 1)])) as HF'.
    { rewrite List.filter_app. apply Forall2_app; [done|].
      cbn. repeat constructor. }
    exists (new ++ [Tok text [newline] start (start + 1)]).
    split; [done|].
    set (st3 := text_char newline start st2) in *.
    destruct (run_items_stable (length (tokens st3)) post' st3 st_end Hrun)
      as [Hs1 Hs2]; [done | | ].
    { destruct (newline_at_line_start start st2) as (_ & _ & Hsp3).
      fold st3 in Hsp3. by rewrite Hsp3. }
    destruct (stripSpace_stable _ _ Hs2) as [Hs3 _]. fold buffer in Hs3.
    rewrite Hs1, (take_ge (tokens st3)) in Hs3 by lia.
    split.
    + intros Htag Hb. destruct (HA Htag Hb) as [_ HA2].
      specialize (HA2 start). fold st3 in HA2.
      rewrite HA2 in Hs3 at 2. rewrite HA2, length_app in Hs3.
      assert (forallb blank_or_block
                (List.filter pushes (line ++ [Char newline start])) = true)
        as Hb'.
      { apply forallb_filter_pushes. rewrite forallb_app, Hb. done. }
      rewrite <- (blank_line_tokens _ _ HF' Hb').
      set (ltoks := new ++ [Tok text [newline] start (start + 1)]) in *.
      rewrite <- (length_map Some ltoks) at 1.
      rewrite <- (length_map blank (map Some ltoks)).
      by apply segment_of_prefix.
    + intros Hk. destruct (HB Hk) as [_ HB2].
      specialize (HB2 start). fold st3 in HB2.
      rewrite HB2 in Hs3 at 2. rewrite HB2, length_app in Hs3.
      set (ltoks := new ++ [Tok text [newline] start (start + 1)]) in *.
      rewrite <- (length_map Some ltoks) at 1.
      by apply segment_of_prefix.
Qed.

(** * Examples *)

Example parse_example :
  parseTemplate (js "Hi {{name}}!
  {{#a}}
x{{{b}}}
  {{/a}}
{{=<% %>=}}<%> p%>") TagsUndefined
  = Ok [Tok text (js "Hi ") 0 3; Tok name (js "name") 3 11;
        Tok text ("!"%char :: [newline]) 11 13;
        TokSection hash (js "a") 15 21
          [Tok text (js "x") 22 23; Tok amp (js "b") 23 30;
           Tok text [newline] 30 31] (Some 33);
        Tok equals (js "<% %>") 40 51;
        TokPartial gt (js "p") 51 58 [] 1 false].
Proof. by vm_compute. Qed.

(** [String] of numbers: integers, the first integer that is printed with
    an exponent, and numbers with a fraction. *)
Example number_to_string_examples :
  map number_to_string
    [Int 0; Int 42; Int (-7); Int (10 ^ 20); Int (10 ^ 21);
     Decimal false 5 (-1); Decimal true 15 (-1); Decimal false 1 (-6);
     Decimal false 1 (-7); Decimal false 17976931348623157 292; NaN;
     Infinity true]
  = map js
      ["0"; "42"; "-7"; "100000000000000000000"; "1e+21"; "0.5"; "-1.5";
       "0.000001"; "1e-7"; "1.7976931348623157e+308"; "NaN"; "-Infinity"].
Proof. by vm_compute. Qed.

(** The tokens of an empty template render to the empty string. *)
Example render_empty :
  (Writer_render no_functions 1 [] (ViewValue (obj [])) PartialsUndefined
     ConfigUndefined new_Writer).1 = Ok [].
Proof. by vm_compute. Qed.

Example render_escaped :
  (Writer_render no_functions 1 (js "{{v}}|{{{v}}}|{{&v}}")
     (ViewValue (obj [("v", VString (js "<a>"))])) PartialsUndefined
     ConfigUndefined new_Writer).1 = Ok (js "&lt;a&gt;|<a>|<a>").
Proof. by vm_compute. Qed.

Example render_dotted_path :
  (Writer_render no_functions 1 (js "{{a.b}}|{{a.c}}|")
     (ViewValue (obj [("a", obj [("b", VNumber (Int 5))])])) PartialsUndefined
     ConfigUndefined new_Writer).1 = Ok (js "5||").
Proof. by vm_compute. Qed.

Example render_delimiter_switch :
  (Writer_render no_functions 1 (js "{{name}} {{=<% %>=}}<%name%>")
     (ViewValue (obj [("name", VString (js "x"))])) PartialsUndefined
     ConfigUndefined new_Writer).1 = Ok (js "x x").
Proof. by vm_compute. Qed.

Example render_indented_partial :
  (Writer_render no_functions 2 (js "  {{>p}}")
     (ViewValue (obj []))
     (PartialsObject {[ js "p" := "a"%char :: newline :: js "b" ]})
     ConfigUndefined new_Writer).1
  = Ok (js "  a" ++ newline :: js "  b").
Proof. by vm_compute. Qed.

Example render_sections :
  (Writer_render no_functions 3
     (js "{{#items}}<{{.}}>{{/items}}{{^items}}none{{/items}}{{^none}}!{{/none}}")
     (ViewValue (obj [("items", VArray [VNumber (Int 1); VString (js "b")])]))
     PartialsUndefined ConfigUndefined new_Writer).1
  = Ok (js "<1><b>!").
Proof. by vm_compute. Qed.

(** A function of the view that returns the text it is given shows the raw
    text of its section. *)
Example render_lambda :
  (Writer_render echo 2 (js "{{#f}} <b>{{x}}</b> {{/f}}")
     (ViewValue (obj [("f", VFunction 0 (js "function () {}"))]))
     PartialsUndefined ConfigUndefined new_Writer).1
  = Ok (js " <b>{{x}}</b> ").
Proof. by vm_compute. Qed.

(** * The properties at concrete inputs *)


Lemma escaped_number_witness :
  let token := Tok name (js "n") 0 5 in
  let context := root (obj [("n", VNumber (Int 42))]) in
  escapedValue token context ConfigUndefined = VString (js "42")
  /\ escapedValue token context
       (ConfigObject TagsUndefined (Some (CustomEscape bracket)))
     = VString (js "[42]").
Proof.
  intros token context.
  destruct (escaped_number token context ConfigUndefined (Int 42) eq_refl)
    as [H1 _].
  destruct (escaped_number token context
              (ConfigObject TagsUndefined (Some (CustomEscape bracket)))
              (Int 42) eq_refl) as [_ H2].
  split.
  - rewrite H1; [reflexivity | by left].
  - rewrite (H2 bracket eq_refl). reflexivity.
Defined.

Lemma empty_array_section_and_inverted_witness :
  let context := root (obj [("items", VArray [])]) in
  let children := [Tok text (js "none") 9 13] in
  let run type :=
    (renderTokens_loop no_functions (renderTokens no_functions 1)
       [TokSection type (js "items") 0 9 children (Some 13);
        Tok text (js "!") 22 23]
       context PartialsUndefined None ConfigUndefined [] new_Writer).1 in
  run hash = Ok (js "!") /\ run caret = Ok (js "none!").
Proof.
  intros context children run. unfold run. split.
  - destruct (empty_array_section_and_inverted no_functions
                (renderTokens no_functions 1)
                (TokSection hash (js "items") 0 9 children (Some 13))
                children [Tok text (js "!") 22 23] context PartialsUndefined
                None ConfigUndefined [] new_Writer eq_refl eq_refl)
      as (H & _ & _).
    rewrite (H eq_refl). reflexivity.
  - destruct (empty_array_section_and_inverted no_functions
                (renderTokens no_functions 1)
                (TokSection caret (js "items") 0 9 children (Some 13))
                children [Tok text (js "!") 22 23] context PartialsUndefined
                None ConfigUndefined [] new_Writer eq_refl eq_refl)
      as (_ & _ & H).
    rewrite (H eq_refl). reflexivity.
Defined.

Lemma other_truthy_section_keeps_context_witness :
  (renderSection no_functions (renderTokens no_functions 1)
     (TokSection hash (js "on") 0 7 [Tok name (js "name") 7 15] (Some 15))
     (root (obj [("on", VBool true); ("name", VString (js "outer"))]))
     PartialsUndefined None ConfigUndefined new_Writer).1
  = Ok (VString (js "outer")).
Proof.
  rewrite (other_truthy_section_keeps_context no_functions
             (renderTokens no_functions 1) _ [Tok name (js "name") 7 15]);
    done.
Defined.

Lemma falsy_values_still_render_witness :
  let context := root (obj [("no", VBool false)]) in
  let run type :=
    (renderTokens_loop no_functions (renderTokens no_functions 1)
       [Tok type (js "no") 0 6; Tok text (js "!") 6 7]
       context PartialsUndefined None ConfigUndefined [] new_Writer).1 in
  run amp = Ok (js "false!") /\ run name = Ok (js "false!").
Proof.
  intros context run. unfold run. split.
  - destruct (falsy_values_still_render no_functions
                (renderTokens no_functions 1) (Tok amp (js "no") 0 6)
                [Tok text (js "!") 6 7] context PartialsUndefined None
                ConfigUndefined [] new_Writer) as (_ & _ & H).
    destruct H as (_ & _ & H & _ & _).
    { cbn. apply elem_of_cons. by left. }
    rewrite (H eq_refl). reflexivity.
  - destruct (falsy_values_still_render no_functions
                (renderTokens no_functions 1) (Tok name (js "no") 0 6)
                [Tok text (js "!") 6 7] context PartialsUndefined None
                ConfigUndefined [] new_Writer) as (_ & _ & H).
    destruct H as (_ & _ & _ & H & _).
    { cbn. apply elem_of_cons. by left. }
    rewrite (H eq_refl). reflexivity.
Defined.

Lemma partial_indentation_witness :
  let p := PartialsObject {[ js "p" := "a"%char :: newline :: js "b" ]} in
  (renderPartial (renderTokens no_functions 1)
     (TokPartial gt (js "p") 2 8 (js "  ") 0 false) (root (obj [])) p
     ConfigUndefined new_Writer).1
  = Ok (VString (js "  a" ++ newline :: js "  b")).
Proof.
  intros p.
  destruct (partial_indentation (renderTokens no_functions 1) gt (js "p") 2 8
              (js "  ") 0 false (root (obj [])) p ConfigUndefined
              ("a"%char :: newline :: js "b") new_Writer)
    as (text' & Hr & Hi & _).
  { by vm_compute. }
  rewrite Hr. specialize (Hi ltac:(done)).
  rewrite <- (join_split_on newline text'), Hi. by vm_compute.
Defined.


(** * Further properties of the parser and of the writer *)

(** ** escapeHtml *)

Lemma char_in_spec c l : char_in c l = true <-> c ∈ l.
Proof.
  unfold char_in. rewrite existsb_exists. split.
  - intros (x & Hin & ->%Ascii.eqb_eq). by apply list_elem_of_In.
  - intros H. exists c.
    split; [by apply list_elem_of_In | apply Ascii.eqb_refl].
Qed.

Lemma char_in_false c l : char_in c l = false <-> c ∉ l.
Proof.
  rewrite <- char_in_spec. by destruct (char_in c l).
Qed.

Lemma entityMap_not_special c : c ∉ html_special -> entityMap c = [c].
Proof.
  intros H%char_in_false. unfold entityMap. unfold char_in in H. cbn in H.
  split_char c; try done.
Qed.

Lemma entityMap_safe c :
  forallb (fun x => negb (char_in x html_unsafe)) (entityMap c) = true.
Proof.
  unfold entityMap. split_char c; try reflexivity.
  unfold char_in. cbn. by neq_chars c.
Qed.

Lemma escapeHtml_chars v : Forall (fun x => x ∉ html_unsafe) (escapeHtml v).
Proof.
  unfold escapeHtml. induction (to_string v) as [|c s IH]; [constructor|].
  cbn. apply Forall_app. split; [|exact IH].
  apply Forall_forall. intros x Hx%list_elem_of_In.
  pose proof (entityMap_safe c) as Hs. rewrite forallb_forall in Hs.
  apply char_in_false. specialize (Hs x Hx). by destruct (char_in x _).
Qed.

(** X1: whatever the value, the text that [escapeHtml] returns holds none of
    the characters [<], [>], the double quote, the single quote, [/], the
    backquote and [=]. *)
Theorem escapeHtml_no_unsafe v :
  Forall (fun x => x ∉ html_unsafe) (escapeHtml v).
Proof. apply escapeHtml_chars. Qed.

Lemma entityMap_prefix a b x y :
  entityMap a ++ x = entityMap b ++ y -> a = b /\ x = y.
Proof.
  unfold entityMap. split_char a; split_char b; cbn; intros H;
    by simplify_eq.
Qed.

(** X2: [escapeHtml] loses nothing: two strings with the same escaped text
    are the same string. *)
Theorem escapeHtml_injective s1 s2 :
  escapeHtml (VString s1) = escapeHtml (VString s2) -> s1 = s2.
Proof.
  unfold escapeHtml. cbn [to_string]. revert s2.
  induction s1 as [|a s1 IH]; intros [|b s2] H; cbn in H.
  - done.
  - exfalso. revert H. unfold entityMap. by split_char b.
  - exfalso. revert H. unfold entityMap. by split_char a.
  - apply entityMap_prefix in H as [-> H]. f_equal. by apply IH.
Qed.

Lemma entityMap_length c :
  1 <= length (entityMap c)
  /\ (length (entityMap c) = 1 -> c ∉ html_special).
Proof.
  unfold entityMap. split_char c; cbn; (split; [lia|]); try lia.
  intros _. apply char_in_false. unfold char_in. cbn. by neq_chars c.
Qed.

Lemma escape_length s : length s <= length (flat_map entityMap s).
Proof.
  induction s as [|c s IH]; [done|]. cbn. rewrite length_app.
  destruct (entityMap_length c). lia.
Qed.

(** X3: [escapeHtml] returns a string as it is exactly when the string
    holds none of the characters [&], [<], [>], the double quote, the single
    quote, [/], the backquote and [=]. *)
Theorem escapeHtml_identity s :
  escapeHtml (VString s) = s <-> Forall (fun x => x ∉ html_special) s.
Proof.
  unfold escapeHtml. cbn [to_string]. split.
  - induction s as [|c s IH]; [constructor|]. cbn. intros H.
    pose proof (f_equal length H) as Hl. rewrite length_app in Hl. cbn in Hl.
    destruct (entityMap_length c) as [H1 H2].
    pose proof (escape_length s).
    assert (length (entityMap c) = 1) as Hc by lia.
    specialize (H2 Hc). rewrite entityMap_not_special in H by done.
    injection H as H. constructor; [done | by apply IH].
  - induction 1 as [|c s Hc _ IH]; [done|]. cbn.
    by rewrite entityMap_not_special, IH.
Qed.


(** ** squashTokens *)

Lemma content_app l1 l2 : content (l1 ++ l2) = content l1 ++ content l2.
Proof. apply flat_map_app. Qed.

Lemma squash_loop_content toks acc :
  content (squash_loop toks acc) = content (rev acc) ++ content (live toks).
Proof.
  revert acc. induction toks as [|[t|] toks IH]; intros acc; cbn.
  - by rewrite app_nil_r.
  - assert (content (squash_loop toks (t :: acc))
            = content (rev acc) ++ content (t :: live toks)) as Hpush.
    { rewrite IH. cbn [rev]. rewrite content_app, <- app_assoc.
      f_equal. cbn. by rewrite app_nil_r. }
    destruct (tok_type t) eqn:Et; try exact Hpush.
    destruct acc as [|lastToken before]; [exact Hpush|].
    destruct (tok_type lastToken) eqn:El; try exact Hpush.
    rewrite IH. cbn [rev]. rewrite !content_app, <- !app_assoc. f_equal.
    unfold content. cbn. unfold is_text. cbn. rewrite Et, El.
    by rewrite !app_nil_r, map_app, <- app_assoc.
  - apply IH.
Qed.

(** X4: [squashTokens] loses nothing and moves nothing: the characters of
    the text tokens and the other tokens of the result are those of the
    tokens of the buffer, in the same order. *)
Theorem squashTokens_content toks :
  content (squashTokens toks) = content (live toks).
Proof. apply squash_loop_content. Qed.

Lemma no_adjacent_text_app l1 l2 :
  no_adjacent_text (l1 ++ l2)
  = no_adjacent_text l1 && no_adjacent_text l2
    && negb (text_slot (last l1) && text_slot (head l2)).
Proof.
  induction l1 as [|a [|b l1] IH].
  - cbn. by rewrite andb_true_r.
  - cbn. destruct l2 as [|b l2]; cbn.
    + by rewrite andb_false_r.
    + rewrite andb_comm. done.
  - change (no_adjacent_text ((a :: b :: l1) ++ l2))
      with (negb (is_text a && is_text b)
            && no_adjacent_text ((b :: l1) ++ l2)).
    rewrite IH.
    change (no_adjacent_text (a :: b :: l1))
      with (negb (is_text a && is_text b) && no_adjacent_text (b :: l1)).
    change (last (a :: b :: l1)) with (last (b :: l1)).
    by rewrite !andb_assoc.
Qed.

Lemma last_rev {A} (l : list A) : last (rev l) = head l.
Proof. destruct l as [|a l]; [done|]. cbn. apply last_snoc. Qed.

Lemma no_adjacent_text_rev l : no_adjacent_text (rev l) = no_adjacent_text l.
Proof.
  induction l as [|a l IH]; [done|]. cbn [rev].
  rewrite no_adjacent_text_app, IH, last_rev.
  destruct l as [|b l]; [done|]. cbn.
  rewrite andb_true_r, (andb_comm (is_text b)). apply andb_comm.
Qed.

Lemma squash_loop_no_adjacent toks acc :
  no_adjacent_text acc = true ->
  no_adjacent_text (squash_loop toks acc) = true.
Proof.
  revert acc. induction toks as [|[t|] toks IH]; intros acc Hacc; cbn.
  - by rewrite no_adjacent_text_rev.
  - destruct (tok_type t) eqn:Et;
      try (apply IH; destruct acc as [|b acc]; [done|];
           cbn; unfold is_text at 1; by rewrite Et).
    destruct acc as [|lastToken before]; [by apply IH|].
    destruct (tok_type lastToken) eqn:El;
      try (apply IH; cbn; unfold is_text at 2; rewrite El;
           by rewrite andb_false_r).
    apply IH. destruct before as [|b before]; [done|].
    cbn in Hacc |- *. unfold is_text at 1 in Hacc. rewrite El in Hacc.
    exact Hacc.
  - by apply IH.
Qed.

(** X5: no two neighbours of the list that [squashTokens] returns are both
    text tokens. *)
Theorem squashTokens_no_adjacent_text toks :
  no_adjacent_text (squashTokens toks) = true.
Proof. by apply squash_loop_no_adjacent. Qed.

Lemma squash_loop_clean l acc :
  no_adjacent_text l = true ->
  text_slot (head acc) && text_slot (head l) = false ->
  squash_loop (map Some l) acc = rev acc ++ l.
Proof.
  revert acc. induction l as [|a l IH]; intros acc Hl Hb; cbn.
  - by rewrite app_nil_r.
  - assert (squash_loop (map Some l) (a :: acc) = rev acc ++ a :: l) as Hpush.
    { rewrite IH.
      - cbn [rev]. by rewrite <- app_assoc.
      - destruct l as [|b l]; [done|]. cbn in Hl.
        by apply andb_true_iff in Hl as [_ Hl].
      - destruct l as [|b l]; [by rewrite andb_false_r|]. cbn in Hl |- *.
        apply andb_true_iff in Hl as [Hl _]. by apply negb_true_iff in Hl. }
    destruct (tok_type a) eqn:Et; try exact Hpush.
    destruct acc as [|lastToken before]; [exact Hpush|].
    destruct (tok_type lastToken) eqn:El; try exact Hpush.
    cbn in Hb. unfold is_text in Hb. by rewrite Et, El in Hb.
Qed.

(** X6: [squashTokens] returns a list as it is when the list has no hole and
    no two neighbours of it are both text tokens. *)
Theorem squashTokens_clean l :
  no_adjacent_text l = true -> squashTokens (map Some l) = l.
Proof. intros H. by apply (squash_loop_clean l []). Qed.


(** ** nestTokens *)

Lemma flat_tokens_app l1 l2 :
  flat_tokens (l1 ++ l2) = flat_tokens l1 ++ flat_tokens l2.
Proof. apply flat_map_app. Qed.

Lemma flat_open_app inner extra secs :
  flat_open (inner ++ extra) secs = flat_open inner secs ++ extra.
Proof.
  revert inner. induction secs as [|[sec outer] secs IH]; intros inner; [done|].
  cbn. rewrite <- IH. f_equal. by rewrite <- app_assoc.
Qed.

Lemma flat_close_section sec children closeStart :
  flat_token (close_section sec children closeStart)
  = plain sec :: flat_tokens children.
Proof. done. Qed.

Lemma flat_fold_close secs coll :
  flat_tokens
    (fold_left
       (fun inner '(section, outer) =>
          outer ++ [close_section section inner None])
       secs coll)
  = flat_open (flat_tokens coll) secs.
Proof.
  revert coll. induction secs as [|[sec outer] secs IH]; intros coll; [done|].
  cbn [fold_left flat_open]. rewrite IH, flat_tokens_app. cbn.
  by rewrite app_nil_r.
Qed.

Lemma pushed_shape_flat t : pushed_shape t = true -> flat_token t = [t].
Proof. by destruct t. Qed.

Lemma pushed_shape_plain t :
  pushed_shape t = true -> opens (tok_type t) = true -> plain t = t.
Proof. by destruct t as [[]| |[]]. Qed.

Lemma nest_loop_flat toks coll secs tree :
  forallb pushed_shape toks = true ->
  nest_loop toks coll secs = Ok tree ->
  flat_tokens tree
  = flat_open (flat_tokens coll) secs
    ++ List.filter (fun t => negb (is_closing t)) toks.
Proof.
  revert coll secs. induction toks as [|t toks IH]; intros coll secs Hs H.
  - cbn in H. injection H as <-. by rewrite flat_fold_close, app_nil_r.
  - cbn in Hs. apply andb_true_iff in Hs as [Ht Hs].
    assert (opens (tok_type t) = true ->
            nest_loop toks [] ((t, coll) :: secs) = Ok tree ->
            flat_tokens tree
            = flat_open (flat_tokens coll) secs
              ++ t :: List.filter (fun t => negb (is_closing t)) toks)
      as Hopen.
    { intros Ho H'. rewrite (IH _ _ Hs H').
      cbn [flat_open flat_tokens flat_map].
      rewrite (pushed_shape_plain t Ht Ho).
      change (flat_map flat_token coll ++ [t])
        with (flat_tokens coll ++ [t]).
      by rewrite flat_open_app, <- app_assoc. }
    assert (opens (tok_type t) = false -> is_closing t = false ->
            nest_loop toks (coll ++ [t]) secs = Ok tree ->
            flat_tokens tree
            = flat_open (flat_tokens coll) secs
              ++ t :: List.filter (fun t => negb (is_closing t)) toks)
      as Hother.
    { intros _ _ H'. rewrite (IH _ _ Hs H'), flat_tokens_app. cbn.
      rewrite (pushed_shape_flat t Ht). cbn.
      by rewrite flat_open_app, <- app_assoc. }
    cbn in H |- *. unfold is_closing, opens in *.
    destruct (tok_type t); cbn; try (by apply Hother); try (by apply Hopen).
    destruct secs as [|[sec outer] secs]; [done|].
    rewrite (IH _ _ Hs H), flat_tokens_app. cbn. by rewrite app_nil_r.
Qed.

(** X7: [nestTokens] keeps every token but the closing tags, in order: when
    the tokens are as the parser pushes them (four elements, or seven for a
    partial), the tree that [nestTokens] returns, read with every section
    as its opening tag followed by its children, is the list of the tokens
    without its closing tags. *)
Theorem nestTokens_flat toks tree :
  forallb pushed_shape toks = true ->
  nestTokens toks = Ok tree ->
  flat_tokens tree = List.filter (fun t => negb (is_closing t)) toks.
Proof. intros Hs H. by rewrite (nest_loop_flat toks [] [] tree Hs H). Qed.


(** ** The tree that parseTemplate returns *)

Lemma forallb_Forall {A} (f : A -> bool) l :
  forallb f l = true <-> Forall (fun x => f x = true) l.
Proof.
  induction l as [|a l IH]; cbn.
  - split; [constructor|done].
  - rewrite andb_true_iff, IH. split.
    + intros [? ?]. by constructor.
    + intros H. by apply Forall_cons in H.
Qed.

Lemma open_sections_app a b s :
  open_sections (a ++ b) s = open_sections a s ≫= open_sections b.
Proof.
  revert s. induction a as [|t a IH]; intros s; [done|]. cbn.
  destruct (tok_type t); try apply IH. destruct s; [done|apply IH].
Qed.

Lemma live_app a b : live (a ++ b) = live a ++ live b.
Proof. apply omap_app. Qed.

Lemma open_sections_text t rest s :
  is_text t = true -> open_sections (t :: rest) s = open_sections rest s.
Proof. unfold is_text. cbn. by destruct (tok_type t). Qed.

Lemma open_sections_slot slot rest s :
  slot = None \/ text_slot slot = true ->
  open_sections (live (slot :: rest)) s = open_sections (live rest) s.
Proof.
  intros [->|H]; [done|]. destruct slot as [t|]; [|done].
  by apply open_sections_text.
Qed.

Lemma live_delete toks i slot s :
  toks !! i = Some slot -> slot = None \/ text_slot slot = true ->
  open_sections (live (<[i:=None]> toks)) s = open_sections (live toks) s.
Proof.
  intros Hl Hs. rewrite <- (take_drop_middle toks i slot Hl) at 2.
  rewrite insert_take_drop by (by eapply lookup_lt_Some).
  rewrite !live_app, !open_sections_app.
  destruct (open_sections (live (take i toks)) s) as [s'|]; [|done].
  cbn [mbind option_bind].
  by rewrite (open_sections_slot slot).
Qed.

Lemma delete_spaces_open sp toks s :
  Forall (fun i => exists slot, toks !! i = Some slot
                   /\ (slot = None \/ text_slot slot = true)) sp ->
  open_sections (live (delete_spaces sp toks)) s = open_sections (live toks) s.
Proof.
  revert toks. induction sp as [|i sp IH]; intros toks H; [done|].
  apply Forall_cons in H as [(slot & Hl & Hs) H]. cbn. rewrite IH.
  - by eapply live_delete.
  - eapply Forall_impl; [exact H|]. intros j (slot' & Hl' & Hs'). cbn in *.
    destruct (decide (i = j)) as [->|Hne].
    + exists None. split; [|by left].
      apply list_lookup_insert_eq. by eapply lookup_lt_Some.
    + exists slot'. by rewrite list_lookup_insert_ne.
Qed.

Lemma delete_spaces_shape sp toks :
  Forall (fun slot => from_option pushed_shape true slot = true) toks ->
  Forall (fun slot => from_option pushed_shape true slot = true)
    (delete_spaces sp toks).
Proof.
  revert toks. induction sp as [|i sp IH]; intros toks H; [done|].
  cbn. apply IH. by apply Forall_insert.
Qed.

Lemma fits_strip toks sp secs :
  buffer_fits toks sp secs -> buffer_fits (delete_spaces sp toks) [] secs.
Proof.
  intros (Hs & Hsp & Ho). split; [by apply delete_spaces_shape|].
  split; [constructor|]. by rewrite delete_spaces_open.
Qed.

Lemma fits_no_spaces toks sp secs :
  buffer_fits toks sp secs -> buffer_fits toks [] secs.
Proof. intros (Hs & Hsp & Ho). by split; [|split; [constructor|]]. Qed.

Lemma fits_push toks sp secs t secs' :
  pushed_shape t = true ->
  open_sections [t] secs = Some secs' ->
  buffer_fits toks sp secs -> buffer_fits (toks ++ [Some t]) sp secs'.
Proof.
  intros Ht Hopen (Hs & Hsp & Ho). split; [|split].
  - apply Forall_app. split; [done|]. by constructor.
  - eapply Forall_impl; [exact Hsp|]. intros i (slot & Hl & Hslot).
    exists slot. split; [|done]. by apply lookup_app_l_Some.
  - rewrite live_app, open_sections_app, Ho. exact Hopen.
Qed.

Lemma fits_push_space toks sp secs t :
  pushed_shape t = true -> is_text t = true ->
  buffer_fits toks sp secs ->
  buffer_fits (toks ++ [Some t]) (length toks :: sp) secs.
Proof.
  intros Ht Htext Hf.
  destruct (fits_push toks sp secs t secs Ht) as (Hs & Hsp & Ho); [|done|].
  { by rewrite open_sections_text. }
  split; [done|]. split; [|done]. constructor; [|done].
  exists (Some t). split; [|by right].
  rewrite lookup_app_r by lia. by rewrite Nat.sub_diag.
Qed.

Lemma stripSpace_ok st : buffer_ok st -> buffer_ok (stripSpace st).
Proof.
  unfold buffer_ok, stripSpace. intros H.
  destruct (hasTag st && negb (nonSpace st)); cbn.
  - by apply fits_strip.
  - by eapply fits_no_spaces.
Qed.

Lemma text_char_ok chr start st :
  buffer_ok st -> buffer_ok (text_char chr start st).
Proof.
  intros H. unfold text_char.
  set (t := Tok text [chr] start (start + 1)).
  assert (buffer_ok
            (push_token t
               (if isWhitespace [chr]
                then set_indentation (indentation st ++ [chr])
                       (set_spaces (length (tokens st) :: spaces st) st)
                else set_indentation (indentation st ++ js " ")
                       (set_lineHasNonSpace true (set_nonSpace true st)))))
    as Hpush.
  { unfold buffer_ok in *. destruct (isWhitespace [chr]); cbn.
    - by apply fits_push_space.
    - by apply (fits_push _ _ (sections st) t). }
  destruct (Ascii.eqb chr newline); [|exact Hpush].
  by apply stripSpace_ok in Hpush.
Qed.

Lemma push_tag_ok type value start st st' :
  push_tag type value start st = Continue st' ->
  buffer_ok st -> buffer_ok st'.
Proof.
  unfold push_tag, buffer_ok. intros H Hok.
  destruct type; cbn in H;
    try (injection H as <-; cbn; by eapply fits_push).
  - destruct (sections st) as [|openSection rest] eqn:Es; [done|].
    destruct (jstring_eqb _ _); [|done]. injection H as <-. cbn.
    eapply fits_push; [done| |exact Hok]. done.
  - destruct (split_space2 value) as [|? [|? [|? ?]]]; try done.
    injection H as <-. cbn. by eapply fits_push.
Qed.

Lemma run_items_ok items st st' :
  run_items items st = Continue st' -> buffer_ok st -> buffer_ok st'.
Proof.
  revert st. induction items as [|it items IH]; intros st H Hok.
  - by injection H as <-.
  - cbn in H. destruct (run_item it st) as [st1| |] eqn:E; [|done..].
    apply (IH st1 H).
    destruct it as [sc|chr start|type value start sc]; cbn in E.
    + by injection E as <-.
    + injection E as <-. by apply text_char_ok.
    + by apply (push_tag_ok _ _ _ _ _ E).
Qed.

Lemma parse_loop_ok fuel st st' :
  parse_loop fuel st = Ok st' -> buffer_ok st -> buffer_ok st'.
Proof. intros H. apply (run_items_ok _ _ _ (loop_items_run _ _ _ H)). Qed.

Lemma initial_ok res template : buffer_ok (initial_state res template).
Proof. by split; [constructor|split; [constructor|]]. Qed.

Lemma squash_loop_shape toks acc :
  Forall (fun slot => from_option pushed_shape true slot = true) toks ->
  Forall (fun t => pushed_shape t = true) acc ->
  Forall (fun t => pushed_shape t = true) (squash_loop toks acc).
Proof.
  revert acc. induction toks as [|[t|] toks IH]; intros acc Ht Hacc; cbn.
  - by apply List.Forall_rev.
  - apply Forall_cons in Ht as [Ht Htoks]. cbn in Ht.
    destruct (tok_type t); try (apply IH; [done|by constructor]).
    destruct acc as [|lastToken before]; [apply IH; [done|by constructor]|].
    destruct (tok_type lastToken); try (apply IH; [done|by constructor]).
    apply IH; [done|]. apply Forall_cons in Hacc as [_ Hacc]. by constructor.
  - apply Forall_cons in Ht as [_ Ht]. by apply IH.
Qed.

Lemma squash_loop_open toks acc s :
  open_sections (squash_loop toks acc) s
  = open_sections (rev acc ++ live toks) s.
Proof.
  revert acc. induction toks as [|[t|] toks IH]; intros acc; cbn.
  - by rewrite app_nil_r.
  - assert (open_sections (squash_loop toks (t :: acc)) s
            = open_sections (rev acc ++ t :: live toks) s) as Hpush.
    { rewrite IH. cbn [rev]. by rewrite <- app_assoc. }
    destruct (tok_type t) eqn:Et; try exact Hpush.
    destruct acc as [|lastToken before]; [exact Hpush|].
    destruct (tok_type lastToken) eqn:El; try exact Hpush.
    rewrite IH. cbn [rev]. rewrite <- !app_assoc, !open_sections_app.
    destruct (open_sections (rev before) s) as [s'|]; [|done].
    cbn [mbind option_bind].
    cbn [app]. rewrite !open_sections_text; try done; unfold is_text; cbn;
      by rewrite ?Et, ?El.
  - apply IH.
Qed.

Lemma well_formed_other t :
  pushed_shape t = true -> opens (tok_type t) = false ->
  is_closing t = false -> well_formed t = true.
Proof. by destruct t as [[]| |[]]. Qed.

Lemma nest_loop_wf toks coll secs :
  Forall (fun t => pushed_shape t = true) toks ->
  Forall (fun t => well_formed t = true) coll ->
  Forall (fun p => opens (tok_type p.1) = true
                   /\ Forall (fun t => well_formed t = true) p.2) secs ->
  open_sections toks (map fst secs) = Some [] ->
  exists tree, nest_loop toks coll secs = Ok tree
               /\ Forall (fun t => well_formed t = true) tree.
Proof.
  revert coll secs. induction toks as [|t toks IH];
    intros coll secs Ht Hcoll Hsecs Ho.
  - cbn in Ho. injection Ho as Ho. destruct secs; [|done]. by exists coll.
  - apply Forall_cons in Ht as [Ht Htoks].
    assert (opens (tok_type t) = true ->
            open_sections toks (t :: map fst secs) = Some [] ->
            exists tree, nest_loop toks [] ((t, coll) :: secs) = Ok tree
                         /\ Forall (fun t => well_formed t = true) tree)
      as Hopen.
    { intros Hty Ho'. apply IH; [done|constructor| |done].
      constructor; [|done]. by split. }
    assert (opens (tok_type t) = false -> is_closing t = false ->
            open_sections toks (map fst secs) = Some [] ->
            exists tree, nest_loop toks (coll ++ [t]) secs = Ok tree
                         /\ Forall (fun t => well_formed t = true) tree)
      as Hother.
    { intros Hty Hcl Ho'. apply IH; [done| |done..].
      apply Forall_app. split; [done|]. constructor; [|done].
      by apply well_formed_other. }
    cbn in Ho |- *. unfold opens, is_closing in *.
    destruct (tok_type t); try (by apply Hother); try (by apply Hopen).
    destruct secs as [|[sec outer] secs]; [done|]. cbn in Ho.
    apply Forall_cons in Hsecs as [[Hsec Houter] Hsecs]. cbn in Hsec, Houter.
    apply IH; [done| |done..].
    apply Forall_app. split; [done|]. constructor; [|done].
    cbn. unfold opens. rewrite Hsec. cbn. rewrite andb_true_r.
    by apply forallb_Forall.
Qed.

Lemma violation_error st e : violation st e -> is_parse_error e = true.
Proof. by destruct 1. Qed.

Lemma parse_loop_throw fuel st e :
  parse_loop fuel st = Throw e -> is_parse_error e = true.
Proof.
  revert st. induction fuel as [|fuel IH]; intros st; cbn;
    destruct (Scanner.eos _); try done.
  destruct (parse_turn st) as [st'|st'|e'] eqn:Et; [apply IH|done|].
  intros [= <-]. eapply violation_error. by apply parse_turn_raise.
Qed.

Lemma finish_ok st :
  buffer_ok st ->
  match finish st with
  | Ok tree => forallb well_formed tree = true
  | Throw e => is_parse_error e = true
  | OutOfFuel => False
  end.
Proof.
  intros Hok. apply stripSpace_ok in Hok. unfold finish, nestTokens.
  cbv zeta. destruct Hok as (Hs & _ & Ho).
  destruct (sections (stripSpace st)); [|done].
  destruct (nest_loop_wf (squashTokens (tokens (stripSpace st))) [] [])
    as (tree & -> & Hwf).
  - by apply squash_loop_shape.
  - constructor.
  - constructor.
  - unfold squashTokens. by rewrite squash_loop_open.
  - by apply forallb_Forall.
Qed.

Lemma parseTemplate_outcome template tags :
  match parseTemplate template tags with
  | Ok tree => forallb well_formed tree = true
  | Throw e => is_parse_error e = true
  | OutOfFuel => False
  end.
Proof.
  unfold parseTemplate. destruct template as [|c template]; [done|].
  destruct (compileTags _) as [e|res] eqn:Ec.
  { unfold compileTags in Ec.
    repeat match type of Ec with
      | context [match ?x with _ => _ end] => destruct x; try done
      end; by injection Ec as <-. }
  pose proof (parse_loop_enough (S (length (c :: template)))
                (initial_state res (c :: template))) as Hfuel.
  destruct (parse_loop _ _) as [st|e|] eqn:El; cbn.
  - apply finish_ok. apply (parse_loop_ok _ _ _ El), initial_ok.
  - by eapply parse_loop_throw.
  - apply Hfuel; [|done]. unfold remaining. cbn. lia.
Qed.

(** X8: every token of the tree that [parseTemplate] returns is well formed:
    a section has the type of an opening tag, well-formed children and the
    offset of its closing tag; a partial tag has its indentation, tag index
    and line flag; any other token has four elements and is no opening,
    closing or partial tag. *)
Theorem parseTemplate_well_formed template tags tree :
  parseTemplate template tags = Ok tree ->
  forallb well_formed tree = true.
Proof.
  intros H. pose proof (parseTemplate_outcome template tags) as Ho.
  by rewrite H in Ho.
Qed.

(** X9: [parseTemplate] ends on every template and every delimiters, and
    either returns a tree of tokens or throws one of its own four errors:
    delimiters that are not a pair, a tag that is not closed, a closing tag
    without its section, a section that is not closed. The bound on the
    turns of its loop is never met, and [nestTokens] never meets a closing
    tag with no section open. *)
Theorem parseTemplate_errors template tags :
  (exists tree, parseTemplate template tags = Ok tree)
  \/ (exists e, parseTemplate template tags = Throw e
                /\ is_parse_error e = true).
Proof.
  pose proof (parseTemplate_outcome template tags) as Ho.
  destruct (parseTemplate template tags) as [tree|e|];
    [|by right; exists e|done].
  left. by exists tree.
Qed.

(** ** Delimiters given as a string *)

Lemma skip_ws_app w c :
  forallb is_ws w = true -> skip_ws (w ++ c) = skip_ws c.
Proof.
  induction w as [|x w IH]; [done|]. cbn. intros H.
  apply andb_true_iff in H as [-> H]. by apply IH.
Qed.

Lemma skip_ws_none c :
  forallb (fun x => negb (is_ws x)) c = true -> skip_ws c = c.
Proof.
  destruct c as [|x c]; [done|]. cbn. intros H.
  apply andb_true_iff in H as [H _]. by apply negb_true_iff in H as ->.
Qed.

Lemma split_piece_none c :
  forallb (fun x => negb (is_ws x)) c = true -> split_piece c = (c, None).
Proof.
  induction c as [|x c IH]; [done|]. cbn. intros H.
  apply andb_true_iff in H as [Hx H]. apply negb_true_iff in Hx as ->.
  by rewrite IH.
Qed.

Lemma split_piece_app o x w c :
  forallb (fun x => negb (is_ws x)) o = true ->
  is_ws x = true -> forallb is_ws w = true ->
  forallb (fun x => negb (is_ws x)) c = true ->
  split_piece (o ++ x :: w ++ c) = (o, Some c).
Proof.
  intros Ho Hx Hw Hc. induction o as [|y o IH]; cbn.
  - by rewrite Hx, skip_ws_app, skip_ws_none.
  - cbn in Ho. apply andb_true_iff in Ho as [Hy Ho].
    apply negb_true_iff in Hy as ->. by rewrite IH.
Qed.

(** X10: delimiters given as one string, the opening and the closing
    delimiter with whitespace between them, are the pair of the two: the
    regular expressions that [compileTags] makes are the same, and so is
    the parse of every template. *)
Theorem delimiters_as_string o w c :
  forallb (fun x => negb (is_ws x)) o = true ->
  w <> [] -> forallb is_ws w = true ->
  forallb (fun x => negb (is_ws x)) c = true ->
  compileTags (TagsString (o ++ w ++ c)) = compileTags (TagsArray [o; c])
  /\ forall template,
      parseTemplate template (TagsString (o ++ w ++ c))
      = parseTemplate template (TagsArray [o; c]).
Proof.
  intros Ho Hw Hws Hc. destruct w as [|x w]; [done|]. clear Hw.
  cbn in Hws. apply andb_true_iff in Hws as [Hx Hws].
  assert (compileTags (TagsString (o ++ (x :: w) ++ c))
          = compileTags (TagsArray [o; c])) as Heq.
  { unfold compileTags, split_space2. cbn [app].
    by rewrite (split_piece_app o x w c), split_piece_none. }
  split; [exact Heq|]. intros template. unfold parseTemplate.
  destruct template as [|chr template]; [done|].
  assert (tags_or_default (TagsString (o ++ (x :: w) ++ c))
          = TagsString (o ++ (x :: w) ++ c)) as ->.
  { by destruct o. }
  cbn [tags_or_default]. by rewrite Heq.
Qed.

(** ** Templates without tags *)

Lemma search_no_occurrence o re s :
  occurs o s = false -> search (Lit o :: re) s = None.
Proof.
  induction s as [|x s IH]; cbn; intros H;
    apply orb_false_iff in H as [-> H]; [done|]. by rewrite IH.
Qed.

Lemma text_loop_plain value start st :
  hasTag st = false ->
  let st' := (text_loop value start st).1 in
  hasTag st' = false /\ sections st' = sections st
  /\ tokens st' = tokens st ++ char_tokens value start
  /\ scanner st' = scanner st /\ openingTagRe st' = openingTagRe st.
Proof.
  revert start st. induction value as [|chr value IH]; intros start st Ht; cbn.
  - by rewrite app_nil_r.
  - assert (hasTag (text_char chr start st) = false
            /\ sections (text_char chr start st) = sections st
            /\ tokens (text_char chr start st)
               = tokens st ++ [Some (Tok text [chr] start (start + 1))]
            /\ scanner (text_char chr start st) = scanner st
            /\ openingTagRe (text_char chr start st) = openingTagRe st)
      as (H1 & H2 & H3 & H4 & H5).
    { unfold text_char, stripSpace.
      destruct (isWhitespace [chr]), (Ascii.eqb chr newline); cbn;
        by rewrite ?Ht. }
    destruct (IH (start + 1) _ H1) as (I1 & I2 & I3 & I4 & I5).
    repeat apply conj; [done|congruence| |congruence..].
    rewrite I3, H3. by rewrite <- app_assoc.
Qed.

Lemma squash_char_tokens value start v0 s0 e0 :
  squash_loop (char_tokens value start) [Tok text v0 s0 e0]
  = [Tok text (v0 ++ value) s0
       (match value with [] => e0 | _ => start + length value end)].
Proof.
  revert start v0 e0. induction value as [|chr value IH]; intros start v0 e0.
  - cbn. by rewrite app_nil_r.
  - cbn [char_tokens squash_loop tok_type]. rewrite IH. cbn.
    rewrite <- app_assoc. cbn. do 2 f_equal.
    destruct value; cbn; lia.
Qed.

Lemma parseTemplate_plain chr template tags o c :
  tags_or_default tags = TagsArray [o; c] ->
  occurs o (chr :: template) = false ->
  parseTemplate (chr :: template) tags
  = Ok [Tok text (chr :: template) 0 (length (chr :: template))].
Proof.
  intros Htags Hno. unfold parseTemplate. rewrite Htags. cbn [compileTags].
  set (res := (escapeRegExp o ++ [WsStar], [WsStar] ++ escapeRegExp c,
               [WsStar] ++ escapeRegExp (js "}" ++ c))).
  set (st0 := initial_state res (chr :: template)).
  pose proof (text_loop_plain (chr :: template) 0
                (set_scanner
                   (Scanner.Make (chr :: template) (length (chr :: template)))
                   st0) eq_refl) as Hl.
  cbv zeta in Hl. destruct (text_loop _ _ _) as [st1 start1] eqn:El.
  cbn [fst] in Hl. destruct Hl as (H1 & H2 & H3 & H4 & H5).
  assert (o <> []) as Ho.
  { by intros ->. }
  assert (parse_turn st0 = Break st1) as Ht.
  { unfold parse_turn, scan_tag, Scanner.scanUntil.
    change (openingTagRe st0) with (Lit o :: [WsStar]).
    change (Scanner.tail (scanner st0)) with (chr :: template).
    rewrite (search_no_occurrence o _ _ Hno).
    change (Scanner.pos (scanner st0) + length (chr :: template))
      with (length (chr :: template)).
    change (Scanner.source (scanner st0)) with (chr :: template).
    change (Scanner.pos (scanner st0)) with 0.
    rewrite El. unfold Scanner.scan, Scanner.tail. rewrite H4, H5.
    cbn [scanner set_scanner Scanner.pos Scanner.source].
    rewrite drop_all. change (openingTagRe st0) with (Lit o :: [WsStar]).
    cbn [match_here]. by destruct o. }
  cbn [parse_loop]. change (Scanner.eos (scanner st0)) with false.
  rewrite Ht. cbn [obind]. unfold finish, stripSpace. rewrite H1.
  cbn [andb]. cbn [sections set_nonSpace set_hasTag set_spaces tokens].
  rewrite H2, H3.
  change (sections (set_scanner _ st0)) with (@nil token).
  change (tokens (set_scanner _ st0)) with (@nil (option token)).
  unfold squashTokens. cbn [app char_tokens squash_loop tok_type].
  rewrite squash_char_tokens. cbn. do 3 f_equal.
  destruct template; cbn; lia.
Qed.

(** X11: a template in which the opening delimiter does not occur parses
    to one text token that holds the whole template, from offset 0 to its
    length. *)
Theorem parseTemplate_no_tag template tags o c :
  tags_or_default tags = TagsArray [o; c] ->
  template <> [] -> occurs o template = false ->
  parseTemplate template tags = Ok [Tok text template 0 (length template)].
Proof.
  intros Htags Hne Hno. destruct template as [|chr template]; [done|].
  by eapply parseTemplate_plain.
Qed.

(** X12: a template in which the opening delimiter does not occur renders
    to itself, whatever the view, the partials and the functions of the
    view are, on a writer whose cache was cleared. *)
Theorem render_no_tag call_function fuel template view p config o c w :
  tags_or_default (getConfigTags config) = TagsArray [o; c] ->
  occurs o template = false ->
  (Writer_render call_function (S fuel) template view p config
     (clearCache w)).1
  = Ok template.
Proof.
  intros Htags Hno. unfold Writer_render, render, bind, Writer_parse.
  rewrite Htags.
  assert (parseTemplate template (getConfigTags config)
          = Ok (match template with
                | [] => []
                | _ => [Tok text template 0 (length template)]
                end)) as Hp.
  { destruct template as [|chr template]; [done|].
    by eapply parseTemplate_plain. }
  unfold clearCache. destruct (templateCache w) as [cache|] eqn:Ec; cbn.
  - rewrite lookup_empty, Hp. by destruct template.
  - rewrite Ec, Hp. by destruct template.
Qed.


(** ** The cache of the writer *)

(** X13: a second call of [parse] with the same template and delimiters
    returns what the first call returned, or throws what it threw, and
    leaves the writer as the first call left it. *)
Theorem Writer_parse_again template tags w r w' :
  Writer_parse template tags w = (r, w') ->
  Writer_parse template tags w' = (r, w').
Proof.
  unfold Writer_parse.
  destruct (tags_or_default tags) as [| |l]; try (by intros [= <- <-]).
  destruct (templateCache w) as [cache|] eqn:Ec.
  - destruct (cache !! _) eqn:Eh.
    + intros [= <- <-]. by rewrite Ec, Eh.
    + destruct (parseTemplate _ _) eqn:Ep; intros [= <- <-]; cbn;
        rewrite ?Ec, ?Eh, ?Ep; try done.
      by rewrite lookup_insert_eq.
  - intros [= <- <-]. by rewrite Ec.
Qed.

Lemma Writer_parse_grows template tags w cache :
  templateCache w = Some cache ->
  exists cache', templateCache (Writer_parse template tags w).2 = Some cache'
                 /\ cache ⊆ cache'.
Proof.
  intros Ec. unfold Writer_parse.
  destruct (tags_or_default tags) as [| |l]; try (by exists cache).
  rewrite Ec. destruct (cache !! _) eqn:Eh; [by exists cache|].
  destruct (parseTemplate _ _) as [toks| |]; try (by exists cache).
  eexists. split; [done|]. by apply insert_subseteq.
Qed.

(** X14: calls of [parse] only add to the cache: every entry that the cache
    holds is still there, with the same tokens, after any calls of
    [parse]. *)
Theorem parse_calls_keep_entries calls w cache :
  templateCache w = Some cache ->
  exists cache', templateCache (parse_calls calls w) = Some cache'
                 /\ cache ⊆ cache'.
Proof.
  revert w cache. induction calls as [|[template tags] calls IH];
    intros w cache Ec; [by exists cache|].
  destruct (Writer_parse_grows template tags w cache Ec) as (c1 & E1 & H1).
  destruct (IH _ _ E1) as (c2 & E2 & H2).
  exists c2. split; [exact E2|]. by etrans.
Qed.

(** X15: after [clearCache] a call of [parse] with delimiters that are
    absent or an array returns what [parseTemplate] returns, whatever the
    cache held before; when that is a list of tokens and the writer has a
    cache, the cache then holds this one entry. *)
Theorem parse_after_clearCache template tags l w :
  tags_or_default tags = TagsArray l ->
  (Writer_parse template tags (clearCache w)).1 = parseTemplate template tags
  /\ forall toks cache,
      parseTemplate template tags = Ok toks ->
      templateCache w = Some cache ->
      templateCache (Writer_parse template tags (clearCache w)).2
      = Some {[cache_key template l := toks]}.
Proof.
  intros Ht. unfold Writer_parse, clearCache. rewrite Ht.
  destruct (templateCache w) as [cache|] eqn:Ec; cbn.
  - rewrite lookup_empty. split.
    + by destruct (parseTemplate template tags).
    + intros toks cache' -> _. cbn. by rewrite insert_empty.
  - rewrite Ec. by split.
Qed.

(** ** renderTokens *)

Section RenderFacts.

Variable call_function :
  value -> value -> jstring -> (jstring -> M jstring) -> M value.
Variable rec :
  list token -> Context.t -> partials -> option jstring -> config -> M jstring.

Lemma renderTokens_loop_buffer tokens context p ot c buffer w :
  renderTokens_loop call_function rec tokens context p ot c buffer w
  = match renderTokens_loop call_function rec tokens context p ot c [] w with
    | (Ok s, w') => (Ok (buffer ++ s), w')
    | other => other
    end.
Proof.
  revert buffer w. induction tokens as [|token tokens IH]; intros buffer w.
  - cbn. by rewrite app_nil_r.
  - cbn [renderTokens_loop]. unfold bind.
    destruct (render_token _ _ _ _ _ _ _ _) as [[v| |] w1]; [|done..].
    assert (forall s,
              renderTokens_loop call_function rec tokens context p ot c
                (buffer ++ s) w1
              = match
                  renderTokens_loop call_function rec tokens context p ot c
                    ([] ++ s) w1
                with
                | (Ok s', w') => (Ok (buffer ++ s'), w')
                | other => other
                end) as Hs.
    { intros s. rewrite (IH (buffer ++ s)), (IH ([] ++ s)).
      destruct (renderTokens_loop _ _ tokens _ _ _ _ [] w1) as [[s'| |] w'];
        [|done..].
      by rewrite app_assoc. }
    destruct v; try apply Hs. apply IH.
Qed.

(** X16: rendering a list of tokens that is two lists one after the other
    renders the first, then the second with the writer as the first left
    it, and returns the two texts one after the other; what the first
    throws, the whole throws. *)
Theorem renderTokens_app tokens1 tokens2 context p ot c w :
  renderTokens_body call_function rec (tokens1 ++ tokens2) context p ot c w
  = (do s1 <- renderTokens_body call_function rec tokens1 context p ot c;
     do s2 <- renderTokens_body call_function rec tokens2 context p ot c;
     ret (s1 ++ s2)) w.
Proof.
  unfold renderTokens_body. generalize (@nil ascii) at 1 2 as buffer.
  revert w. induction tokens1 as [|token tokens1 IH]; intros w buffer.
  - cbn [app renderTokens_loop]. unfold bind, ret.
    rewrite renderTokens_loop_buffer.
    by destruct (renderTokens_loop _ _ tokens2 _ _ _ _ [] w) as [[s| |] w'].
  - cbn [app renderTokens_loop]. unfold bind in *.
    destruct (render_token _ _ _ _ _ _ _ _) as [[v| |] w1]; [|done..].
    apply IH.
Qed.

End RenderFacts.

(** ** Escaped variables *)

Lemma numeral_chars_safe x : x ∈ numeral_chars -> x ∉ html_unsafe.
Proof.
  intros H. apply char_in_false. apply char_in_spec in H.
  unfold char_in, numeral_chars in H. cbn in H.
  split_char x; try done.
Qed.

Lemma string_of_uint_chars d :
  Forall (fun x => x ∈ numeral_chars) (js (NilEmpty.string_of_uint d)).
Proof.
  induction d; cbn; constructor; try done;
    apply char_in_spec; reflexivity.
Qed.

Lemma string_of_uint_zero_chars d :
  Forall (fun x => x ∈ numeral_chars) (js (NilZero.string_of_uint d)).
Proof.
  unfold NilZero.string_of_uint.
  destruct d; try apply string_of_uint_chars.
  constructor; [|constructor]. apply char_in_spec. reflexivity.
Qed.

Lemma drop_zeros_Forall (P : ascii -> Prop) s :
  Forall P s -> Forall P (drop_zeros s).
Proof.
  induction 1 as [|c s Hc Hs IH]; cbn; [done|].
  destruct (Ascii.eqb c "0"); [done|]. by constructor.
Qed.

Lemma number_digits_chars s n :
  Forall (fun x => x ∈ numeral_chars) s ->
  Forall (fun x => x ∈ numeral_chars) (number_digits s n).
Proof.
  intros Hs.
  assert (forall b : bool, Forall (fun x => x ∈ numeral_chars)
                      (if b then js "-" else js "+")) as Hsign.
  { intros []; repeat constructor. }
  assert (Forall (fun x => x ∈ numeral_chars) (js ".")) as Hpoint.
  { repeat constructor. }
  assert (Forall (fun x => x ∈ numeral_chars) (js "e")) as He.
  { repeat constructor. }
  assert (forall k, Forall (fun x => x ∈ numeral_chars)
                      (replicate k "0"%char)) as Hzeros.
  { intros k. apply Forall_replicate. apply char_in_spec. reflexivity. }
  unfold number_digits.
  repeat match goal with |- context [if ?b then _ else _] =>
    lazymatch b with
    | (_ <? 0)%Z => fail
    | _ => destruct b
    end
  end.
  - apply Forall_app. by split.
  - rewrite !Forall_app. split; [by apply Forall_take|].
    split; [done|]. by apply Forall_drop.
  - change (js "0.") with (js "0" ++ js "."). rewrite <- !app_assoc.
    rewrite !Forall_app. split; [|by split].
    repeat constructor.
  - assert (Forall (fun x => x ∈ numeral_chars)
              (numeral_of (Z.to_nat (Z.abs (n - 1))))) as Hexp
      by apply string_of_uint_zero_chars.
    destruct s as [|c [|c' s]]; rewrite !Forall_app; repeat apply conj;
      try done; try apply Hsign;
      try (by apply Forall_take); try (by apply Forall_drop).
Qed.

Lemma number_to_string_safe n :
  Forall (fun x => x ∉ html_unsafe) (number_to_string n).
Proof.
  destruct n as [|[]| |negative m e]; cbn -[number_digits digits_of].
  1-4: apply Forall_forall; intros x Hx; apply char_in_false;
    apply char_in_spec in Hx; unfold char_in in Hx; cbn in Hx;
    split_char x; done.
  eapply Forall_impl; [|intros x; apply numeral_chars_safe].
  apply Forall_app. split.
  - destruct negative; repeat constructor.
  - apply number_digits_chars, Forall_rev, drop_zeros_Forall, Forall_rev.
    apply string_of_uint_zero_chars.
Qed.

(** X17: with the escape function of the library, what a variable tag
    [{{name}}] appends holds none of the characters [<], [>], the double
    quote, the single quote, [/], the backquote and [=], whatever the value
    of the variable is: a number is appended as [String] prints it, with
    digits, a sign, a point and an exponent, or as [NaN] or [Infinity], and
    any other value is escaped. *)
Theorem escaped_variable_is_safe token context c :
  is_mustache_escape (default mustache_escape (getConfigEscape c)) = true ->
  match escapedValue token context c with
  | VUndefined => True
  | VString s => Forall (fun x => x ∉ html_unsafe) s
  | _ => False
  end.
Proof.
  intros He. unfold escapedValue. rewrite He.
  destruct (default mustache_escape (getConfigEscape c)); [|done].
  destruct (Context.lookup context (tok_value token)) as [| |b|n|s|l|f|f s];
    cbn -[escapeHtml number_to_string]; try done;
    try apply escapeHtml_chars.
  apply number_to_string_safe.
Qed.


(** ** A render without partials returns *)



Section RenderReturns.

Variable call_function :
  value -> value -> jstring -> (jstring -> M jstring) -> M value.
Variable rec :
  list token -> Context.t -> partials -> option jstring -> config -> M jstring.
Variable c : config.

Hypothesis host_returns :
  forall f this text context w,
    exists v w',
      call_function f this text
        (fun template =>
           render rec template (ViewContext context) PartialsUndefined c) w
      = (Ok v, w').




End RenderReturns.





(** ** Offsets of the tokens *)

Lemma spans_lo lo lo' l hi : lo <= lo' -> spans lo' l hi -> spans lo l hi.
Proof.
  destruct l; cbn; [lia|]. intros ? (? & ? & ?).
  repeat apply conj; (done || lia).
Qed.

Lemma spans_hi lo l hi hi' : hi <= hi' -> spans lo l hi -> spans lo l hi'.
Proof.
  revert lo. induction l as [|t l IH]; intros lo Hh; cbn; [lia|].
  intros (? & ? & ?). repeat apply conj; [done..|]. by apply IH.
Qed.

Lemma spans_app lo a b hi :
  spans lo (a ++ b) hi <-> exists mid, spans lo a mid /\ spans mid b hi.
Proof.
  revert lo. induction a as [|t a IH]; intros lo; cbn.
  - split.
    + intros H. exists lo. by split.
    + intros (mid & H1 & H2). by eapply spans_lo.
  - rewrite IH. split.
    + intros (H1 & H2 & mid & H3 & H4). by exists mid.
    + intros (mid & (H1 & H2 & H3) & H4). repeat apply conj; [done..|].
      by exists mid.
Qed.

Lemma spans_sublist l' l lo hi :
  sublist l' l -> spans lo l hi -> spans lo l' hi.
Proof.
  intros Hs. revert lo. induction Hs as [|x l1 l2 Hs IH|x l1 l2 Hs IH];
    intros lo; cbn.
  - done.
  - intros (H1 & H2 & H3). repeat apply conj; [done..|]. by apply IH.
  - intros (H1 & H2 & H3). apply (spans_lo _ (tok_end x)); [lia|]. by apply IH.
Qed.

Lemma live_insert_sublist i toks :
  sublist (live (<[i:=None]> toks)) (live toks).
Proof.
  revert i. induction toks as [|x toks IH]; intros i; [done|].
  destruct i as [|i]; cbn.
  - destruct x; [by apply sublist_cons|done].
  - destruct x; [by apply sublist_skip|]. apply IH.
Qed.

Lemma live_delete_sublist sp toks :
  sublist (live (delete_spaces sp toks)) (live toks).
Proof.
  revert toks. induction sp as [|i sp IH]; intros toks; [done|].
  cbn. etrans; [apply IH|]. apply live_insert_sublist.
Qed.

Lemma stripSpace_sublist st :
  sublist (live (tokens (stripSpace st))) (live (tokens st)).
Proof.
  unfold stripSpace. destruct (hasTag st && negb (nonSpace st)); cbn;
    [apply live_delete_sublist|done].
Qed.

Lemma text_char_sublist chr start st :
  sublist (live (tokens (text_char chr start st)))
    (live (tokens st) ++ [Tok text [chr] start (start + 1)]).
Proof.
  unfold text_char.
  set (t := Tok text [chr] start (start + 1)).
  assert (forall st1, tokens st1 = tokens st ->
            tokens (push_token t st1) = tokens st ++ [Some t]) as Hp.
  { intros st1 H. cbn. by rewrite H. }
  assert (live (tokens st ++ [Some t]) = live (tokens st) ++ [t]) as Hl.
  { by rewrite live_app. }
  destruct (isWhitespace [chr]), (Ascii.eqb chr newline);
    cbn [tokens set_lineHasNonSpace set_tagIndex set_indentation];
    rewrite <- Hl; try (etrans; [apply stripSpace_sublist|]);
    by rewrite Hp.
Qed.

Lemma run_items_spans template p items q st st' :
  tiles template p items q ->
  run_items items st = Continue st' ->
  spans 0 (live (tokens st)) p ->
  spans 0 (live (tokens st')) q.
Proof.
  intros Ht. revert st.
  induction Ht as [p|p sc items q Ht IH|p chr items q Hc Ht IH
                  |p type value sc items q Hsrc Hp Ht IH]; intros st Hr Hs.
  - by injection Hr as <-.
  - cbn in Hr. by apply (IH _ Hr).
  - cbn in Hr. apply (IH _ Hr).
    eapply spans_sublist; [apply text_char_sublist|].
    apply spans_app. exists p. split; [done|]. cbn. lia.
  - cbn [run_items run_item] in Hr.
    destruct (push_tag _ _ _ _) as [st1| |] eqn:Ep; [|done..].
    apply (IH _ Hr).
    apply push_tag_fields in Ep as (token & -> & Hpushed & _).
    cbn [tokens set_scanner set_hasTag]. rewrite live_app.
    apply spans_app. exists p. split; [done|].
    inversion Hpushed; subst; cbn; lia.
Qed.

Lemma starts_with_length p s : starts_with p s = true -> length p <= length s.
Proof.
  revert s. induction p as [|x p IH]; intros [|y s] H; cbn in *; try lia;
    try done.
  apply andb_true_iff in H as [_ H]. specialize (IH _ H). lia.
Qed.

Lemma star_le k s n :
  (forall s' n', k s' = Some n' -> n' <= length s') ->
  star k s = Some n -> n <= length s.
Proof.
  intros Hk. revert n. induction s as [|c s IH]; intros n; cbn.
  - apply Hk.
  - destruct (is_ws c); [|apply (Hk (c :: s))].
    destruct (star k s) as [m|].
    + intros [= <-]. specialize (IH m eq_refl). lia.
    + apply (Hk (c :: s)).
Qed.

Lemma match_here_le re s n : match_here re s = Some n -> n <= length s.
Proof.
  revert s n. induction re as [|a re IH]; intros s n; cbn.
  - intros [= <-]. lia.
  - destruct a as [l| | |cs].
    + destruct (starts_with l s) eqn:E; [|done].
      apply starts_with_length in E.
      destruct (match_here re (drop (length l) s)) as [m|] eqn:Em; [|done].
      intros [= <-]. apply IH in Em. rewrite length_drop in Em. lia.
    + apply star_le. apply IH.
    + destruct s as [|c s]; [done|]. destruct (is_ws c); [|done].
      destruct (star (match_here re) s) as [m|] eqn:Em; [|done].
      intros [= <-]. apply star_le in Em; [cbn; lia|apply IH].
    + destruct s as [|c s]; [done|]. destruct (char_in c cs); [|done].
      destruct (match_here re s) as [m|] eqn:Em; [|done].
      intros [= <-]. apply IH in Em. cbn. lia.
Qed.

Lemma scan_inside template re sc m sc' :
  Scanner.scan re sc = (m, sc') -> inside template sc -> inside template sc'.
Proof.
  unfold Scanner.scan, inside, Scanner.tail.
  destruct (match_here re _) as [n|] eqn:E; intros [= <- <-]; [|done].
  apply match_here_le in E. rewrite length_drop in E. cbn.
  intros [<- ?]. split; [done|lia].
Qed.

Lemma scanUntil_inside template re sc m sc' :
  Scanner.scanUntil re sc = (m, sc') ->
  inside template sc -> inside template sc'.
Proof.
  unfold Scanner.scanUntil, inside, Scanner.tail.
  destruct (search re _) as [i|] eqn:E; intros [= <- <-]; cbn;
    intros [<- ?]; (split; [done|]).
  - apply search_le in E. rewrite length_drop in E. lia.
  - rewrite length_drop. lia.
Qed.

Lemma scan_value_inside template type st sc type' value sc' :
  scan_value type st sc = (type', value, sc') ->
  inside template sc -> inside template sc'.
Proof.
  unfold scan_value. intros H Hi.
  destruct type;
    repeat match type of H with
      | context [Scanner.scanUntil ?re ?s] =>
          let E := fresh "E" in
          destruct (Scanner.scanUntil re s) as [? ?] eqn:E;
          apply (scanUntil_inside template) in E; [|done]
      | context [Scanner.scan ?re ?s] =>
          let E := fresh "E" in
          destruct (Scanner.scan re s) as [? ?] eqn:E;
          apply (scan_inside template) in E; [|done]
      end;
    by injection H as <- <- <-.
Qed.

Lemma parse_turn_inside template st :
  inside template (scanner st) ->
  match parse_turn st with
  | Continue st' | Break st' => inside template (scanner st')
  | Raise _ => True
  end.
Proof.
  intros Hi. unfold parse_turn, scan_tag.
  destruct (Scanner.scanUntil _ _) as [v sc0] eqn:E0.
  apply (scanUntil_inside template) in E0; [|done].
  destruct (text_loop _ _ _) as [stb start'] eqn:Eb.
  pose proof (text_loop_scanner v (Scanner.pos (scanner st)) (set_scanner sc0 st))
    as Hb. rewrite Eb in Hb. cbn in Hb.
  destruct (Scanner.scan (openingTagRe stb) _) as [opened sc1] eqn:E1.
  rewrite Hb in E1. apply (scan_inside template) in E1; [|done].
  destruct opened as [|o opened]; [by rewrite Hb|].
  destruct (Scanner.scan tagRe sc1) as [ty sc2] eqn:E2.
  apply (scan_inside template) in E2; [|done].
  destruct (Scanner.scan whiteRe sc2) as [wh sc3] eqn:E3.
  apply (scan_inside template) in E3; [|done].
  destruct (scan_value _ _ sc3) as [[ty' v'] sc4] eqn:E4.
  apply (scan_value_inside template) in E4; [|done].
  destruct (Scanner.scan _ sc4) as [closed sc5] eqn:E5.
  apply (scan_inside template) in E5; [|done].
  destruct closed; [done|].
  destruct (push_tag ty' v' start' _) as [st'|st'|] eqn:Ep;
    [|by apply push_tag_not_break in Ep|done].
  apply push_tag_scanner in Ep. by rewrite Ep.
Qed.

Lemma parse_loop_inside template fuel st st' :
  parse_loop fuel st = Ok st' ->
  inside template (scanner st) -> inside template (scanner st').
Proof.
  revert st. induction fuel as [|fuel IH]; intros st; cbn;
    destruct (Scanner.eos _); try done; try (by intros [= <-]).
  intros H Hi. pose proof (parse_turn_inside template st Hi) as Ht.
  destruct (parse_turn st) as [st1|st1|]; [|by injection H as <-|done].
  by apply (IH st1).
Qed.

Lemma squash_loop_spans toks acc lo hi :
  spans lo (rev acc ++ live toks) hi -> spans lo (squash_loop toks acc) hi.
Proof.
  revert acc. induction toks as [|[t|] toks IH]; intros acc; cbn.
  - by rewrite app_nil_r.
  - intros H.
    assert (spans lo (squash_loop toks (t :: acc)) hi) as Hpush.
    { apply IH. cbn [rev]. by rewrite <- app_assoc. }
    destruct (tok_type t); try exact Hpush.
    destruct acc as [|lastToken before]; [exact Hpush|].
    destruct (tok_type lastToken); try exact Hpush.
    apply IH. cbn [rev] in H |- *. rewrite <- app_assoc in H |- *.
    apply spans_app in H as (mid & H1 & H2). apply spans_app.
    exists mid. split; [done|]. cbn in H2 |- *.
    destruct H2 as (? & ? & ? & ? & ?). repeat apply conj; (done || lia).
  - apply IH.
Qed.

Lemma laid_hi lo l hi hi' : hi <= hi' -> laid lo l hi -> laid lo l hi'.
Proof.
  intros Hh Hl.
  induction Hl as [| |lo ty v s e children cs rest hi ? ? ? _ ? IH].
  - constructor. lia.
  - apply laid_token; auto.
  - apply laid_section; auto.
Qed.

Lemma laid_app lo a mid b hi :
  laid lo a mid -> laid mid b hi -> laid lo (a ++ b) hi.
Proof.
  intros Ha Hb. induction Ha as [lo mid Hle| |]; cbn.
  - destruct Hb; [constructor; lia|apply laid_token; (done || lia)
                  |apply laid_section; (done || lia)].
  - apply laid_token; try done. by apply IHHa.
  - apply laid_section; try done. by apply IHHa2.
Qed.

Lemma nest_loop_laid toks coll secs lo p hi tree :
  Forall (fun t => pushed_shape t = true) toks ->
  spans p toks hi ->
  laid lo coll p -> stack_laid lo secs ->
  open_sections toks (map fst secs) = Some [] ->
  nest_loop toks coll secs = Ok tree ->
  laid 0 tree hi.
Proof.
  revert coll secs lo p. induction toks as [|t toks IH];
    intros coll secs lo p Hshape Hsp Hcoll Hstack Ho H.
  - cbn in Ho, H. injection Ho as Ho. destruct secs; [|done].
    injection H as <-. cbn in Hstack, Hsp. subst lo. by eapply laid_hi.
  - apply Forall_cons in Hshape as [Ht Hshape].
    cbn in Hsp. destruct Hsp as (Hs1 & Hs2 & Hsp).
    assert (opens (tok_type t) = true ->
            open_sections toks (t :: map fst secs) = Some [] ->
            nest_loop toks [] ((t, coll) :: secs) = Ok tree ->
            laid 0 tree hi) as Hopen.
    { intros _ Ho' H'.
      eapply (IH [] ((t, coll) :: secs) (tok_end t) (tok_end t));
        [exact Hshape|exact Hsp|by constructor| |exact Ho'|exact H'].
      cbn. repeat apply conj; [done..|]. exists lo. split; [|done].
      by eapply laid_hi. }
    assert (opens (tok_type t) = false -> is_closing t = false ->
            open_sections toks (map fst secs) = Some [] ->
            nest_loop toks (coll ++ [t]) secs = Ok tree ->
            laid 0 tree hi) as Hother.
    { intros _ _ Ho' H'.
      eapply (IH (coll ++ [t]) secs lo (tok_end t));
        [exact Hshape|exact Hsp| |exact Hstack|exact Ho'|exact H'].
      eapply laid_app; [exact Hcoll|].
      apply laid_token; [by destruct t|done..|]. by constructor. }
    cbn in Ho, H. unfold opens, is_closing in *.
    destruct (tok_type t); try (by apply Hother); try (by apply Hopen).
    destruct secs as [|[sec outer] secs]; [done|]. cbn in Ho.
    destruct Hstack as (-> & Hsec & lo' & Houter & Hstack).
    eapply (IH _ secs lo' (tok_end t));
      [exact Hshape|exact Hsp| |exact Hstack|exact Ho|exact H].
    eapply laid_app; [exact Houter|].
    apply laid_section; [done..| |constructor; lia].
    by eapply laid_hi.
Qed.

Lemma sublist_List_filter {A} (f : A -> bool) l : sublist (List.filter f l) l.
Proof.
  induction l as [|x l IH]; [done|]. cbn.
  destruct (f x); [by apply sublist_skip|by apply sublist_cons].
Qed.

(** X19: the tokens of the tree that [parseTemplate] returns lie in the
    template from left to right: each spans at least one character and
    starts at or after the end of the token before it, the children of a
    section lie between the end of its opening tag and the start of its
    closing tag, and every offset is at most the length of the template. *)
Theorem parseTemplate_offsets template tags tree :
  parseTemplate template tags = Ok tree ->
  laid 0 tree (length template).
Proof.
  unfold parseTemplate. destruct template as [|c template].
  { intros [= <-]. by constructor. }
  destruct (compileTags _) as [e|res]; [done|].
  set (template' := c :: template).
  set (st0 := initial_state res template').
  destruct (parse_loop _ st0) as [st| |] eqn:El; [|done..]. cbn [obind].
  pose proof (parse_loop_ok _ _ _ El (initial_ok _ _)) as Hok.
  apply stripSpace_ok in Hok. destruct Hok as (Hshape & _ & Ho).
  assert (inside template' (scanner st)) as [_ Hin].
  { apply (parse_loop_inside _ _ _ _ El). split; [done|]. cbn. lia. }
  assert (spans 0 (live (tokens st)) (Scanner.pos (scanner st))) as Hsp.
  { eapply (run_items_spans template' 0 _ _ st0);
      [apply (loop_items_tiles _ _ _ El)|by apply loop_items_run|].
    cbn. lia. }
  unfold finish. cbv zeta.
  destruct (sections (stripSpace st)); [|done].
  unfold nestTokens. intros H.
  eapply (nest_loop_laid _ [] [] 0 0); [| | | | |exact H].
  - by apply squash_loop_shape.
  - apply squash_loop_spans. cbn [rev app].
    eapply spans_sublist; [apply stripSpace_sublist|].
    by eapply spans_hi.
  - by constructor.
  - done.
  - unfold squashTokens. by rewrite squash_loop_open.
Qed.


(** ** The configuration of a render *)

Section ConfigFacts.

Variable call_function :
  value -> value -> jstring -> (jstring -> M jstring) -> M value.

Hypothesis host_ext :
  forall f this text sub1 sub2 w,
    (forall template w', sub1 template w' = sub2 template w') ->
    call_function f this text sub1 w = call_function f this text sub2 w.

Variables c1 c2 : config.
Hypothesis same_tags : getConfigTags c1 = getConfigTags c2.
Hypothesis same_escape : getConfigEscape c1 = getConfigEscape c2.

Section OneLevel.

Variable rec :
  list token -> Context.t -> partials -> option jstring -> config -> M jstring.

Hypothesis rec_same :
  forall tokens context p ot w,
    rec tokens context p ot c1 w = rec tokens context p ot c2 w.

Lemma render_config template view p w :
  render rec template view p c1 w = render rec template view p c2 w.
Proof using same_tags rec_same.
  unfold render, bind. rewrite same_tags.
  destruct (Writer_parse _ _ w) as [[toks| |] w']; [apply rec_same|done..].
Qed.

Lemma render_children_config token context p ot w :
  render_children rec token context p ot c1 w
  = render_children rec token context p ot c2 w.
Proof using rec_same.
  unfold render_children. destruct (tok_children token); [apply rec_same|done].
Qed.

Lemma section_loop_config token context elements p ot buffer w :
  section_loop rec token context elements p ot c1 buffer w
  = section_loop rec token context elements p ot c2 buffer w.
Proof using rec_same.
  revert buffer w. induction elements as [|element elements IH];
    intros buffer w; [done|].
  cbn. unfold bind. rewrite render_children_config.
  destruct (render_children _ _ _ _ _ c2 w) as [[s| |] w']; [apply IH|done..].
Qed.

Lemma render_token_config token context p ot w :
  render_token call_function rec token context p ot c1 w
  = render_token call_function rec token context p ot c2 w.
Proof using host_ext same_tags same_escape rec_same.
  unfold render_token. destruct (tok_type token); try done.
  - unfold escapedValue. by rewrite same_escape.
  - unfold renderSection.
    destruct (negb (truthy _)); [done|].
    destruct (isArray _).
    { unfold bind. by rewrite section_loop_config. }
    destruct (_ || _).
    { unfold bind. by rewrite render_children_config. }
    destruct (isFunction _).
    + destruct ot as [template|]; [|done]. unfold bind.
      rewrite (host_ext _ _ _ _
                 (fun template0 =>
                    render rec template0 (ViewContext context) p c2)); [done|].
      intros template0 w'. apply render_config.
    + unfold bind. by rewrite render_children_config.
  - unfold renderInverted. destruct (_ || _); [|done].
    unfold bind. by rewrite render_children_config.
  - unfold renderPartial. destruct p as [|m|f]; [done|..];
      rewrite same_tags; destruct (lookup_partial _ _); try done; unfold bind;
      destruct (lift _ w) as [[indented| |] w1]; try done;
      try (destruct (Writer_parse _ _ w1) as [[toks| |] w2]; try done);
      try (destruct (Writer_parse_not_string _ _ w1) as [[toks| |] w2];
           try done);
      by rewrite rec_same.
Qed.

Lemma renderTokens_loop_config tokens context p ot buffer w :
  renderTokens_loop call_function rec tokens context p ot c1 buffer w
  = renderTokens_loop call_function rec tokens context p ot c2 buffer w.
Proof using host_ext same_tags same_escape rec_same.
  revert buffer w. induction tokens as [|token tokens IH]; intros buffer w;
    [done|].
  cbn. unfold bind. rewrite render_token_config.
  destruct (render_token _ _ _ _ _ _ c2 w) as [[v| |] w']; [apply IH|done..].
Qed.

End OneLevel.

Lemma renderTokens_config fuel tokens context p ot w :
  renderTokens call_function fuel tokens context p ot c1 w
  = renderTokens call_function fuel tokens context p ot c2 w.
Proof using host_ext same_tags same_escape.
  revert tokens context p ot w. induction fuel as [|fuel IH];
    intros tokens context p ot w; [done|].
  cbn [renderTokens]. unfold renderTokens_body.
  by apply renderTokens_loop_config.
Qed.

End ConfigFacts.

(** X20: a render uses its configuration only through the delimiters and
    the escape function that it gives: two configurations with the same
    delimiters and the same escape function, such as an array of delimiters
    and an object that holds it as [tags], render every template alike, when
    the functions of the view do not tell apart two [subRender] functions
    that return the same. *)
Theorem render_config_only_tags_and_escape
    call_function c1 c2 fuel template view p w :
  (forall f this text sub1 sub2 w,
     (forall template w', sub1 template w' = sub2 template w') ->
     call_function f this text sub1 w = call_function f this text sub2 w) ->
  getConfigTags c1 = getConfigTags c2 ->
  getConfigEscape c1 = getConfigEscape c2 ->
  Writer_render call_function fuel template view p c1 w
  = Writer_render call_function fuel template view p c2 w.
Proof.
  intros Hext Ht He. unfold Writer_render. apply render_config; [done|].
  intros tokens context p' ot w'. by apply renderTokens_config.
Qed.


(** ** The text of the text tokens *)

Lemma joined_cons template x l :
  joined template (x :: l)
  <-> text_ok template x
      /\ (forall y, head l = Some y -> is_text x = true -> is_text y = true ->
                    tok_end x = tok_start y)
      /\ joined template l.
Proof.
  destruct l as [|y l].
  - cbn. split; intros (H & _ & _); (split; [done|]); split; try done.
  - change (joined template (x :: y :: l))
      with (text_ok template x
            /\ (is_text x = true -> is_text y = true ->
                tok_end x = tok_start y)
            /\ joined template (y :: l)).
    cbn [head]. split; intros (H1 & H2 & H3); (split; [done|]);
      (split; [|done]).
    + by intros y0 [= <-].
    + by apply H2.
Qed.

Lemma joined_app template a b :
  joined template (a ++ b)
  <-> joined template a /\ joined template b
      /\ (forall x y, last a = Some x -> head b = Some y ->
                      is_text x = true -> is_text y = true ->
                      tok_end x = tok_start y).
Proof.
  induction a as [|x a IH].
  - cbn. split; [intros H; by repeat apply conj|by intros (_ & H & _)].
  - change ((x :: a) ++ b) with (x :: (a ++ b)).
    rewrite !joined_cons, IH. destruct a as [|x' a].
    + cbn [app last head]. split.
      * intros (H1 & H2 & _ & H3 & _). split; [|split; [done|]].
        -- split; [done|]. split; [|done]. by intros y [=].
        -- intros x0 y [= <-]. apply H2.
      * intros ((H1 & _ & _) & H2 & H3). split; [done|]. split.
        -- intros y Hy. by apply H3.
        -- split; [done|]. split; [done|]. by intros x0 y [=].
    + change (last (x :: x' :: a)) with (last (x' :: a)).
      change (head ((x' :: a) ++ b)) with (head (x' :: a)). tauto.
Qed.

Lemma joined_nontext template l :
  Forall (fun t => is_text t = false) l -> joined template l.
Proof.
  induction 1 as [|t l Ht _ IH]; [done|]. cbn. split; [|split; [|done]].
  - intros H. congruence.
  - destruct l; [done|]. intros H. congruence.
Qed.

Lemma joined_Forall template l :
  joined template l -> Forall (text_ok template) l.
Proof.
  induction l as [|t l IH]; [constructor|]. intros (H1 & _ & H3).
  constructor; [done|by apply IH].
Qed.

Lemma slice_app (template : jstring) s m e :
  s <= m -> m <= e ->
  slice template s (Some m) ++ slice template m (Some e)
  = slice template s (Some e).
Proof.
  intros H1 H2. unfold slice.
  replace (drop m template) with (drop (m - s) (drop s template)).
  - rewrite take_take_drop. f_equal. lia.
  - rewrite drop_drop. f_equal. lia.
Qed.

Lemma slice_char (template : jstring) p chr :
  template !! p = Some chr -> slice template p (Some (p + 1)) = [chr].
Proof.
  intros H. unfold slice. rewrite (drop_S _ _ _ H).
  by replace (p + 1 - p) with 1 by lia.
Qed.

Lemma live_map_Some l : live (map Some l) = l.
Proof. induction l as [|t l IH]; [done|]. cbn. f_equal. exact IH. Qed.

Lemma hole_if_text_is_text t :
  hole_if_text t = if is_text t then None else Some t.
Proof. unfold hole_if_text, is_text. by destruct (tok_type t). Qed.

Lemma live_holes line :
  live (map hole_if_text line)
  = List.filter (fun t => negb (is_text t)) line.
Proof.
  induction line as [|t line IH]; [done|]. cbn [map List.filter].
  rewrite hole_if_text_is_text. unfold live in *.
  destruct (is_text t); cbn; by rewrite IH.
Qed.

Lemma delete_spaces_lookup sp toks j :
  delete_spaces sp toks !! j
  = if bool_decide (j ∈ sp) then (fun _ => None) <$> toks !! j
    else toks !! j.
Proof.
  revert toks. induction sp as [|i sp IH]; intros toks; cbn [delete_spaces].
  - rewrite bool_decide_eq_false_2; [done|]. apply not_elem_of_nil.
  - rewrite IH. destruct (decide (j = i)) as [->|Hne].
    + rewrite (bool_decide_eq_true_2 (i ∈ i :: sp))
        by (apply elem_of_cons; by left).
      destruct (toks !! i) as [slot|] eqn:E.
      * rewrite list_lookup_insert_eq by (by eapply lookup_lt_Some).
        by case_bool_decide.
      * rewrite list_insert_ge by (by apply lookup_ge_None).
        rewrite E. by case_bool_decide.
    + rewrite list_lookup_insert_ne by done.
      destruct (decide (j ∈ sp)) as [Hin|Hin].
      * rewrite !bool_decide_eq_true_2; [done| |done].
        apply elem_of_cons. by right.
      * rewrite !bool_decide_eq_false_2; [done| |done].
        intros [?|?]%elem_of_cons; done.
Qed.

Lemma delete_spaces_line old line sp :
  Forall (fun i => exists k t, i = length old + k
                               /\ line !! k = Some t
                               /\ is_text t = true) sp ->
  (forall k t, line !! k = Some t -> is_text t = true ->
               length old + k ∈ sp) ->
  delete_spaces sp (old ++ map Some line) = old ++ map hole_if_text line.
Proof.
  intros S1 S2. apply list_eq. intros j. rewrite delete_spaces_lookup.
  rewrite Forall_forall in S1.
  destruct (decide (j < length old)) as [Hlt|Hge].
  - rewrite bool_decide_eq_false_2.
    + by rewrite !lookup_app_l.
    + intros Hin. destruct (S1 j Hin) as (k & t & -> & _). lia.
  - rewrite !lookup_app_r by lia. rewrite !list_lookup_fmap.
    destruct (line !! (j - length old)) as [t|] eqn:E; cbn.
    + rewrite hole_if_text_is_text. destruct (is_text t) eqn:Et.
      * rewrite bool_decide_eq_true_2; [done|].
        replace j with (length old + (j - length old)) by lia.
        by eapply S2.
      * rewrite bool_decide_eq_false_2; [done|].
        intros Hin. destruct (S1 j Hin) as (k & t' & -> & Hl & Ht).
        replace (length old + k - length old) with k in E by lia.
        congruence.
    + by case_bool_decide.
Qed.

Lemma line_state_joined template st p :
  line_state template st p -> joined template (live (tokens st)).
Proof.
  intros (old & line & -> & Hj & _). by rewrite live_app, live_map_Some.
Qed.

Lemma line_state_push template st st' p q t :
  line_state template st p ->
  tokens st' = tokens st ++ [Some t] ->
  text_ok template t ->
  (is_text t = true -> tok_start t = p /\ tok_end t = q) ->
  (if is_text t then spaces st' = spaces st
                     \/ spaces st' = length (tokens st) :: spaces st
   else spaces st' = spaces st) ->
  (nonSpace st' = false ->
   nonSpace st = false
   /\ (is_text t = true -> spaces st' = length (tokens st) :: spaces st)) ->
  (hasTag st' = true -> hasTag st = true \/ is_text t = false) ->
  line_state template st' q.
Proof.
  intros (old & line & Ht & Hj & Hlast & S1 & S2 & S3).
  intros Htok Hok Hpos Hsp Hns Hhas.
  assert (length (tokens st) = length old + length line) as Hlen.
  { by rewrite Ht, length_app, length_map. }
  assert (spaces st' = spaces st
          \/ (is_text t = true
              /\ spaces st' = length (tokens st) :: spaces st)) as Hsp'.
  { destruct (is_text t); [destruct Hsp; [by left|by right]|by left]. }
  exists old, (line ++ [t]). repeat apply conj.
  - rewrite Htok, Ht, map_app. by rewrite <- app_assoc.
  - rewrite app_assoc. apply joined_app. split; [done|]. split; [by cbn|].
    intros x y Hx [= <-] Htx Hty. rewrite (Hlast x Hx Htx).
    symmetry. by apply Hpos.
  - rewrite app_assoc, last_snoc. intros t0 [= <-] Htxt. by apply Hpos.
  - assert (Forall (fun i => exists k t0, i = length old + k
                                          /\ (line ++ [t]) !! k = Some t0
                                          /\ is_text t0 = true) (spaces st))
      as S1'.
    { eapply Forall_impl; [exact S1|]. intros i (k & t0 & -> & Hl & Ht0).
      exists k, t0. split; [done|]. split; [|done].
      by apply lookup_app_l_Some. }
    destruct Hsp' as [->|[Htxt ->]]; [done|]. constructor; [|done].
    exists (length line), t. split; [lia|]. split; [|done].
    rewrite lookup_app_r by lia. by rewrite Nat.sub_diag.
  - intros Hn k t0 Hl Ht0. destruct (Hns Hn) as [Hn0 Hnew].
    apply lookup_app_Some in Hl as [Hl|[Hge Hl]].
    + specialize (S2 Hn0 k t0 Hl Ht0).
      destruct Hsp' as [->|[_ ->]]; [done|]. apply elem_of_cons. by right.
    + destruct (k - length line) as [|n] eqn:E; [|done].
      injection Hl as <-. rewrite (Hnew Ht0). apply elem_of_cons. left. lia.
  - intros Hh. destruct (Hhas Hh) as [H|H].
    + destruct (S3 H) as (t0 & Hin & Ht0). exists t0. split; [|done].
      apply elem_of_app. by left.
    + exists t. split; [|done]. apply elem_of_app. right.
      apply elem_of_cons. by left.
Qed.

Lemma line_state_strip template st p :
  line_state template st p -> line_state template (stripSpace st) p.
Proof.
  intros (old & line & Ht & Hj & Hlast & S1 & S2 & S3). unfold stripSpace.
  destruct (hasTag st && negb (nonSpace st)) eqn:E.
  - apply andb_true_iff in E as [Hh Hn]. apply negb_true_iff in Hn.
    destruct (S3 Hh) as (tag & Hin & Htag).
    exists (old ++ map hole_if_text line), []. cbn. rewrite !app_nil_r.
    rewrite Ht, (delete_spaces_line old line _ S1 (S2 Hn)).
    rewrite live_app, live_holes.
    assert (Forall (fun t => is_text t = false)
              (List.filter (fun t => negb (is_text t)) line)) as Hnt.
    { apply Forall_forall. intros t [_ H]%list_elem_of_In%List.filter_In.
      by apply negb_true_iff in H. }
    apply joined_app in Hj as (Hj1 & _ & _).
    repeat apply conj; try done.
    + apply joined_app. split; [done|]. split; [by apply joined_nontext|].
      intros x y _ Hy _ Hty. destruct (List.filter _ line) as [|y' l]; [done|].
      injection Hy as <-. apply Forall_cons in Hnt as [Hnt _]. congruence.
    + intros t Hl Htxt. rewrite last_app in Hl.
      destruct (last (List.filter _ line)) as [y|] eqn:El.
      * injection Hl as <-. apply last_Some in El as [l' El].
        rewrite El in Hnt. apply Forall_app in Hnt as [_ Hnt].
        apply Forall_cons in Hnt as [Hnt _]. congruence.
      * apply last_None in El.
        assert (tag ∈ List.filter (fun t => negb (is_text t)) line) as Hf.
        { apply list_elem_of_In, List.filter_In. split.
          - by apply list_elem_of_In.
          - by rewrite Htag. }
        rewrite El in Hf. by apply elem_of_nil in Hf.
  - exists (old ++ map Some line), []. cbn. rewrite !app_nil_r.
    rewrite live_app, live_map_Some. by repeat apply conj.
Qed.

Lemma text_char_line_state template chr start st q :
  (forall st1,
     tokens st1 = tokens st ++ [Some (Tok text [chr] start (start + 1))] ->
     spaces st1
     = (if is_ws chr then length (tokens st) :: spaces st else spaces st) ->
     hasTag st1 = hasTag st ->
     nonSpace st1 = nonSpace st || negb (is_ws chr) ->
     line_state template st1 q) ->
  line_state template (text_char chr start st) q.
Proof.
  intros H. unfold text_char, isWhitespace. cbn [forallb].
  rewrite andb_true_r.
  destruct (Ascii.eqb chr newline).
  - apply (line_state_strip template
             (push_token (Tok text [chr] start (start + 1))
                (if is_ws chr
                 then set_indentation (indentation st ++ [chr])
                        (set_spaces (length (tokens st) :: spaces st) st)
                 else set_indentation (indentation st ++ js " ")
                        (set_lineHasNonSpace true (set_nonSpace true st))))).
    apply H; destruct (is_ws chr); cbn; by rewrite ?orb_false_r, ?orb_true_r.
  - apply H; destruct (is_ws chr); cbn; by rewrite ?orb_false_r, ?orb_true_r.
Qed.

Lemma run_items_line_state template p items q st st' :
  tiles template p items q ->
  forallb tag_item_ok items = true ->
  run_items items st = Continue st' ->
  line_state template st p ->
  line_state template st' q.
Proof.
  intros Ht. revert st.
  induction Ht as [p|p sc items q Ht IH|p chr items q Hc Ht IH
                  |p type value sc items q Hsrc Hp Ht IH];
    intros st Hok Hr Hs.
  - by injection Hr as <-.
  - cbn in Hr, Hok. by apply (IH _ Hok Hr).
  - cbn in Hr, Hok. apply (IH _ Hok Hr).
    apply text_char_line_state. intros st1 H1 H2 H3 H4.
    apply (line_state_push template st st1 p (S p)
             (Tok text [chr] p (p + 1)) Hs H1).
    + intros _. cbn. split; [lia|]. symmetry. by apply slice_char.
    + intros _. cbn. split; [done|lia].
    + cbn. rewrite H2. destruct (is_ws chr); [by right|by left].
    + rewrite H4, H2. intros [Hn Hw]%orb_false_iff.
      apply negb_false_iff in Hw. by rewrite Hw.
    + rewrite H3. by left.
  - cbn [run_items run_item] in Hr. cbn in Hok.
    apply andb_true_iff in Hok as [Hty Hok].
    destruct (push_tag _ _ _ _) as [st1| |] eqn:Ep; [|done..].
    apply (IH _ Hok Hr).
    apply push_tag_fields in Ep as (token & H1 & Hpushed & H2 & H3 & H4).
    assert (is_text token = false) as Hnt.
    { inversion Hpushed; subst; [|done]. unfold is_text. cbn.
      by destruct type. }
    apply (line_state_push template st st1 p (Scanner.pos sc) token Hs H1).
    + intros H. congruence.
    + intros H. congruence.
    + by rewrite Hnt.
    + rewrite H4. cbn. intros [Hn _]%orb_false_iff. split; [done|].
      intros H. congruence.
    + intros _. by right.
Qed.


Lemma symbol_of_scan_not_text s : symbol_of_scan s <> text.
Proof.
  destruct s as [|c s]; [done|]. cbn.
  repeat match goal with
    | |- context [if ?b then _ else _] => destruct b; try done
    end.
Qed.

Lemma scan_value_type type st sc type' value sc' :
  scan_value type st sc = (type', value, sc') ->
  type <> text -> type' <> text.
Proof.
  unfold scan_value. intros H Hty.
  destruct type;
    repeat match type of H with
      | context [Scanner.scanUntil ?re ?s] =>
          destruct (Scanner.scanUntil re s) as [? ?]
      | context [Scanner.scan ?re ?s] =>
          destruct (Scanner.scan re s) as [? ?]
      end;
    by injection H as <- <- <-.
Qed.

Lemma turn_items_ok st : forallb tag_item_ok (turn_items st) = true.
Proof.
  unfold turn_items, scan_tag.
  destruct (Scanner.scanUntil _ _) as [v sc0]. cbn [forallb tag_item_ok andb].
  rewrite forallb_app. apply andb_true_iff. split.
  { generalize (Scanner.pos (scanner st)).
    induction v as [|chr v IH]; intros start; [done|]. apply IH. }
  destruct (text_loop _ _ _) as [stb start'].
  destruct (Scanner.scan (openingTagRe stb) _) as [opened sc1].
  destruct opened as [|o opened]; [done|].
  destruct (Scanner.scan tagRe sc1) as [ty sc2].
  destruct (Scanner.scan whiteRe sc2) as [wh sc3].
  destruct (scan_value _ _ sc3) as [[ty' v'] sc4] eqn:E4.
  apply scan_value_type in E4; [|apply symbol_of_scan_not_text].
  destruct (Scanner.scan _ sc4) as [closed sc5].
  destruct closed; [done|]. cbn. by destruct ty'.
Qed.

Lemma loop_items_ok fuel st : forallb tag_item_ok (loop_items fuel st) = true.
Proof.
  revert st. induction fuel as [|fuel IH]; intros st; cbn;
    destruct (Scanner.eos _); try done.
  destruct (parse_turn st); [|apply turn_items_ok|done].
  rewrite forallb_app, turn_items_ok. apply IH.
Qed.

Lemma squash_loop_joined template toks acc :
  joined template (rev acc ++ live toks) ->
  joined template (squash_loop toks acc).
Proof.
  revert acc. induction toks as [|[t|] toks IH]; intros acc; cbn.
  - by rewrite app_nil_r.
  - intros H.
    assert (joined template (squash_loop toks (t :: acc))) as Hpush.
    { apply IH. cbn [rev]. by rewrite <- app_assoc. }
    destruct (tok_type t) eqn:Et; try exact Hpush.
    destruct acc as [|lastToken before]; [exact Hpush|].
    destruct (tok_type lastToken) eqn:El; try exact Hpush.
    apply IH. cbn [rev] in H |- *. rewrite <- app_assoc in H |- *.
    cbn [app] in H |- *.
    assert (is_text t = true) as Htt by (unfold is_text; by rewrite Et).
    assert (is_text lastToken = true) as Htl
      by (unfold is_text; by rewrite El).
    apply joined_app in H as (H1 & H2 & H3). apply joined_app.
    split; [done|].
    apply joined_cons in H2 as (Hl1 & Hl2 & H2).
    apply joined_cons in H2 as (Ht1 & Ht2 & H2).
    destruct (Hl1 Htl) as [Hle1 Hv1]. destruct (Ht1 Htt) as [Hle2 Hv2].
    specialize (Hl2 t eq_refl Htl Htt).
    split.
    + apply joined_cons. split; [|split; [|done]].
      * intros _. cbn. split; [lia|]. rewrite Hv1, Hv2, Hl2.
        apply slice_app; lia.
      * intros y Hy _ Hty. cbn. by apply Ht2.
    + intros x y Hx [= <-] Htx _. cbn. by apply (H3 x lastToken).
  - apply IH.
Qed.

Lemma Forall_List_filter {A} (P : A -> Prop) (f : A -> bool) l :
  Forall P l -> Forall P (List.filter f l).
Proof.
  induction 1 as [|x l Hx _ IH]; [constructor|]. cbn.
  destruct (f x); [by constructor|done].
Qed.

Lemma initial_line_state res template :
  line_state template (initial_state res template) 0.
Proof.
  exists [], []. cbn. by repeat apply conj.
Qed.

(** X21: every text token of the tree that [parseTemplate] returns, at any
    depth, holds exactly the text of the template between its start and
    its end offset. *)
Theorem parseTemplate_text template tags tree :
  parseTemplate template tags = Ok tree ->
  Forall (text_ok template) (flat_tokens tree).
Proof.
  unfold parseTemplate. destruct template as [|c template].
  { intros [= <-]. constructor. }
  destruct (compileTags _) as [e|res]; [done|].
  set (template' := c :: template).
  set (st0 := initial_state res template').
  destruct (parse_loop _ st0) as [st| |] eqn:El; [|done..]. cbn [obind].
  pose proof (parse_loop_ok _ _ _ El (initial_ok _ _)) as Hok.
  apply stripSpace_ok in Hok. destruct Hok as (Hshape & _ & _).
  assert (line_state template' st (Scanner.pos (scanner st))) as Hline.
  { eapply (run_items_line_state template' 0 _ _ st0);
      [apply (loop_items_tiles _ _ _ El)|apply loop_items_ok
      |by apply loop_items_run|apply initial_line_state]. }
  apply line_state_strip, line_state_joined in Hline.
  unfold finish. cbv zeta.
  destruct (sections (stripSpace st)); [|done].
  unfold nestTokens. intros H.
  rewrite (nest_loop_flat (squashTokens (tokens (stripSpace st))) [] [] tree);
    [| |exact H].
  - cbn [flat_tokens flat_open flat_map app]. apply Forall_List_filter.
    apply joined_Forall. by apply squash_loop_joined.
  - apply forallb_Forall. by apply squash_loop_shape.
Qed.

(** ** A template with one variable tag *)

Lemma starts_with_prefix l s : starts_with l (l ++ s) = true.
Proof.
  induction l as [|x l IH]; [done|]. cbn. by rewrite Ascii.eqb_refl, IH.
Qed.

Lemma match_here_lit l re s :
  match_here (Lit l :: re) (l ++ s)
  = (fun n => length l + n) <$> match_here re s.
Proof. cbn. by rewrite starts_with_prefix, drop_app_length. Qed.

Lemma star_not_ws k x s : is_ws x = false -> star k (x :: s) = k (x :: s).
Proof. intros H. cbn. by rewrite H. Qed.

Lemma search_eq re s :
  search re s
  = match match_here re s with
    | Some _ => Some 0
    | None =>
        match s with
        | [] => None
        | _ :: s' => S <$> search re s'
        end
    end.
Proof. by destruct s. Qed.

Lemma match_here_lit_other x0 l re y s :
  x0 <> y -> match_here (Lit (x0 :: l) :: re) (y :: s) = None.
Proof.
  intros H. cbn. by rewrite (proj2 (Ascii.eqb_neq x0 y)).
Qed.

Lemma search_after_prefix o0 o re pre rest n :
  o0 ∉ pre ->
  match_here (Lit (o0 :: o) :: re) rest = Some n ->
  search (Lit (o0 :: o) :: re) (pre ++ rest) = Some (length pre).
Proof.
  intros Hpre Hm. induction pre as [|x pre IH].
  - rewrite search_eq. cbn [app]. by rewrite Hm.
  - apply not_elem_of_cons in Hpre as [Hx Hpre].
    rewrite search_eq. cbn [app].
    rewrite match_here_lit_other by done. by rewrite IH.
Qed.

Lemma match_closing c0 c rest :
  is_ws c0 = false ->
  match_here [WsStar; Lit (c0 :: c)] ((c0 :: c) ++ rest)
  = Some (length (c0 :: c) + 0).
Proof.
  intros Hc.
  change (star (match_here [Lit (c0 :: c)]) (c0 :: (c ++ rest))
          = Some (length (c0 :: c) + 0)).
  rewrite star_not_ws by done.
  change (c0 :: (c ++ rest)) with ((c0 :: c) ++ rest).
  by rewrite match_here_lit.
Qed.

Lemma search_closing c0 c name' rest :
  is_ws c0 = false ->
  Forall (fun x => is_ws x = false /\ x <> c0) name' ->
  search [WsStar; Lit (c0 :: c)] (name' ++ (c0 :: c) ++ rest)
  = Some (length name').
Proof.
  intros Hc Hname. induction Hname as [|x name' [Hx Hne] _ IH].
  - rewrite search_eq. cbn [app].
    change (c0 :: (c ++ rest)) with ((c0 :: c) ++ rest).
    by rewrite match_closing.
  - rewrite search_eq.
    change ((x :: name') ++ (c0 :: c) ++ rest)
      with (x :: (name' ++ (c0 :: c) ++ rest)).
    change (match_here [WsStar; Lit (c0 :: c)]
              (x :: (name' ++ (c0 :: c) ++ rest)))
      with (star (match_here [Lit (c0 :: c)])
              (x :: (name' ++ (c0 :: c) ++ rest))).
    rewrite star_not_ws by done.
    rewrite match_here_lit_other by done. by rewrite IH.
Qed.

Lemma drop_app_plus {A} (a r : list A) n :
  drop (length a + n) (a ++ r) = drop n r.
Proof. induction a as [|x a IH]; [done|]. apply IH. Qed.

Lemma text_loop_keeps value start st :
  (hasTag st = true -> nonSpace st = true) ->
  let st' := (text_loop value start st).1 in
  (hasTag st' = true -> nonSpace st' = true)
  /\ sections st' = sections st
  /\ tokens st' = tokens st ++ char_tokens value start
  /\ scanner st' = scanner st
  /\ openingTagRe st' = openingTagRe st
  /\ closingTagRe st' = closingTagRe st.
Proof.
  revert start st. induction value as [|chr value IH]; intros start st Ht; cbn.
  - by rewrite app_nil_r.
  - assert ((hasTag (text_char chr start st) = true ->
             nonSpace (text_char chr start st) = true)
            /\ sections (text_char chr start st) = sections st
            /\ tokens (text_char chr start st)
               = tokens st ++ [Some (Tok text [chr] start (start + 1))]
            /\ scanner (text_char chr start st) = scanner st
            /\ openingTagRe (text_char chr start st) = openingTagRe st
            /\ closingTagRe (text_char chr start st) = closingTagRe st)
      as (H1 & H2 & H3 & H4 & H5 & H6).
    { unfold text_char, stripSpace.
      destruct (isWhitespace [chr]), (Ascii.eqb chr newline); cbn;
        destruct (hasTag st); try done; rewrite ?Ht by done; done. }
    destruct (IH (start + 1) _ H1) as (I1 & I2 & I3 & I4 & I5 & I6).
    repeat apply conj; [done|congruence| |congruence..].
    rewrite I3, H3. by rewrite <- app_assoc.
Qed.

Lemma squash_chars value start rest v0 s0 e0 acc :
  squash_loop (char_tokens value start ++ rest) (Tok text v0 s0 e0 :: acc)
  = squash_loop rest
      (Tok text (v0 ++ value) s0
         (match value with [] => e0 | _ => start + length value end) :: acc).
Proof.
  revert start v0 e0. induction value as [|chr value IH]; intros start v0 e0.
  - cbn. by rewrite app_nil_r.
  - cbn [char_tokens app squash_loop tok_type]. rewrite IH. cbn.
    rewrite <- app_assoc. cbn. do 3 f_equal.
    destruct value; cbn; lia.
Qed.

Lemma squash_text_run value start rest acc :
  text_slot (head acc) = false ->
  squash_loop (char_tokens value start ++ rest) acc
  = squash_loop rest (rev (text_token value start) ++ acc).
Proof.
  intros Hacc. destruct value as [|chr value]; [done|].
  cbn [char_tokens app squash_loop tok_type].
  assert (squash_loop (char_tokens value (start + 1) ++ rest)
            (Tok text [chr] start (start + 1) :: acc)
          = squash_loop rest (rev (text_token (chr :: value) start) ++ acc))
    as Hpush.
  { rewrite squash_chars. cbn. do 3 f_equal. destruct value; cbn; lia. }
  destruct acc as [|lastToken before]; [exact Hpush|].
  cbn in Hacc. unfold is_text in Hacc.
  by destruct (tok_type lastToken).
Qed.

Lemma parseTemplate_nonempty template tags res :
  template <> [] ->
  compileTags (tags_or_default tags) = inr res ->
  parseTemplate template tags
  = obind (parse_loop (S (length template)) (initial_state res template))
      finish.
Proof.
  destruct template; [done|]. unfold parseTemplate. by intros _ ->.
Qed.

Lemma match_opening o0 o x rest :
  is_ws x = false ->
  match_here [Lit (o0 :: o); WsStar] ((o0 :: o) ++ x :: rest)
  = Some (length (o0 :: o) + 0).
Proof.
  intros Hx. rewrite match_here_lit.
  change (match_here [WsStar] (x :: rest))
    with (star (match_here []) (x :: rest)).
  by rewrite star_not_ws.
Qed.

Lemma nest_plain l coll :
  Forall (fun t => opens (tok_type t) = false /\ is_closing t = false) l ->
  nest_loop l coll [] = Ok (coll ++ l).
Proof.
  intros H. revert coll. induction H as [|t l [H1 H2] _ IH]; intros coll.
  - cbn. by rewrite app_nil_r.
  - cbn. unfold opens, is_closing in *.
    destruct (tok_type t); try done; rewrite IH; by rewrite <- app_assoc.
Qed.

Lemma finish_variable st pre post value s e :
  tokens st
  = char_tokens pre 0 ++ Some (Tok name value s e)
      :: char_tokens post e ->
  sections st = [] ->
  (hasTag st = true -> nonSpace st = true) ->
  finish st
  = Ok (text_token pre 0 ++ [Tok name value s e]
          ++ text_token post e).
Proof.
  intros Ht Hs Hflags. unfold finish, stripSpace.
  assert (hasTag st && negb (nonSpace st) = false) as ->.
  { destruct (hasTag st); [|done]. by rewrite Hflags. }
  cbn [sections tokens set_nonSpace set_hasTag set_spaces].
  rewrite Hs, Ht. unfold squashTokens.
  rewrite squash_text_run by done.
  cbn [squash_loop tok_type]. rewrite app_nil_r.
  assert (squash_loop (char_tokens post e)
            (Tok name value s e :: rev (text_token pre 0))
          = text_token pre 0 ++ [Tok name value s e]
              ++ text_token post e) as Hsq.
  { rewrite <- (app_nil_r (char_tokens post e)).
    rewrite squash_text_run by done. cbn [squash_loop].
    rewrite rev_app_distr, rev_involutive. cbn [rev app].
    by rewrite rev_involutive, <- app_assoc. }
  rewrite Hsq. unfold nestTokens. rewrite nest_plain; [done|].
  apply Forall_app. split; [by destruct pre; repeat constructor|].
  constructor; [done|]. by destruct post; repeat constructor.
Qed.

Section Variable_tag.

Variables (pre post o c name' : jstring) (o0 c0 name0 : ascii).

Local Abbreviation opening := (o0 :: o).
Local Abbreviation closing := (c0 :: c).
Local Abbreviation nm := (name0 :: name').
Local Abbreviation template := (pre ++ opening ++ nm ++ closing ++ post).
Local Abbreviation tag_end :=
  (length pre + length opening + length nm + length closing).
Local Abbreviation res :=
  (escapeRegExp opening ++ [WsStar], [WsStar] ++ escapeRegExp closing,
   [WsStar] ++ escapeRegExp (js "}" ++ closing)).

Hypothesis pre_ok : o0 ∉ pre.
Hypothesis post_ok : occurs opening post = false.
Hypothesis closing_ok : is_ws c0 = false.
Hypothesis name_ok : Forall (fun x => is_ws x = false /\ x <> c0) nm.
Hypothesis name0_ok : char_in name0 (js "#^/>{&=!") = false.

Lemma name0_not_ws : is_ws name0 = false.
Proof using name_ok. by apply Forall_cons in name_ok as [[? _] _]. Qed.

Lemma variable_scan_tag :
  exists st1,
    scan_tag (initial_state res template)
    = TagRead name nm (length pre) st1
    /\ tokens st1 = char_tokens pre 0
    /\ sections st1 = []
    /\ hasTag st1 = true
    /\ (Scanner.source (scanner st1) = template
        /\ Scanner.pos (scanner st1) = tag_end)
    /\ openingTagRe st1 = [Lit opening; WsStar].
Proof using pre_ok closing_ok name_ok name0_ok.
  set (st0 := initial_state res template).
  assert (Scanner.scanUntil (openingTagRe st0) (scanner st0)
          = (pre, Scanner.Make template (length pre))) as E0.
  { unfold Scanner.scanUntil.
    change (Scanner.tail (scanner st0)) with template.
    change (openingTagRe st0) with [Lit (o0 :: o); WsStar].
    change template
      with (pre ++ (o0 :: o) ++ name0 :: (name' ++ closing ++ post)) at 1 2.
    rewrite (search_after_prefix o0 o [WsStar] pre _ _ pre_ok
               (match_opening o0 o name0 _ name0_not_ws)).
    by rewrite take_app_length. }
  pose proof (text_loop_keeps pre 0
                (set_scanner (Scanner.Make template (length pre)) st0))
    as Hl.
  pose proof (text_loop_start pre 0
                (set_scanner (Scanner.Make template (length pre)) st0))
    as Hstart.
  destruct (text_loop pre 0 _) as [stb start'] eqn:Eb.
  cbn [fst snd] in Hl, Hstart. cbn [Nat.add] in Hstart.
  destruct Hl as (_ & L2 & L3 & L4 & L5 & L6); [done|].
  assert (Scanner.tail (Scanner.Make template (length pre))
          = opening ++ nm ++ closing ++ post) as T0.
  { unfold Scanner.tail. cbn [Scanner.pos Scanner.source].
    by rewrite drop_app_length. }
  set (sc1 := Scanner.Make template (length pre + length opening)).
  assert (Scanner.scan (openingTagRe stb) (scanner stb) = (opening, sc1))
    as E1.
  { unfold Scanner.scan. rewrite L4, L5. cbn [scanner set_scanner].
    rewrite T0. change (openingTagRe st0) with [Lit (o0 :: o); WsStar].
    change (opening ++ nm ++ closing ++ post)
      with ((o0 :: o) ++ name0 :: (name' ++ closing ++ post)).
    rewrite (match_opening o0 o name0 _ name0_not_ws).
    rewrite Nat.add_0_r. by rewrite take_app_length. }
  assert (Scanner.tail sc1 = nm ++ closing ++ post) as T1.
  { unfold Scanner.tail, sc1. cbn [Scanner.pos Scanner.source].
    rewrite <- (Nat.add_0_r (length opening)) at 1.
    by rewrite drop_app_plus, drop_app_plus. }
  assert (Scanner.scan tagRe sc1 = ([], sc1)) as E2.
  { unfold Scanner.scan. rewrite T1. unfold tagRe.
    cbn [app match_here]. by rewrite name0_ok. }
  assert (Scanner.scan whiteRe sc1 = ([], sc1)) as E3.
  { unfold Scanner.scan. rewrite T1.
    change (match_here whiteRe (nm ++ closing ++ post))
      with (star (match_here []) (name0 :: (name' ++ closing ++ post))).
    rewrite star_not_ws by apply name0_not_ws. cbn [match_here take].
    by rewrite Nat.add_0_r. }
  set (sc4 := Scanner.Make template (Scanner.pos sc1 + length nm)).
  assert (Scanner.scanUntil [WsStar; Lit closing] sc1 = (nm, sc4)) as E4.
  { unfold Scanner.scanUntil. rewrite T1.
    rewrite (search_closing c0 c nm post closing_ok name_ok).
    by rewrite take_app_length. }
  assert (Scanner.tail sc4 = closing ++ post) as T4.
  { unfold Scanner.tail, sc4. cbn [Scanner.pos Scanner.source].
    rewrite <- drop_drop.
    change (drop (Scanner.pos sc1) template) with (Scanner.tail sc1).
    by rewrite T1, drop_app_length. }
  set (sc5 := Scanner.Make template (Scanner.pos sc4 + length closing)).
  assert (Scanner.scan [WsStar; Lit closing] sc4 = (closing, sc5)) as E5.
  { unfold Scanner.scan. rewrite T4.
    rewrite (match_closing c0 c post closing_ok).
    by rewrite Nat.add_0_r, take_app_length. }
  exists (set_scanner sc5 (set_hasTag true (set_scanner sc1 stb))).
  split.
  { unfold scan_tag. rewrite E0.
    change (Scanner.pos (scanner st0)) with 0. rewrite Eb, E1.
    cbn [scanner set_scanner set_hasTag]. rewrite E2, E3.
    cbn [symbol_of_scan scan_value closingTagRe set_scanner set_hasTag].
    rewrite L6. change (closingTagRe _) with [WsStar; Lit closing].
    rewrite E4, E5. by rewrite Hstart. }
  cbn. rewrite L2, L3, L5. by repeat apply conj.
Qed.



Lemma variable_tail_turn st fuel :
  Scanner.tail (scanner st) = post ->
  openingTagRe st = [Lit opening; WsStar] ->
  (hasTag st = true -> nonSpace st = true) ->
  exists st',
    parse_loop (S fuel) st = Ok st'
    /\ tokens st'
       = tokens st ++ char_tokens post (Scanner.pos (scanner st))
    /\ sections st' = sections st
    /\ (hasTag st' = true -> nonSpace st' = true).
Proof using post_ok.
  intros Htail Hre Hflags. cbn [parse_loop]. unfold Scanner.eos.
  destruct (Scanner.tail (scanner st)) as [|chr rest] eqn:Et.
  { exists st. rewrite <- Htail. by rewrite app_nil_r. }
  rewrite Htail in Et. clear Htail. rename Et into Htail.
  pose proof (text_loop_keeps post (Scanner.pos (scanner st))
                (set_scanner
                   (Scanner.Make (Scanner.source (scanner st))
                      (Scanner.pos (scanner st) + length post)) st) Hflags)
    as Hl.
  destruct (text_loop post _ _) as [st1 start1] eqn:El. cbn [fst] in Hl.
  destruct Hl as (L1 & L2 & L3 & L4 & L5 & L6).
  exists st1. split; [|by repeat apply conj].
  unfold parse_turn, scan_tag, Scanner.scanUntil. rewrite Hre, Htail.
  rewrite (search_no_occurrence opening [WsStar] post post_ok).
  rewrite El. unfold Scanner.scan, Scanner.tail. rewrite L4, L5.
  cbn [scanner set_scanner Scanner.pos Scanner.source].
  rewrite <- drop_drop.
  change (drop (Scanner.pos (scanner st)) (Scanner.source (scanner st)))
    with (Scanner.tail (scanner st)).
  change (openingTagRe (set_scanner _ st)) with (openingTagRe st).
  rewrite Htail, drop_all, Hre. done.
Qed.

Lemma variable_parse tags :
  tags_or_default tags = TagsArray [opening; closing] ->
  parseTemplate template tags
  = Ok (text_token pre 0 ++ [Tok name nm (length pre) tag_end]
          ++ text_token post tag_end).
Proof using pre_ok post_ok closing_ok name_ok name0_ok.
  intros Htags.
  assert (template <> []) as Hne.
  { by destruct pre. }
  rewrite (parseTemplate_nonempty template tags res Hne)
    by (by rewrite Htags).
  destruct variable_scan_tag as (st1 & E & T1 & S1 & H1 & [Src Pos] & R1).
  assert (Scanner.eos (scanner (initial_state res template)) = false) as He.
  { unfold Scanner.eos.
    change (Scanner.tail (scanner (initial_state res template)))
      with template.
    by destruct template. }
  cbn [parse_loop]. rewrite He. unfold parse_turn. rewrite E.
  set (tok := Tok name nm (length pre) tag_end).
  set (st2 := set_nonSpace true
                (push_token tok (set_tagIndex (S (tagIndex st1)) st1))).
  assert (push_tag name nm (length pre) st1 = Continue st2) as ->.
  { unfold push_tag. cbn. by rewrite Pos. }
  assert (length template = S (length template - 1)) as ->.
  { destruct template; [done|]. cbn. lia. }
  destruct (variable_tail_turn st2 (length template - 1))
    as (st3 & -> & T3 & S3 & F3).
  - unfold Scanner.tail. change (scanner st2) with (scanner st1).
    rewrite Src, Pos.
    replace (length pre + length opening + length nm + length closing)
      with (length (pre ++ opening ++ nm ++ closing))
      by (rewrite !length_app; lia).
    replace (pre ++ opening ++ nm ++ closing ++ post)
      with ((pre ++ opening ++ nm ++ closing) ++ post)
      by (by rewrite <- !app_assoc).
    by rewrite drop_app_length.
  - exact R1.
  - done.
  - cbn [obind]. apply finish_variable; [|by rewrite S3|done].
    rewrite T3. change (scanner st2) with (scanner st1). rewrite Pos.
    change (tokens st2) with (tokens st1 ++ [Some tok]).
    by rewrite T1, <- app_assoc.
Qed.

End Variable_tag.

Lemma render_variable_tokens call_function fuel pre post token s0 e
    context p ot c w :
  tok_type token = name ->
  renderTokens call_function (S fuel)
    (text_token pre s0 ++ [token] ++ text_token post e) context p ot c w
  = (Ok (pre
         ++ match escapedValue token context c with
            | VUndefined => []
            | v => to_string v
            end
         ++ post), w).
Proof.
  intros Hty. cbn [renderTokens]. unfold renderTokens_body.
  assert (forall buffer,
            renderTokens_loop call_function (renderTokens call_function fuel)
              ([token] ++ text_token post e) context p ot c buffer w
            = (Ok (buffer
                   ++ match escapedValue token context c with
                      | VUndefined => []
                      | v => to_string v
                      end
                   ++ post), w)) as Hrest.
  { intros buffer. cbn [app renderTokens_loop]. unfold bind, render_token.
    rewrite Hty. unfold ret at 1.
    destruct (escapedValue token context c) eqn:Ev;
      destruct post; cbn; by rewrite ?app_nil_r, <- ?app_assoc. }
  destruct pre as [|chr pre'].
  - cbn [text_token app]. apply (Hrest []).
  - cbn [text_token app renderTokens_loop]. unfold bind, render_token.
    cbn [tok_type]. unfold ret at 1, rawValue. cbn [tok_value to_string app].
    apply (Hrest (chr :: pre')).
Qed.

(** X22: a template that is a text, one variable tag and a text parses to
    the text token of the first text, the name token of the tag, from the
    start of its opening delimiter to the end of its closing delimiter, and
    the text token of the second text: when the first character of the
    opening delimiter is not in the first text, the opening delimiter does
    not occur in the second, the name has no whitespace and not the first
    character of the closing delimiter, which is not whitespace, and the
    name does not start with a character that marks a tag type. *)
Theorem parse_variable_tag pre o0 o name0 name' c0 c post tags :
  tags_or_default tags = TagsArray [o0 :: o; c0 :: c] ->
  o0 ∉ pre -> occurs (o0 :: o) post = false ->
  is_ws c0 = false ->
  Forall (fun x => is_ws x = false /\ x <> c0) (name0 :: name') ->
  char_in name0 (js "#^/>{&=!") = false ->
  let tag_end :=
    length pre + length (o0 :: o) + length (name0 :: name')
    + length (c0 :: c) in
  parseTemplate (pre ++ (o0 :: o) ++ (name0 :: name') ++ (c0 :: c) ++ post)
    tags
  = Ok (text_token pre 0
          ++ [Tok name (name0 :: name') (length pre) tag_end]
          ++ text_token post tag_end).
Proof.
  intros Htags Hpre Hpost Hc Hname Hname0 tag_end.
  by apply (variable_parse pre post o c name' o0 c0 name0).
Qed.

(** X23: such a template renders to the first text, the value of the
    variable as [escapedValue] gives it (nothing when there is none), and
    the second text. *)
Theorem render_variable_tag
    call_function fuel pre o0 o name0 name' c0 c post view p config w :
  tags_or_default (getConfigTags config) = TagsArray [o0 :: o; c0 :: c] ->
  o0 ∉ pre -> occurs (o0 :: o) post = false ->
  is_ws c0 = false ->
  Forall (fun x => is_ws x = false /\ x <> c0) (name0 :: name') ->
  char_in name0 (js "#^/>{&=!") = false ->
  let tag_end :=
    length pre + length (o0 :: o) + length (name0 :: name')
    + length (c0 :: c) in
  let token := Tok name (name0 :: name') (length pre) tag_end in
  let context :=
    match view with
    | ViewContext context => context
    | ViewValue v => Context.Make v None
    end in
  (Writer_render call_function (S fuel)
     (pre ++ (o0 :: o) ++ (name0 :: name') ++ (c0 :: c) ++ post)
     view p config (clearCache w)).1
  = Ok (pre
        ++ match escapedValue token context config with
           | VUndefined => []
           | v => to_string v
           end
        ++ post).
Proof.
  intros Htags Hpre Hpost Hc Hname Hname0 tag_end token context.
  pose proof (variable_parse pre post o c name' o0 c0 name0 Hpre Hpost Hc
                Hname Hname0 (getConfigTags config) Htags) as Hparse.
  cbv zeta in Hparse. fold tag_end in Hparse. fold token in Hparse.
  unfold Writer_render, render, bind, Writer_parse. rewrite Htags.
  unfold clearCache. destruct (templateCache w) as [cache|] eqn:Ec;
    cbn [templateCache].
  - rewrite lookup_empty, Hparse.
    by rewrite (render_variable_tokens call_function fuel pre post token).
  - rewrite Ec, Hparse.
    by rewrite (render_variable_tokens call_function fuel pre post token).
Qed.

(** ** Sections over arrays, and partials without tags *)

Section SectionFacts.

Variable call_function :
  value -> value -> jstring -> (jstring -> M jstring) -> M value.
Variable rec :
  list token -> Context.t -> partials -> option jstring -> config -> M jstring.

Lemma section_loop_pure token children context values p ot c f buffer w :
  tok_children token = Some children ->
  (forall element, element ∈ values ->
     rec children (Context.push context element) p ot c w
     = (Ok (f element), w)) ->
  section_loop rec token context values p ot c buffer w
  = (Ok (buffer ++ flat_map f values), w).
Proof.
  intros Hc. revert buffer.
  induction values as [|element values IH]; intros buffer Hrec; cbn.
  - by rewrite app_nil_r.
  - unfold bind, render_children.
    rewrite Hc, Hrec by (apply elem_of_cons; by left).
    rewrite IH.
    + by rewrite <- app_assoc.
    + intros el Hel. apply Hrec. apply elem_of_cons. by right.
Qed.

(** X24: a section whose value is an array renders its children once for
    each element, in order, each time in the context pushed with that
    element, and yields the texts one after the other; here the children
    render to a text that depends on the element only and leave the writer
    as it is. *)
Theorem section_over_array token children context values p ot c f w :
  Context.lookup context (tok_value token) = VArray values ->
  tok_children token = Some children ->
  (forall element, element ∈ values ->
     rec children (Context.push context element) p ot c w
     = (Ok (f element), w)) ->
  renderSection call_function rec token context p ot c w
  = (Ok (VString (flat_map f values)), w).
Proof.
  intros Hl Hc Hrec. unfold renderSection. rewrite Hl.
  cbn [truthy negb isArray].
  unfold bind. cbn [elements].
  by rewrite (section_loop_pure token children context values p ot c f [] w).
Qed.

End SectionFacts.

(** X25: a partial whose text, after the indentation step, holds no
    opening delimiter is inserted as that text: [renderPartial] parses it to
    one text token and renders that, on a writer whose cache was
    cleared. *)
Theorem render_plain_partial
    call_function fuel nm s e indentation tagIndex lineHasNonSpace
    context p c w value o cl :
  let token := TokPartial gt nm s e indentation tagIndex lineHasNonSpace in
  let text' :=
    if Nat.eqb tagIndex 0 && negb (Nat.eqb (length indentation) 0)
    then indentPartial value indentation lineHasNonSpace
    else value in
  find_partial p nm = Some value ->
  tags_or_default (getConfigTags c) = TagsArray [o; cl] ->
  occurs o text' = false ->
  (renderPartial (renderTokens call_function (S fuel)) token context p c
     (clearCache w)).1
  = Ok (VString text').
Proof.
  intros token text' Hf Htags Hno.
  assert (indentedValue token value = Ok text') as Hi.
  { subst token text'. cbn. by destruct (_ && _). }
  assert (tok_value token = nm) as Hv by done.
  clearbody token text'.
  assert (parseTemplate text' (getConfigTags c)
          = Ok (match text' with
                | [] => []
                | _ => [Tok text text' 0 (length text')]
                end)) as Hp.
  { destruct text' as [|chr rest] eqn:Et; [done|].
    by eapply parseTemplate_plain. }
  apply find_partial_Some in Hf. unfold renderPartial. rewrite Hv, Hf.
  destruct p as [|m|f]; [done|..];
    unfold bind, lift; rewrite Hi;
    unfold Writer_parse; rewrite Htags; unfold clearCache;
    destruct (templateCache w) as [cache|] eqn:Ec; cbn [templateCache];
    rewrite ?lookup_empty, ?Ec, Hp; by destruct text'.
Qed.

(** * Properties of the tree that the parser returns *)

(** ** The tags of the tree are the tags of the template *)

Lemma open_with_closing_app inner extra secs :
  open_with_closing (inner ++ extra) secs
  = open_with_closing inner secs ++ extra.
Proof.
  revert inner. induction secs as [|[sec outer] secs IH]; intros inner; [done|].
  cbn. rewrite <- IH. f_equal. by rewrite <- app_assoc.
Qed.

Lemma with_closing_fold secs coll :
  flat_map with_closing
    (fold_left
       (fun inner '(section, outer) =>
          outer ++ [close_section section inner None])
       secs coll)
  = open_with_closing (flat_map with_closing coll) secs.
Proof.
  revert coll. induction secs as [|[sec outer] secs IH]; intros coll; [done|].
  cbn [fold_left open_with_closing]. rewrite IH, flat_map_app. cbn.
  by rewrite !app_nil_r.
Qed.

Lemma pushed_shape_with_closing t :
  pushed_shape t = true -> with_closing t = [t].
Proof. by destruct t. Qed.

Lemma nest_loop_with_closing toks coll secs tree :
  forallb pushed_shape toks = true ->
  nest_loop toks coll secs = Ok tree ->
  flat_map with_closing tree
  = open_with_closing (flat_map with_closing coll) secs
    ++ map closing_start toks.
Proof.
  revert coll secs. induction toks as [|t toks IH]; intros coll secs Hs H.
  - cbn in H. injection H as <-. by rewrite with_closing_fold, app_nil_r.
  - cbn in Hs. apply andb_true_iff in Hs as [Ht Hs].
    assert (opens (tok_type t) = true ->
            nest_loop toks [] ((t, coll) :: secs) = Ok tree ->
            flat_map with_closing tree
            = open_with_closing (flat_map with_closing coll) secs
              ++ t :: map closing_start toks)
      as Hopen.
    { intros Ho H'. rewrite (IH _ _ Hs H').
      cbn [open_with_closing flat_map].
      rewrite (pushed_shape_plain t Ht Ho).
      by rewrite open_with_closing_app, <- app_assoc. }
    assert (nest_loop toks (coll ++ [t]) secs = Ok tree ->
            flat_map with_closing tree
            = open_with_closing (flat_map with_closing coll) secs
              ++ t :: map closing_start toks)
      as Hother.
    { intros H'. rewrite (IH _ _ Hs H'), flat_map_app. cbn.
      rewrite (pushed_shape_with_closing t Ht). cbn.
      by rewrite open_with_closing_app, <- app_assoc. }
    cbn [nest_loop] in H. cbn [map]. unfold closing_start at 1.
    unfold is_closing, opens in *.
    destruct (tok_type t); try (by apply Hother); try (by apply Hopen).
    destruct secs as [|[sec outer] secs]; [done|].
    rewrite (IH _ _ Hs H), flat_map_app. cbn [open_with_closing].
    rewrite !open_with_closing_app. cbn. rewrite app_nil_r.
    unfold plain. rewrite <- !app_assoc. cbn. by rewrite <- !app_assoc.
Qed.

Lemma nestTokens_with_closing toks tree :
  forallb pushed_shape toks = true ->
  nestTokens toks = Ok tree ->
  flat_map with_closing tree = map closing_start toks.
Proof. intros Hs H. by rewrite (nest_loop_with_closing _ _ _ _ Hs H). Qed.

Lemma tags_of_app a b : tags_of (a ++ b) = tags_of a ++ tags_of b.
Proof. apply List.filter_app. Qed.

Lemma tags_of_slot slot rest :
  slot = None \/ text_slot slot = true ->
  tags_of (live (slot :: rest)) = tags_of (live rest).
Proof.
  intros [->|H]; [done|]. destruct slot as [t|]; [|done].
  cbn in H. unfold tags_of. cbn. by rewrite H.
Qed.

Lemma tags_of_delete toks i slot :
  toks !! i = Some slot -> slot = None \/ text_slot slot = true ->
  tags_of (live (<[i:=None]> toks)) = tags_of (live toks).
Proof.
  intros Hl Hs. rewrite <- (take_drop_middle toks i slot Hl) at 2.
  rewrite insert_take_drop by (by eapply lookup_lt_Some).
  rewrite !live_app, !tags_of_app. f_equal.
  by rewrite (tags_of_slot slot).
Qed.

Lemma delete_spaces_tags sp toks :
  Forall (fun i => exists slot, toks !! i = Some slot
                   /\ (slot = None \/ text_slot slot = true)) sp ->
  tags_of (live (delete_spaces sp toks)) = tags_of (live toks).
Proof.
  revert toks. induction sp as [|i sp IH]; intros toks H; [done|].
  apply Forall_cons in H as [(slot & Hl & Hs) H]. cbn. rewrite IH.
  - by eapply tags_of_delete.
  - eapply Forall_impl; [exact H|]. intros j (slot' & Hl' & Hs'). cbn in *.
    destruct (decide (i = j)) as [->|Hne].
    + exists None. split; [|by left].
      apply list_lookup_insert_eq. by eapply lookup_lt_Some.
    + exists slot'. by rewrite list_lookup_insert_ne.
Qed.

Lemma stripSpace_tags st :
  buffer_ok st ->
  tags_of (live (tokens (stripSpace st))) = tags_of (live (tokens st)).
Proof.
  intros (_ & Hsp & _). unfold stripSpace.
  destruct (hasTag st && negb (nonSpace st)); [|done]. cbn.
  by apply delete_spaces_tags.
Qed.

Lemma text_char_tags chr start st :
  buffer_ok st ->
  tags_of (live (tokens (text_char chr start st)))
  = tags_of (live (tokens st)).
Proof.
  intros H. unfold text_char.
  set (t := Tok text [chr] start (start + 1)).
  set (st1 := push_token t
                (if isWhitespace [chr]
                 then set_indentation (indentation st ++ [chr])
                        (set_spaces (length (tokens st) :: spaces st) st)
                 else set_indentation (indentation st ++ js " ")
                        (set_lineHasNonSpace true (set_nonSpace true st)))).
  assert (buffer_ok st1) as Hpush.
  { subst st1. unfold buffer_ok in *. destruct (isWhitespace [chr]); cbn.
    - by apply fits_push_space.
    - by apply (fits_push _ _ (sections st) t). }
  assert (tags_of (live (tokens st1)) = tags_of (live (tokens st))) as E.
  { subst st1. destruct (isWhitespace [chr]); cbn;
      rewrite live_app, tags_of_app; cbn; by rewrite app_nil_r. }
  destruct (Ascii.eqb chr newline); [|exact E].
  rewrite <- E. exact (stripSpace_tags st1 Hpush).
Qed.

Lemma push_tag_tags type value start st st' :
  push_tag type value start st = Continue st' ->
  type <> text ->
  exists token,
    pushed (Tag type value start (scanner st)) token
    /\ tags_of (live (tokens st')) = tags_of (live (tokens st)) ++ [token].
Proof.
  intros H Hty.
  destruct (push_tag_fields _ _ _ _ _ H) as (token & Ht & Hp & _).
  exists token. split; [done|].
  rewrite Ht, live_app, tags_of_app. f_equal.
  apply pushed_tag_type in Hp. unfold tags_of, is_text. cbn. rewrite Hp.
  by destruct type.
Qed.

Lemma run_items_tags items st st' :
  run_items items st = Continue st' ->
  buffer_ok st ->
  forallb tag_item_ok items = true ->
  exists new,
    Forall2 pushed (List.filter is_tag items) new
    /\ tags_of (live (tokens st')) = tags_of (live (tokens st)) ++ new.
Proof.
  revert st. induction items as [|it items IH]; intros st H Hok Hit.
  - injection H as <-. exists []. split; [constructor|by rewrite app_nil_r].
  - cbn in H, Hit. apply andb_true_iff in Hit as [Hi Hit].
    destruct (run_item it st) as [st1| |] eqn:E; [|done..].
    assert (buffer_ok st1) as Hok1.
    { apply (run_items_ok [it] st); [|done]. cbn. by rewrite E. }
    destruct (IH st1 H Hok1 Hit) as (new & Hnew & Htags).
    destruct it as [sc|chr start|type value start sc]; cbn in E.
    + injection E as <-. by exists new.
    + injection E as <-. exists new. split; [done|].
      by rewrite Htags, text_char_tags.
    + destruct (push_tag_tags _ _ _ _ _ E) as (token & Hp & Ht).
      { by destruct type. }
      exists (token :: new). split; [by constructor|].
      by rewrite Htags, Ht, <- app_assoc.
Qed.

Lemma squash_loop_tags toks acc :
  tags_of (squash_loop toks acc) = tags_of (rev acc) ++ tags_of (live toks).
Proof.
  revert acc. induction toks as [|[t|] toks IH]; intros acc; cbn.
  - by rewrite app_nil_r.
  - assert (tags_of (squash_loop toks (t :: acc))
            = tags_of (rev acc) ++ tags_of (t :: live toks)) as Hpush.
    { rewrite IH. cbn [rev]. rewrite tags_of_app, <- app_assoc. f_equal.
      symmetry. apply (tags_of_app [t]). }
    destruct (tok_type t) eqn:Et; try exact Hpush.
    destruct acc as [|lastToken before]; [exact Hpush|].
    destruct (tok_type lastToken) eqn:El; try exact Hpush.
    rewrite IH. cbn [rev]. rewrite !tags_of_app.
    unfold tags_of at 2 4 5. cbn. unfold is_text. rewrite Et, El. cbn.
    done.
  - apply IH.
Qed.

Lemma tags_of_closing_start l :
  tags_of (map closing_start l) = map closing_start (tags_of l).
Proof.
  induction l as [|t l IH]; [done|]. unfold tags_of in *. cbn.
  rewrite IH.
  assert (is_text (closing_start t) = is_text t) as ->.
  { unfold closing_start, is_closing, is_text.
    destruct (tok_type t) eqn:E; cbn; by rewrite ?E. }
  by destruct (is_text t).
Qed.

Lemma parseTemplate_run template tags tree :
  template <> [] ->
  parseTemplate template tags = Ok tree ->
  exists res st_end,
    compileTags (tags_or_default tags) = inr res
    /\ parse_loop (S (length template)) (initial_state res template)
       = Ok st_end
    /\ finish st_end = Ok tree.
Proof.
  unfold parseTemplate. destruct template as [|c template]; [done|].
  intros _. destruct (compileTags _) as [e|res]; [done|].
  destruct (parse_loop _ _) as [st| |] eqn:El; [|done..]. cbn [obind].
  intros H. by exists res, st.
Qed.

Lemma finish_nest st tree :
  finish st = Ok tree ->
  nestTokens (squashTokens (tokens (stripSpace st))) = Ok tree.
Proof.
  unfold finish. cbv zeta. by destruct (sections (stripSpace st)).
Qed.

Lemma squashTokens_shape st :
  buffer_ok st ->
  forallb pushed_shape (squashTokens (tokens (stripSpace st))) = true.
Proof.
  intros Hok. apply forallb_Forall. apply squash_loop_shape; [|constructor].
  apply stripSpace_ok in Hok. by destruct Hok.
Qed.

Lemma token_children_ind (P : token -> Prop) :
  (forall t, tok_children t = None -> P t) ->
  (forall ty v s e children closeStart,
     Forall P children -> P (TokSection ty v s e children closeStart)) ->
  forall t, P t.
Proof.
  intros Hleaf Hsection. fix IH 1. intros t.
  destruct t as [ty v s e|ty v s e children closeStart|ty v s e i n b].
  - by apply Hleaf.
  - apply Hsection. induction children as [|c children IHc]; constructor.
    + apply IH.
    + apply IHc.
  - by apply Hleaf.
Qed.

Lemma elem_of_flat_map {A B} (f : A -> list B) l y :
  y ∈ flat_map f l <-> exists x, x ∈ l /\ y ∈ f x.
Proof.
  rewrite list_elem_of_In, in_flat_map. split.
  - intros (x & Hx & Hy). exists x. by rewrite !list_elem_of_In.
  - intros (x & Hx & Hy). exists x. by rewrite <- !list_elem_of_In.
Qed.

(** A section of a tree has its opening tag and its closing tag among the
    tokens with closing tags of the tree. *)
Lemma subtokens_with_closing t ty v s e children cs :
  TokSection ty v s e children (Some cs) ∈ subtokens t ->
  Tok ty v s e ∈ with_closing t /\ Tok slash [] cs cs ∈ with_closing t.
Proof.
  induction t as [t Hc|ty' v' s' e' children' cs' IH] using token_children_ind.
  - destruct t; try done; cbn;
      intros [?|Hin]%elem_of_cons; try done; by apply elem_of_nil in Hin.
  - cbn [subtokens with_closing].
    intros [Heq|Hin]%elem_of_cons.
    + injection Heq as <- <- <- <- <- <-.
      split; [apply elem_of_cons; by left|].
      apply elem_of_cons. right. apply elem_of_app. right.
      apply elem_of_cons. by left.
    + apply elem_of_flat_map in Hin as (c & Hc & Hin).
      rewrite Forall_forall in IH. destruct (IH c Hc Hin) as [H1 H2].
      split; apply elem_of_cons; right; apply elem_of_app; left;
        apply elem_of_flat_map; by exists c.
Qed.

Lemma subtokens_well_formed t sec :
  well_formed t = true -> sec ∈ subtokens t -> well_formed sec = true.
Proof.
  induction t as [t Hc|ty' v' s' e' children' cs' IH] using token_children_ind.
  - destruct t; try done; cbn;
      intros Hwf [->|Hin]%elem_of_cons; try done; by apply elem_of_nil in Hin.
  - intros Hwf [->|Hin]%elem_of_cons; [done|].
    apply elem_of_flat_map in Hin as (c & Hc & Hin).
    rewrite Forall_forall in IH. apply (IH c Hc); [|done].
    cbn in Hwf. apply andb_true_iff in Hwf as [Hwf _].
    apply andb_true_iff in Hwf as [_ Hwf].
    apply forallb_Forall in Hwf. rewrite Forall_forall in Hwf. by apply Hwf.
Qed.

Lemma pushed_tags_read items tags_read t :
  Forall2 pushed (List.filter is_tag items) tags_read ->
  t ∈ tags_read ->
  exists type value start sc,
    Tag type value start sc ∈ items
    /\ pushed (Tag type value start sc) t.
Proof.
  intros HF Hin. apply list_elem_of_lookup in Hin as (i & Hi).
  destruct (Forall2_lookup_r _ _ _ _ _ HF Hi) as (it & Hit & Hp).
  apply list_elem_of_lookup_2, list_elem_of_In, List.filter_In in Hit
    as [Hit Htag].
  destruct it as [|?|type value start sc]; try done.
  exists type, value, start, sc. split; [by apply list_elem_of_In|done].
Qed.

Lemma section_tags items tags_read tree ty v s e children cs :
  forallb well_formed tree = true ->
  Forall2 pushed (List.filter is_tag items) tags_read ->
  tags_of (flat_map with_closing tree) = map closing_start tags_read ->
  TokSection ty v s e children (Some cs) ∈ flat_map subtokens tree ->
  (exists sc, Tag ty v s sc ∈ items /\ Scanner.pos sc = e)
  /\ (exists v' sc', Tag slash v' cs sc' ∈ items).
Proof.
  intros Hwf HF Heq Hin.
  apply elem_of_flat_map in Hin as (t & Ht & Hin).
  apply forallb_Forall in Hwf. rewrite Forall_forall in Hwf.
  pose proof (subtokens_well_formed _ _ (Hwf t Ht) Hin) as Hsec.
  cbn in Hsec. apply andb_true_iff in Hsec as [Hsec _].
  apply andb_true_iff in Hsec as [Hty _].
  destruct (subtokens_with_closing _ _ _ _ _ _ _ Hin) as [Ho Hc].
  assert (forall x, x ∈ with_closing t -> is_text x = false ->
                    exists y, y ∈ tags_read /\ closing_start y = x) as Hfind.
  { intros x Hx Htx.
    assert (x ∈ map closing_start tags_read) as Hm.
    { rewrite <- Heq. apply list_elem_of_In, List.filter_In.
      split; [|by rewrite Htx].
      apply list_elem_of_In, elem_of_flat_map. by exists t. }
    apply list_elem_of_fmap in Hm as (y & -> & Hy). by exists y. }
  split.
  - destruct (Hfind _ Ho) as (y & Hy & Hcs); [by destruct ty|].
    destruct (pushed_tags_read _ _ _ HF Hy)
      as (type & value & start & sc & Hit & Hp).
    unfold closing_start in Hcs. destruct (is_closing y) eqn:Ecl.
    { injection Hcs as <-. done. }
    subst y. inversion Hp; subst. by exists sc.
  - destruct (Hfind _ Hc) as (y & Hy & Hcs); [done|].
    destruct (pushed_tags_read _ _ _ HF Hy)
      as (type & value & start & sc & Hit & Hp).
    assert (is_closing y = true /\ tok_start y = cs) as [Ecl Hst].
    { unfold closing_start in Hcs. destruct (is_closing y) eqn:Ecl.
      - by injection Hcs.
      - by subst y. }
    inversion Hp; subst; try done.
    unfold is_closing in Ecl. cbn in Ecl |- *. destruct type; try done.
    by exists value, sc.
Qed.

(** C3: a section whose value is a function calls it on the slice of the
    original template from the fourth element of the section token to its
    sixth, as it stands in the template, with the view of the context as
    receiver and [subRender]. In the tree that [parseTemplate] returns for
    the template, the fourth element of every section, at any depth, is the
    offset at which the loop ended the opening tag of that type, name and
    start, after its closing delimiter, and the sixth element is the offset
    at which the loop started a closing tag; it is the closing tag of the
    section, since the tags of the tree, read in order with every section
    as its opening tag, its children and a closing tag placed at its sixth
    element, are the tags that the loop read from the template, a closing
    tag counting for its start only. *)
Theorem lambda_section_receives_raw_text
    call_function rec template tags tree :
  parseTemplate template tags = Ok tree ->
  (forall token context p c w,
     let value := Context.lookup context (tok_value token) in
     isFunction value = true ->
     renderSection call_function rec token context p (Some template) c w
     = (do result <- call_function value (Context.view context)
                       (slice template (tok_end token) (tok_5 token))
                       (fun t => render rec t (ViewContext context) p c);
        ret (VString (if nullish result then [] else to_string result))) w)
  /\ ((template = [] /\ tree = [])
      \/ exists res st_end tags_read,
          compileTags (tags_or_default tags) = inr res
          /\ parse_loop (S (length template)) (initial_state res template)
             = Ok st_end
          /\ let items :=
               loop_items (S (length template))
                 (initial_state res template) in
             tiles template 0 items (Scanner.pos (scanner st_end))
             /\ Forall2 pushed (List.filter is_tag items) tags_read
             /\ tags_of (flat_map with_closing tree)
                = map closing_start tags_read
             /\ forall ty v s e children cs,
                 TokSection ty v s e children (Some cs)
                 ∈ flat_map subtokens tree ->
                 (exists sc, Tag ty v s sc ∈ items /\ Scanner.pos sc = e)
                 /\ (exists v' sc', Tag slash v' cs sc' ∈ items)
                 /\ forall context p c w,
                     let value := Context.lookup context v in
                     isFunction value = true ->
                     renderSection call_function rec
                       (TokSection ty v s e children (Some cs)) context p
                       (Some template) c w
                     = (do result <- call_function value
                                       (Context.view context)
                                       (slice template e (Some cs))
                                       (fun t =>
                                          render rec t (ViewContext context)
                                            p c);
                        ret (VString (if nullish result then []
                                      else to_string result))) w).
Proof.
  intros Hp.
  assert (forall token context p c w,
            let value := Context.lookup context (tok_value token) in
            isFunction value = true ->
            renderSection call_function rec token context p (Some template)
              c w
            = (do result <- call_function value (Context.view context)
                              (slice template (tok_end token) (tok_5 token))
                              (fun t =>
                                 render rec t (ViewContext context) p c);
               ret (VString (if nullish result then []
                             else to_string result))) w) as Hrender.
  { intros token context p c w value Hf. unfold renderSection. fold value.
    by destruct value. }
  split; [exact Hrender|].
  destruct template as [|chr template]; [left; split; [done|]|right].
  { by injection Hp as <-. }
  assert (chr :: template <> []) as Hne by done.
  destruct (parseTemplate_run _ _ _ Hne Hp)
    as (res & st_end & Hc & Hl & Hf).
  set (template' := chr :: template) in *.
  set (st0 := initial_state res template') in *.
  pose proof (parse_loop_ok _ _ _ Hl (initial_ok _ _)) as Hok.
  destruct (run_items_tags _ _ _ (loop_items_run _ _ _ Hl)
              (initial_ok _ _) (loop_items_ok _ _))
    as (tags_read & Hpushed & Htags).
  exists res, st_end, tags_read. split; [done|]. split; [done|].
  cbv zeta.
  assert (tags_of (flat_map with_closing tree) = map closing_start tags_read)
    as Heq.
  { apply finish_nest in Hf.
    rewrite (nestTokens_with_closing _ _ (squashTokens_shape _ Hok) Hf).
    rewrite tags_of_closing_start. f_equal. unfold squashTokens.
    rewrite squash_loop_tags. cbn [rev app tags_of List.filter].
    by rewrite stripSpace_tags, Htags. }
  split; [|split; [exact Hpushed|split; [exact Heq|]]].
  - apply (loop_items_tiles _ _ _ Hl).
  - intros ty v s e children cs Hin.
    pose proof (parseTemplate_outcome template' tags) as Hwf.
    rewrite Hp in Hwf.
    destruct (section_tags _ _ _ _ _ _ _ _ _ Hwf Hpushed Heq Hin)
      as [Hopen Hclose].
    split; [exact Hopen|]. split; [exact Hclose|].
    intros context p c w. apply (Hrender (TokSection ty v s e children (Some cs))).
Qed.

(** ** Standalone lines *)

Lemma content_cons t l :
  content (t :: l)
  = (if is_text t then map inl (tok_value t) else [inr t]) ++ content l.
Proof. done. Qed.

Lemma content_closing l :
  content (List.filter (fun t => negb (is_closing t)) l)
  = List.filter (fun x => match x with
                          | inl _ => true
                          | inr t => negb (is_closing t)
                          end) (content l).
Proof.
  induction l as [|t l IH]; [done|].
  rewrite content_cons, List.filter_app, <- IH. cbn [List.filter].
  destruct (is_text t) eqn:Et.
  - assert (is_closing t = false) as ->.
    { unfold is_closing, is_text in *. by destruct (tok_type t). }
    cbn [negb]. rewrite content_cons, Et. f_equal.
    induction (tok_value t) as [|c s IHs]; [done|]. cbn. by rewrite <- IHs.
  - cbn [List.filter]. destruct (negb (is_closing t)); [|done].
    by rewrite content_cons, Et.
Qed.

Lemma text_at_app a b p : text_at (a ++ b) p <-> text_at a p \/ text_at b p.
Proof.
  unfold text_at. split.
  - intros (t & [Hin|Hin]%elem_of_app & H); [left|right]; by exists t.
  - intros [(t & Hin & H)|(t & Hin & H)]; exists t;
      (split; [apply elem_of_app; tauto|done]).
Qed.

Lemma text_at_cons t l p :
  text_at (t :: l) p
  <-> (is_text t = true /\ tok_start t <= p < tok_end t) \/ text_at l p.
Proof.
  unfold text_at. split.
  - intros (t' & [->|Hin]%elem_of_cons & H); [by left|right; by exists t'].
  - intros [H|(t' & Hin & H)].
    + exists t. split; [apply elem_of_cons; by left|done].
    + exists t'. split; [apply elem_of_cons; by right|done].
Qed.

Lemma text_at_closing l p :
  text_at (List.filter (fun t => negb (is_closing t)) l) p <-> text_at l p.
Proof.
  unfold text_at. split; intros (t & Hin & Ht & Hp); exists t.
  - apply list_elem_of_In, List.filter_In in Hin as [Hin _].
    by apply list_elem_of_In in Hin.
  - split; [|done]. apply list_elem_of_In, List.filter_In.
    split; [by apply list_elem_of_In|].
    unfold is_closing, is_text in *. by destruct (tok_type t).
Qed.

Lemma joined_merge template before lastToken t rest :
  is_text lastToken = true -> is_text t = true ->
  joined template (rev before ++ lastToken :: t :: rest) ->
  joined template
    (rev before
     ++ Tok text (tok_value lastToken ++ tok_value t) (tok_start lastToken)
          (tok_end t) :: rest)
  /\ tok_start lastToken <= tok_end lastToken
  /\ tok_end lastToken = tok_start t
  /\ tok_start t <= tok_end t.
Proof.
  intros Htl Htt H.
  apply joined_app in H as (H1 & H2 & H3).
  apply joined_cons in H2 as (Hl1 & Hl2 & H2).
  apply joined_cons in H2 as (Ht1 & Ht2 & H2).
  destruct (Hl1 Htl) as [Hle1 Hv1]. destruct (Ht1 Htt) as [Hle2 Hv2].
  specialize (Hl2 t eq_refl Htl Htt).
  split; [|done]. apply joined_app. split; [done|]. split.
  - apply joined_cons. split; [|split; [|done]].
    + intros _. cbn. split; [lia|]. rewrite Hv1, Hv2, Hl2.
      apply slice_app; lia.
    + intros y Hy _ Hty. cbn. by apply Ht2.
  - intros x y Hx [= <-] Htx _. cbn. by apply (H3 x lastToken).
Qed.

Lemma squash_loop_text_at template toks acc p :
  joined template (rev acc ++ live toks) ->
  text_at (squash_loop toks acc) p <-> text_at (rev acc ++ live toks) p.
Proof.
  revert acc. induction toks as [|[t|] toks IH]; intros acc; cbn.
  - by rewrite app_nil_r.
  - intros H.
    assert (text_at (squash_loop toks (t :: acc)) p
            <-> text_at (rev acc ++ t :: live toks) p) as Hpush.
    { rewrite IH; cbn [rev]; by rewrite <- app_assoc. }
    destruct (tok_type t) eqn:Et; try exact Hpush.
    destruct acc as [|lastToken before]; [exact Hpush|].
    destruct (tok_type lastToken) eqn:El; try exact Hpush.
    assert (is_text t = true) as Htt by (unfold is_text; by rewrite Et).
    assert (is_text lastToken = true) as Htl
      by (unfold is_text; by rewrite El).
    cbn [rev] in H |- *. rewrite <- app_assoc in H |- *. cbn [app] in H |- *.
    destruct (joined_merge _ _ _ _ _ Htl Htt H) as (Hj & Hle1 & Hmeet & Hle2).
    rewrite IH by (cbn [rev]; by rewrite <- app_assoc).
    cbn [rev]. rewrite <- app_assoc. cbn [app].
    rewrite !text_at_app, !text_at_cons. cbn. rewrite Htl, Htt.
    split; intros [?|[[_ ?]|?]]; try tauto.
    + destruct (decide (p < tok_end lastToken)); [right; left|right; right; left];
        split; (done || lia).
    + right. left. split; [done|lia].
    + destruct H0 as [[_ ?]|?]; [|tauto]. right. left. split; [done|lia].
  - apply IH.
Qed.

Lemma list_elem_of_live t toks :
  t ∈ live toks <-> exists j, toks !! j = Some (Some t).
Proof.
  unfold live. rewrite list_elem_of_omap. split.
  - intros (slot & Hin & Hs). cbn in Hs. subst slot.
    by apply list_elem_of_lookup in Hin.
  - intros (j & Hj). exists (Some t). split; [|done].
    by eapply list_elem_of_lookup_2.
Qed.

Lemma spans_le lo l hi : spans lo l hi -> lo <= hi.
Proof.
  revert lo. induction l as [|t l IH]; intros lo; cbn; [done|].
  intros (? & ? & H). apply IH in H. lia.
Qed.

Lemma spans_end lo l hi t : spans lo l hi -> t ∈ l -> tok_end t <= hi.
Proof.
  revert lo. induction l as [|x l IH]; intros lo; cbn.
  - intros _ H. by apply elem_of_nil in H.
  - intros (? & ? & H) [->|Hin]%elem_of_cons.
    + by apply spans_le in H.
    + by eapply IH.
Qed.

(** Later items only delete tokens from the buffer, and the tokens that
    they push start at or after the offset of the first of them. *)
Lemma stripSpace_lookup st j t :
  tokens (stripSpace st) !! j = Some (Some t) ->
  tokens st !! j = Some (Some t).
Proof.
  unfold stripSpace. destruct (hasTag st && negb (nonSpace st)); [|done].
  cbn. rewrite delete_spaces_lookup.
  destruct (bool_decide _); [|done]. by destruct (tokens st !! j).
Qed.

Lemma text_char_lookup chr start st j t :
  tokens (text_char chr start st) !! j = Some (Some t) ->
  (tokens st ++ [Some (Tok text [chr] start (start + 1))]) !! j
  = Some (Some t).
Proof.
  unfold text_char.
  set (st1 := push_token _ _).
  assert (tokens st1
          = tokens st ++ [Some (Tok text [chr] start (start + 1))]) as <-.
  { subst st1. by destruct (isWhitespace [chr]). }
  destruct (Ascii.eqb chr newline); [|done].
  intros H. by apply stripSpace_lookup.
Qed.

Lemma run_item_pushes template p it q st st' j t :
  tiles template p [it] q ->
  run_item it st = Continue st' ->
  tokens st' !! j = Some (Some t) ->
  p <= q
  /\ length (tokens st) <= length (tokens st')
  /\ (j < length (tokens st) -> tokens st !! j = Some (Some t))
  /\ (length (tokens st) <= j -> p <= tok_start t).
Proof.
  intros Ht Hr Hj.
  destruct it as [sc|chr start|type value start sc]; cbn in Hr.
  - injection Hr as <-. inversion Ht as [| ? ? ? ? Hrest | |]; subst.
    inversion Hrest; subst. cbn in *. repeat apply conj; try done.
    intros Hl. apply lookup_lt_Some in Hj. lia.
  - injection Hr as <-. inversion Ht as [| |? ? ? ? Hc Hrest|]; subst.
    inversion Hrest; subst. rewrite text_char_length.
    apply text_char_lookup in Hj.
    repeat apply conj; [lia|lia| |].
    + intros Hl. by rewrite lookup_app_l in Hj.
    + intros Hl. apply lookup_lt_Some in Hj as Hlt.
      rewrite length_app in Hlt. cbn in Hlt.
      rewrite lookup_app_r in Hj by done.
      replace (j - length (tokens st)) with 0 in Hj by lia.
      by injection Hj as <-.
  - inversion Ht as [| | |? ? ? ? ? ? Hs Hlt Hrest]; subst.
    inversion Hrest; subst.
    destruct (push_tag_fields _ _ _ _ _ Hr) as (token & Htok & Hp & _).
    cbn in Htok. rewrite Htok in Hj |- *. rewrite length_app. cbn.
    repeat apply conj; [lia|lia| |].
    + intros Hl. by rewrite lookup_app_l in Hj.
    + intros Hl. apply lookup_lt_Some in Hj as Hlt'.
      rewrite length_app in Hlt'. cbn in Hlt'.
      rewrite lookup_app_r in Hj by done.
      replace (j - length (tokens st)) with 0 in Hj by lia.
      injection Hj as <-. inversion Hp; subst; done.
Qed.

Lemma tiles_le template p items q : tiles template p items q -> p <= q.
Proof. induction 1; lia. Qed.

Lemma tiles_app_inv template p a b q :
  tiles template p (a ++ b) q ->
  exists m, tiles template p a m /\ tiles template m b q.
Proof.
  revert p. induction a as [|it a IH]; intros p H.
  - exists p. split; [constructor|done].
  - cbn in H. inversion H as [|? ? ? ? H'|? ? ? ? ? H'|? ? ? ? ? ? ? ? H'];
      subst; destruct (IH _ H') as (m & Ha & Hb); exists m;
      (split; [by constructor|done]).
Qed.

Lemma tiles_char_offset template p items q chr x :
  tiles template p items q -> Char chr x ∈ items -> p <= x < q.
Proof.
  induction 1 as [|? ? ? ? H IH|? ? ? ? ? H IH|? ? ? ? ? ? ? ? H IH];
    intros Hin.
  - by apply elem_of_nil in Hin.
  - apply elem_of_cons in Hin as [?|Hin]; [done|]. by apply IH.
  - apply tiles_le in H as Hle.
    apply elem_of_cons in Hin as [[= -> ->]|Hin]; [lia|].
    specialize (IH Hin). lia.
  - apply elem_of_cons in Hin as [?|Hin]; [done|].
    specialize (IH Hin). lia.
Qed.

Lemma run_items_pushes template p items q st st' j t :
  tiles template p items q ->
  run_items items st = Continue st' ->
  tokens st' !! j = Some (Some t) ->
  (j < length (tokens st) -> tokens st !! j = Some (Some t))
  /\ (length (tokens st) <= j -> p <= tok_start t).
Proof.
  revert p st. induction items as [|it items IH]; intros p st Ht Hr Hj.
  - injection Hr as <-. split; [done|].
    intros Hl. apply lookup_lt_Some in Hj. lia.
  - cbn in Hr. destruct (run_item it st) as [st1| |] eqn:E; [|done..].
    destruct (tiles_app_inv template p [it] items q Ht) as (m & Ht1 & Ht2).
    destruct (IH m st1 Ht2 Hr Hj) as [Hold Hnew].
    pose proof (tiles_le _ _ _ _ Ht1) as Hle.
    assert (length (tokens st) <= length (tokens st1)) as Hlen.
    { rewrite (run_items_length [it] st st1); [lia|]. cbn. by rewrite E. }
    destruct (decide (j < length (tokens st1))) as [Hlt|Hge].
    + specialize (Hold Hlt).
      destruct (run_item_pushes _ _ _ _ _ _ _ _ Ht1 E Hold)
        as (_ & _ & H1 & H2).
      split; [done|]. intros Hl. by apply H2.
    + split; [lia|]. intros _. specialize (Hnew ltac:(lia)). lia.
Qed.

Lemma line_text_at template res st_end :
  parse_loop (S (length template)) (initial_state res template) = Ok st_end ->
  let items := loop_items (S (length template)) (initial_state res template) in
  let buffer := tokens (stripSpace st_end) in
  forall pre line post,
    items = pre ++ line ++ post ->
    line_start pre -> line_end post ->
    existsb is_newline line = false ->
    (existsb is_tag line = true ->
     forallb blank_or_block line = true ->
     forall chr p, Char chr p ∈ line ++ take 1 post ->
                   ~ text_at (live buffer) p)
    /\ (existsb keeps_space line = true ->
        forall chr p, Char chr p ∈ line ++ take 1 post ->
                      text_at (live buffer) p).
Proof.
  intros Hl items buffer pre line post Hitems Hstart Hend Hn.
  destruct (line_segments template res st_end Hl pre line post Hitems Hstart
              Hend Hn) as (ltoks & HF & HA & HB).
  fold buffer in HA, HB.
  set (n := length (List.filter pushes pre)) in *.
  set (line' := line ++ take 1 post) in *.
  assert (forall i, i < length ltoks ->
            take (length ltoks) (drop n buffer) !! i = buffer !! (n + i))
    as Hseg.
  { intros i Hi. by rewrite lookup_take_lt, lookup_drop. }
  split.
  - intros Htag Hb chr p Hin (t & Ht & Htext & Hp).
    specialize (HA Htag Hb).
    apply list_elem_of_live in Ht as (j & Hj).
    pose proof (loop_items_run _ _ _ Hl) as Hrun. fold items in Hrun.
    assert (tiles template 0 items (Scanner.pos (scanner st_end))) as Htiles
      by exact (loop_items_tiles _ _ _ Hl).
    assert (items = pre ++ line' ++ drop 1 post) as Hitems'.
    { rewrite Hitems. subst line'. by rewrite <- app_assoc, take_drop. }
    rewrite Hitems' in Hrun, Htiles.
    rewrite run_items_app in Hrun.
    destruct (run_items pre _) as [st1| |] eqn:E1; [|done..].
    rewrite run_items_app in Hrun.
    destruct (run_items line' st1) as [st3| |] eqn:E3; [|done..].
    apply tiles_app_inv in Htiles as (q1 & Ht1 & Htiles).
    apply tiles_app_inv in Htiles as (q2 & Ht2 & Ht3).
    destruct (tiles_char_offset _ _ _ _ _ _ Ht2 Hin) as [Hq1 Hq2].
    pose proof (run_items_length _ _ _ E1) as Hn1. cbn in Hn1. fold n in Hn1.
    pose proof (run_items_length _ _ _ E3) as Hn3.
    rewrite (Forall2_length _ _ _ HF) in Hn3.
    apply stripSpace_lookup in Hj as Hj'.
    destruct (decide (j < n)) as [Hlt|Hge].
    + destruct (run_items_pushes _ _ _ _ _ _ _ _ Ht3 Hrun Hj') as [Hold3 _].
      specialize (Hold3 ltac:(lia)).
      destruct (run_items_pushes _ _ _ _ _ _ _ _ Ht2 E3 Hold3) as [Hold1 _].
      specialize (Hold1 ltac:(lia)).
      assert (spans 0 (live (tokens st1)) q1) as Hsp.
      { eapply (run_items_spans template 0 pre); [done..|]. cbn. lia. }
      assert (t ∈ live (tokens st1)) as Hlive
        by (apply list_elem_of_live; by exists j).
      pose proof (spans_end _ _ _ _ Hsp Hlive). lia.
    + destruct (decide (j < n + length ltoks)) as [Hlt|Hge'].
      * specialize (Hseg (j - n) ltac:(lia)).
        replace (n + (j - n)) with j in Hseg by lia.
        rewrite HA, Hj, list_lookup_fmap in Hseg.
        destruct (ltoks !! (j - n)) as [t'|]; [|done]. cbn in Hseg.
        rewrite hole_if_text_is_text in Hseg.
        destruct (is_text t') eqn:Et'; [done|].
        injection Hseg as <-. congruence.
      * destruct (run_items_pushes _ _ _ _ _ _ _ _ Ht3 Hrun Hj') as [_ Hnew].
        specialize (Hnew ltac:(lia)). lia.
  - intros Hk chr p Hin. specialize (HB Hk).
    assert (Char chr p ∈ List.filter pushes line') as Hin'.
    { apply list_elem_of_In, List.filter_In.
      split; [by apply list_elem_of_In|done]. }
    apply list_elem_of_lookup in Hin' as (i & Hi).
    destruct (Forall2_lookup_l _ _ _ _ _ HF Hi) as (t & Ht & Hp).
    inversion Hp; subst.
    exists (Tok text [chr] p (p + 1)). split; [|split; [done|cbn; lia]].
    apply list_elem_of_live. exists (n + i).
    rewrite <- Hseg by (by eapply lookup_lt_Some).
    by rewrite HB, list_lookup_fmap, Ht.
Qed.

Lemma finish_flat st tree :
  buffer_ok st ->
  finish st = Ok tree ->
  flat_tokens tree
  = List.filter (fun t => negb (is_closing t))
      (squashTokens (tokens (stripSpace st))).
Proof.
  intros Hok Hf. apply finish_nest in Hf.
  by rewrite (nest_loop_flat _ [] [] tree (squashTokens_shape _ Hok) Hf).
Qed.

Lemma tree_text_at template res st_end tree p :
  parse_loop (S (length template)) (initial_state res template) = Ok st_end ->
  finish st_end = Ok tree ->
  text_at (flat_tokens tree) p
  <-> text_at (live (tokens (stripSpace st_end))) p.
Proof.
  intros Hl Hf.
  pose proof (parse_loop_ok _ _ _ Hl (initial_ok _ _)) as Hok.
  assert (line_state template st_end (Scanner.pos (scanner st_end))) as Hline.
  { eapply (run_items_line_state template 0);
      [exact (loop_items_tiles _ _ _ Hl)|apply loop_items_ok
      |by apply loop_items_run|apply initial_line_state]. }
  apply line_state_strip, line_state_joined in Hline.
  rewrite (finish_flat _ _ Hok Hf).
  rewrite text_at_closing. unfold squashTokens.
  by rewrite (squash_loop_text_at template).
Qed.

(** C2: on every line of the template that has a tag, only block tags, and
    only whitespace outside its tags, no text token of the tree that
    [parseTemplate] returns, at any depth, spans the offset of a character
    of the line outside its tags, the line feed that ends it included: the
    whitespace of the line is not among the tokens. On every line that has,
    outside its tags, a character that is not whitespace, or that has a
    variable tag, a text token of the tree spans the offset of every
    character of the line outside its tags, whitespace or not. The lines
    are those of the items of the loop, which lie on the template: the
    characters outside the tags, each at its offset, and the tags. The
    tree, read in the order of the template, is the buffer that the loop
    leaves, squashed, without the closing tags; in that buffer the
    whitespace text tokens of a line of the first kind are deleted, and
    every token of a line of the second kind stays. *)
Theorem standalone_lines_lose_whitespace template tags tree :
  template <> [] ->
  parseTemplate template tags = Ok tree ->
  exists res st_end,
    compileTags (tags_or_default tags) = inr res
    /\ parse_loop (S (length template)) (initial_state res template)
       = Ok st_end
    /\ let items :=
         loop_items (S (length template)) (initial_state res template) in
       let buffer := tokens (stripSpace st_end) in
       flat_tokens tree
       = List.filter (fun t => negb (is_closing t)) (squashTokens buffer)
       /\ content (flat_tokens tree)
          = content (List.filter (fun t => negb (is_closing t)) (live buffer))
       /\ tiles template 0 items (Scanner.pos (scanner st_end))
       /\ forall pre line post,
           items = pre ++ line ++ post ->
           line_start pre -> line_end post ->
           existsb is_newline line = false ->
           (existsb is_tag line = true ->
            forallb blank_or_block line = true ->
            forall chr p, Char chr p ∈ line ++ take 1 post ->
                          ~ text_at (flat_tokens tree) p)
           /\ (existsb keeps_space line = true ->
               forall chr p, Char chr p ∈ line ++ take 1 post ->
                             text_at (flat_tokens tree) p)
           /\ exists ltoks,
               Forall2 pushed (List.filter pushes (line ++ take 1 post)) ltoks
               /\ let segment :=
                    take (length ltoks)
                      (drop (length (List.filter pushes pre)) buffer) in
                  (existsb is_tag line = true ->
                   forallb blank_or_block line = true ->
                   segment = map hole_if_text ltoks)
                  /\ (existsb keeps_space line = true ->
                      segment = map Some ltoks).
Proof.
  intros Hne Hp.
  destruct (parseTemplate_run _ _ _ Hne Hp) as (res & st_end & Hc & Hl & Hf).
  exists res, st_end. split; [done|]. split; [done|]. cbv zeta.
  pose proof (parse_loop_ok _ _ _ Hl (initial_ok _ _)) as Hok.
  pose proof (finish_flat _ _ Hok Hf) as Hflat.
  split; [done|]. split; [|split].
  - rewrite Hflat, !content_closing. unfold squashTokens.
    by rewrite squash_loop_content.
  - apply (loop_items_tiles _ _ _ Hl).
  - intros pre line post Hitems Hstart Hend Hn.
    destruct (line_text_at template res st_end Hl pre line post Hitems
                Hstart Hend Hn) as [Hgone Hkept].
    split; [|split].
    + intros Htag Hb chr p Hin.
      rewrite (tree_text_at template res st_end tree p Hl Hf).
      by eapply Hgone.
    + intros Hk chr p Hin.
      rewrite (tree_text_at template res st_end tree p Hl Hf).
      by eapply Hkept.
    + exact (line_segments template res st_end Hl pre line post Hitems
               Hstart Hend Hn).
Qed.

(** * The further properties at concrete inputs *)

Lemma escapeHtml_injective_witness :
  escapeHtml (VString (js "a<b")) = escapeHtml (VString (js "a<b"))
  /\ js "a<b" = js "a<b".
Proof.
  split; [reflexivity|].
  apply (escapeHtml_injective (js "a<b") (js "a<b")). reflexivity.
Defined.

Lemma squashTokens_clean_witness :
  let l := [Tok text (js "a") 0 1; Tok name (js "x") 1 6;
            Tok text (js "b") 6 7] in
  no_adjacent_text l = true /\ squashTokens (map Some l) = l.
Proof.
  intros l. split; [reflexivity|].
  apply (squashTokens_clean l). reflexivity.
Defined.

Lemma nestTokens_flat_witness :
  let toks := [Tok hash (js "s") 0 6; Tok text (js "a") 6 7;
               Tok slash (js "s") 7 13] in
  let tree := [TokSection hash (js "s") 0 6 [Tok text (js "a") 6 7]
                 (Some 7)] in
  nestTokens toks = Ok tree
  /\ flat_tokens tree = [Tok hash (js "s") 0 6; Tok text (js "a") 6 7].
Proof.
  intros toks tree. split; [reflexivity|].
  apply (nestTokens_flat toks tree); reflexivity.
Defined.

Lemma parseTemplate_well_formed_witness :
  let tree := [TokSection hash (js "s") 0 6 [Tok text (js "a") 6 7]
                 (Some 7)] in
  parseTemplate (js "{{#s}}a{{/s}}") TagsUndefined = Ok tree
  /\ forallb well_formed tree = true.
Proof.
  intros tree. split; [by vm_compute|].
  apply (parseTemplate_well_formed (js "{{#s}}a{{/s}}") TagsUndefined tree).
  by vm_compute.
Defined.

Lemma delimiters_as_string_witness :
  compileTags (TagsString (js "<% %>"))
  = compileTags (TagsArray [js "<%"; js "%>"])
  /\ forall template,
      parseTemplate template (TagsString (js "<% %>"))
      = parseTemplate template (TagsArray [js "<%"; js "%>"]).
Proof.
  apply (delimiters_as_string (js "<%") (js " ") (js "%>"));
    [reflexivity|discriminate|reflexivity|reflexivity].
Defined.

Lemma parseTemplate_no_tag_witness :
  parseTemplate (js "a < b") TagsUndefined = Ok [Tok text (js "a < b") 0 5].
Proof.
  apply (parseTemplate_no_tag (js "a < b") TagsUndefined (js "{{") (js "}}"));
    [reflexivity|discriminate|reflexivity].
Defined.

Lemma render_no_tag_witness :
  (Writer_render echo 1 (js "a < b") (ViewValue VNull) PartialsUndefined
     (ConfigArray [js "<%"; js "%>"]) (clearCache new_Writer)).1
  = Ok (js "a < b").
Proof.
  apply (render_no_tag echo 0 (js "a < b") (ViewValue VNull) PartialsUndefined
           (ConfigArray [js "<%"; js "%>"]) (js "<%") (js "%>") new_Writer);
    reflexivity.
Defined.

Lemma Writer_parse_again_witness :
  let first := Writer_parse (js "a{{x}}") TagsUndefined new_Writer in
  first.1 = Ok [Tok text (js "a") 0 1; Tok name (js "x") 1 6]
  /\ Writer_parse (js "a{{x}}") TagsUndefined first.2 = (first.1, first.2).
Proof.
  intros first. split; [by vm_compute|].
  apply (Writer_parse_again (js "a{{x}}") TagsUndefined new_Writer).
  subst first. by destruct (Writer_parse _ _ _).
Defined.

Lemma parse_calls_keep_entries_witness :
  let cache : gmap jstring (list token) :=
    {[cache_key (js "a") [js "{{"; js "}}"] := [Tok text (js "a") 0 1]]} in
  exists cache',
    templateCache
      (parse_calls [(js "b", TagsUndefined); (js "{{", TagsUndefined)]
         {| templateCache := Some cache |})
    = Some cache'
    /\ cache ⊆ cache'.
Proof.
  intros cache.
  apply (parse_calls_keep_entries
           [(js "b", TagsUndefined); (js "{{", TagsUndefined)]
           {| templateCache := Some cache |} cache).
  reflexivity.
Defined.

Lemma parse_after_clearCache_witness :
  let w := (Writer_parse (js "b") TagsUndefined new_Writer).2 in
  (Writer_parse (js "a") TagsUndefined (clearCache w)).1
  = parseTemplate (js "a") TagsUndefined.
Proof.
  intros w.
  destruct (parse_after_clearCache (js "a") TagsUndefined
              [js "{{"; js "}}"] w eq_refl) as [H _].
  exact H.
Defined.

Lemma escaped_variable_is_safe_witness :
  let token := Tok name (js "x") 0 5 in
  let context := root (obj [("x", VString (js "<b>"))]) in
  let context' := root (obj [("x", VNumber (Decimal true 15 (-8)))]) in
  escapedValue token context ConfigUndefined = VString (js "&lt;b&gt;")
  /\ Forall (fun x => x ∉ html_unsafe) (js "&lt;b&gt;")
  /\ escapedValue token context' ConfigUndefined = VString (js "-1.5e-7")
  /\ Forall (fun x => x ∉ html_unsafe) (js "-1.5e-7").
Proof.
  intros token context context'. split; [reflexivity|].
  split; [|split; [reflexivity|]].
  - exact (escaped_variable_is_safe token context ConfigUndefined eq_refl).
  - exact (escaped_variable_is_safe token context' ConfigUndefined eq_refl).
Defined.


Lemma parseTemplate_offsets_witness :
  laid 0 [TokSection hash (js "s") 0 6 [Tok text (js "a") 6 7] (Some 7)] 13.
Proof.
  apply (parseTemplate_offsets (js "{{#s}}a{{/s}}") TagsUndefined).
  by vm_compute.
Defined.

Lemma render_config_only_tags_and_escape_witness :
  let view := ViewValue (obj [("s", VBool true)]) in
  Writer_render echo 2 (js "<%#s%>a<%/s%>") view PartialsUndefined
    (ConfigArray [js "<%"; js "%>"]) new_Writer
  = Writer_render echo 2 (js "<%#s%>a<%/s%>") view PartialsUndefined
      (ConfigObject (TagsArray [js "<%"; js "%>"]) None) new_Writer.
Proof.
  intros view.
  apply (render_config_only_tags_and_escape echo); [|reflexivity..].
  intros f this text sub1 sub2 w _. reflexivity.
Defined.

Lemma parseTemplate_text_witness :
  let template :=
    "x"%char :: newline :: js " {{#s}} " ++ newline :: js "y z{{/s}}" in
  Forall (text_ok template)
    [Tok text ("x"%char :: [newline]) 0 2; Tok hash (js "s") 3 9;
     Tok text (js "y z") 11 14].
Proof.
  intros template.
  apply (parseTemplate_text template TagsUndefined
           [Tok text ("x"%char :: [newline]) 0 2;
            TokSection hash (js "s") 3 9 [Tok text (js "y z") 11 14]
              (Some 14)]).
  by vm_compute.
Defined.

Lemma parse_variable_tag_witness :
  parseTemplate (js "Hello {{x}}!") TagsUndefined
  = Ok [Tok text (js "Hello ") 0 6; Tok name (js "x") 6 11;
        Tok text (js "!") 11 12].
Proof.
  apply (parse_variable_tag (js "Hello ") "{" (js "{") "x" [] "}" (js "}")
           (js "!") TagsUndefined); try reflexivity.
  - intros H. by apply char_in_spec in H.
  - by repeat constructor.
Defined.

Lemma render_variable_tag_witness :
  (Writer_render no_functions 1 (js "Hello {{x}}!")
     (ViewValue (obj [("x", VString (js "<b>"))])) PartialsUndefined
     ConfigUndefined (clearCache new_Writer)).1
  = Ok (js "Hello &lt;b&gt;!").
Proof.
  apply (render_variable_tag no_functions 0 (js "Hello ") "{" (js "{") "x" []
           "}" (js "}") (js "!")
           (ViewValue (obj [("x", VString (js "<b>"))])) PartialsUndefined
           ConfigUndefined new_Writer); try reflexivity.
  - intros H. by apply char_in_spec in H.
  - by repeat constructor.
Defined.

Lemma section_over_array_witness :
  let token := TokSection hash (js "s") 0 6 [Tok text (js "a") 6 7]
                 (Some 7) in
  renderSection no_functions (renderTokens no_functions 1) token
    (root (obj [("s", VArray [VNull; VNull; VNull])])) PartialsUndefined None
    ConfigUndefined new_Writer
  = (Ok (VString (js "aaa")), new_Writer).
Proof.
  intros token.
  apply (section_over_array no_functions (renderTokens no_functions 1) token
           [Tok text (js "a") 6 7]
           (root (obj [("s", VArray [VNull; VNull; VNull])]))
           [VNull; VNull; VNull] PartialsUndefined None ConfigUndefined
           (fun _ => js "a") new_Writer); [reflexivity..|].
  intros element _. reflexivity.
Defined.

Lemma render_plain_partial_witness :
  let token := TokPartial gt (js "p") 2 8 (js "  ") 0 false in
  let p := PartialsObject {[js "p" := js "hi"]} in
  (renderPartial (renderTokens no_functions 1) token (root VNull) p
     ConfigUndefined (clearCache new_Writer)).1
  = Ok (VString (js "  hi")).
Proof.
  intros token p.
  apply (render_plain_partial no_functions 0 (js "p") 2 8 (js "  ") 0 false
           (root VNull) p ConfigUndefined new_Writer (js "hi") (js "{{")
           (js "}}")); [by vm_compute|reflexivity|by vm_compute].
Defined.

(** ** The tree that the parser returns *)

Lemma lambda_section_receives_raw_text_witness :
  let template := js "{{#f}} <b>{{x}}</b> {{/f}}" in
  let token :=
    TokSection hash (js "f") 0 6
      [Tok text (js " <b>") 6 10; Tok name (js "x") 10 15;
       Tok text (js "</b> ") 15 20] (Some 20) in
  let items :=
    loop_items (S (length template)) (initial_state default_res template) in
  parseTemplate template TagsUndefined = Ok [token]
  /\ (exists sc, Tag hash (js "f") 0 sc ∈ items /\ Scanner.pos sc = 6)
  /\ (exists v' sc', Tag slash v' 20 sc' ∈ items)
  /\ (exists tags_read,
        Forall2 pushed (List.filter is_tag items) tags_read
        /\ [Tok hash (js "f") 0 6; Tok name (js "x") 10 15;
            Tok slash [] 20 20]
           = map closing_start tags_read)
  /\ (renderSection echo (renderTokens echo 1) token
        (root (obj [("f", VFunction 0 (js "function () {}"))]))
        PartialsUndefined (Some template) ConfigUndefined new_Writer).1
     = Ok (VString (js " <b>{{x}}</b> ")).
Proof.
  intros template token items.
  assert (parseTemplate template TagsUndefined = Ok [token]) as Hp
    by (by vm_compute).
  split; [exact Hp|].
  destruct (lambda_section_receives_raw_text echo (renderTokens echo 1)
              template TagsUndefined [token] Hp) as [_ Hparse].
  destruct Hparse as [[H _]|(res & st_end & tags_read & Hc & _ & H)];
    [done|].
  injection Hc as <-. destruct H as (_ & Hpushed & Htags & Hsection).
  destruct (Hsection hash (js "f") 0 6
              [Tok text (js " <b>") 6 10; Tok name (js "x") 10 15;
               Tok text (js "</b> ") 15 20] 20)
    as (Hopen & Hclose & Hrender).
  { apply elem_of_cons. by left. }
  split; [exact Hopen|]. split; [exact Hclose|]. split.
  - exists tags_read. split; [exact Hpushed|exact Htags].
  - rewrite Hrender; reflexivity.
Defined.

Lemma standalone_lines_lose_whitespace_witness :
  let template := js "  {{#a}} " ++ newline :: js "x {{/a}}" in
  let tree := [TokSection hash (js "a") 2 8 [Tok text (js "x ") 10 12]
                 (Some 12)] in
  let sc pos := Scanner.Make template pos in
  let line1 := [Scan (sc 2); Char " " 0; Char " " 1; Tag hash (js "a") 2 (sc 8);
                Scan (sc 12); Char " " 8] in
  let line2 := [Char "x" 10; Char " " 11; Tag slash (js "a") 12 (sc 18)] in
  parseTemplate template TagsUndefined = Ok tree
  /\ ~ text_at (flat_tokens tree) 0
  /\ ~ text_at (flat_tokens tree) 8
  /\ ~ text_at (flat_tokens tree) 9
  /\ text_at (flat_tokens tree) 11
  /\ exists st_end,
      parse_loop (S (length template)) (initial_state default_res template)
      = Ok st_end
      /\ loop_items (S (length template)) (initial_state default_res template)
         = line1 ++ [Char newline 9] ++ line2
      /\ take 5 (tokens (stripSpace st_end))
         = [None; None; Some (Tok hash (js "a") 2 8); None; None]
      /\ take 3 (drop 5 (tokens (stripSpace st_end)))
         = [Some (Tok text (js "x") 10 11); Some (Tok text (js " ") 11 12);
            Some (Tok slash (js "a") 12 18)]
      /\ content
           (List.filter (fun t => negb (is_closing t))
              (live (tokens (stripSpace st_end))))
         = [inr (Tok hash (js "a") 2 8); inl "x"%char; inl " "%char].
Proof.
  intros template tree sc line1 line2.
  assert (parseTemplate template TagsUndefined = Ok tree) as Hp
    by (by vm_compute).
  split; [exact Hp|].
  destruct (standalone_lines_lose_whitespace template TagsUndefined tree)
    as (res & st_end & Hc & Hl & _ & Hcontent & _ & H); [done|exact Hp|].
  injection Hc as <-.
  destruct (H [] line1 (Char newline 9 :: line2))
    as (Hgone & _ & ltoks1 & HF1 & HA & _);
    [by vm_compute | by left | right; by eexists _, _ | reflexivity |].
  destruct (H (line1 ++ [Char newline 9]) line2 [])
    as (_ & Hkept & ltoks2 & HF2 & _ & HB);
    [by vm_compute | right; by eexists _, _ | by left | reflexivity |].
  split; [|split; [|split; [|split]]].
  - apply (Hgone eq_refl eq_refl " "%char 0). apply list_elem_of_In. cbn. tauto.
  - apply (Hgone eq_refl eq_refl " "%char 8). apply list_elem_of_In. cbn. tauto.
  - apply (Hgone eq_refl eq_refl newline 9). apply list_elem_of_In. cbn. tauto.
  - apply (Hkept eq_refl " "%char 11). apply list_elem_of_In. cbn. tauto.
  - exists st_end. split; [exact Hl|]. split; [by vm_compute|].
    split; [|split].
    + cbn in HF1.
      repeat match goal with
        | HF : Forall2 pushed _ _ |- _ => inversion HF; clear HF; subst
        | HP : pushed _ _ |- _ => inversion HP; clear HP; subst
        end.
      exact (HA eq_refl eq_refl).
    + cbn in HF2.
      repeat match goal with
        | HF : Forall2 pushed _ _ |- _ => inversion HF; clear HF; subst
        | HP : pushed _ _ |- _ => inversion HP; clear HP; subst
        end.
      exact (HB eq_refl).
    + rewrite <- Hcontent. reflexivity.
Defined.
